(** * TankEngine allocators: pools, offset pointers, size-classed allocation

    A shallow embedding of [Allocators.h] (namespace [Alc]) and the
    properties of its pool allocator that the specification states.

    Conventions of the embedding.
    - [uint64_t] values are integers of [Z] with the wrap-around written
      out ([u64]); [uint8_t] values likewise ([u8]).
    - A pool owns one allocation.  Its contents are the byte list [block];
      a pointer into the allocation is the byte offset from its start, so
      [pLut] (the start of the allocation) is offset [0] and [pMem] is the
      offset of the object region.  Pointer arithmetic is not wrapped.
    - A [PoolAllocator*] is an object identity of type [ptr]; [None] is
      [nullptr].  A stand-alone allocator binds its handles to [&m_Pool].
      The general-purpose allocator binds them to the sub-allocator itself,
      cast to [PoolAllocator*]; resolving such a handle is taken to reach
      [Internal()] of the sub-allocator's [m_Pool], which is what the test
      program relies on when it prints [n.Resolve()].
    - A call either returns, throws, or has no defined behaviour
      ([Outcome]).  Arguments passed by reference are part of the state
      that an outcome carries.
    - The embedding covers [ThreadSafe = false] (the mutex is never taken),
      the default no-op reallocation callback, and element types whose
      destructor is trivial, as are [Padding] and the types of the
      repository's own test program. *)

From Stdlib Require Import ZArith Lia Bool List.
From stdpp Require Import base option list sorting gmap.

Local Open Scope Z_scope.

(** ** Machine integers *)

Definition u64 (z : Z) : Z := z mod 2 ^ 64.
Definition u8 (z : Z) : Z := z mod 2 ^ 8.

(** [uint8_t flag = (1U << j)] *)
Definition flag (j : Z) : Z := u8 (Z.shiftl 1 j).

(** ** Outcomes of calls *)

Inductive exn : Set := bad_alloc | out_of_range.

Inductive Outcome (St A : Type) : Type :=
| Return (s : St) (a : A)
| Throw (s : St) (e : exn)
| Undefined.
Arguments Return {St A} s a.
Arguments Throw {St A} s e.
Arguments Undefined {St A}.

(** ** OffsetPtr *)

Abbreviation ptr := Z (only parsing).

Record OffsetPtr : Type := mkOffsetPtr {
  offset : Z;
  pContainer : option ptr
}.

(** [OffsetPtr()] *)
Definition OffsetPtr_null : OffsetPtr :=
  {| offset := 0; pContainer := None |}.

(** [OffsetPtr(pPool, elementOffset)] *)
Definition OffsetPtr_of (pPool : ptr) (elementOffset : Z) : OffsetPtr :=
  {| offset := elementOffset; pContainer := Some pPool |}.

Definition OffsetPtr_Internal (h : OffsetPtr) : Z := offset h.
Definition Container (h : OffsetPtr) : option ptr := pContainer h.

Definition ZeroOut (h : OffsetPtr) : OffsetPtr :=
  {| offset := 0; pContainer := None |}.

(** ** AlignedAllocator and Pool *)

(** [AlignedAllocator::Alloc]: a fresh block of [size] zero bytes. *)
Definition Alloc (size : Z) : list Z := replicate (Z.to_nat size) 0.

(** [std::memcpy (dst + doff, src + soff, n)] on the contents of two
    allocations.  Bytes that would fall outside [dst] are dropped. *)
Definition memcpy (dst : list Z) (doff : Z) (src : list Z) (soff n : Z)
  : list Z :=
  list_inserts (Z.to_nat doff)
    (take (Z.to_nat n) (drop (Z.to_nat soff) src)) dst.

Record Pool : Type := mkPool {
  block : list Z;
  pMem : Z;
  capacity : Z;
  size : Z;
  poolItemSize : Z
}.

(** [Pool::Pool(elementSize, poolCapacity)] *)
Definition Pool_new (elementSize poolCapacity : Z) : Pool :=
  let pMemory :=
    Alloc (u64 (poolCapacity / 8 + u64 (elementSize * poolCapacity))) in
  {| block := pMemory;
     pMem := poolCapacity / 8;
     capacity := poolCapacity;
     size := 0;
     poolItemSize := elementSize |}.

(** [Pool::Reallocate] *)
Definition Reallocate (old : Pool) : Pool :=
  let capacity' := u64 (capacity old * 2) in
  let pNewMemory :=
    Alloc (u64 (capacity' / 8 + u64 (poolItemSize old * capacity'))) in
  let pMem' := capacity' / 8 in
  let lutCopied := memcpy pNewMemory 0 (block old) 0 (capacity old / 8) in
  let poolCopied :=
    memcpy lutCopied pMem' (block old) (pMem old)
      (u64 (poolItemSize old * capacity old)) in
  {| block := poolCopied;
     pMem := pMem';
     capacity := capacity';
     size := size old;
     poolItemSize := poolItemSize old |}.

(** [Pool::Internal] *)
Definition Internal (p : Pool) : Z := pMem p.

(** [OffsetPtr<Type>::Resolve]: [deref] is the store of pool allocators the
    container pointer is read from; the result is the address
    [static_cast<Type*>(pContainer->Internal()) + offset]. *)
Definition Resolve (sizeofT : Z) (deref : ptr -> option Pool)
    (h : OffsetPtr) : option Z :=
  match pContainer h with
  | None => None
  | Some c =>
      match deref c with
      | None => None
      | Some p => Some (Internal p + offset h * sizeofT)
      end
  end.

(** The store seen by a stand-alone allocator: the only pool allocator it
    can dereference is its own, [self]. *)
Definition own (self : ptr) (p : Pool) : ptr -> option Pool :=
  fun c => if decide (c = self) then Some p else None.

(** Reading the object a handle designates (the effect of [h->...]). *)
Definition read_handle (sizeofT : Z) (deref : ptr -> option Pool)
    (h : OffsetPtr) : option (list Z) :=
  match pContainer h with
  | None => None
  | Some c =>
      match deref c, Resolve sizeofT deref h with
      | Some p, Some a => Some (take (Z.to_nat sizeofT)
                                  (drop (Z.to_nat a) (block p)))
      | _, _ => None
      end
  end.

(** ** Reading the occupancy bitmap and the object region *)

(** Bit [i mod 8] of bitmap byte [i / 8]. *)
Definition slot_bit (p : Pool) (i : Z) : bool :=
  match block p !! Z.to_nat (i / 8) with
  | Some b => Z.testbit b (i mod 8)
  | None => false
  end.

(** Number of set bits among the [capacity] bits of the bitmap. *)
Fixpoint count_upto (f : Z -> bool) (n : nat) : Z :=
  match n with
  | O => 0
  | S n' => count_upto f n' + (if f (Z.of_nat n') then 1 else 0)
  end.

Definition popcount (p : Pool) : Z :=
  count_upto (slot_bit p) (Z.to_nat (capacity p)).

(** The [n] bytes at byte offset [a] of the allocation. *)
Definition bytes_at (p : Pool) (a n : Z) : list Z :=
  take (Z.to_nat n) (drop (Z.to_nat a) (block p)).

(** The bytes of the object a handle with index [i] and element size
    [sizeofT] resolves to. *)
Definition object_at (sizeofT : Z) (p : Pool) (i : Z) : list Z :=
  bytes_at p (Internal p + i * sizeofT) sizeofT.

(** ** FixedTypeAllocator *)

Section FixedTypeAllocator.

(** Template parameters: [sizeof(Type)], the bytes of a value-initialised
    [Type], [Size] and [Reallocates]; [self] is the identity handles are
    bound to ([&m_Pool]). *)
Variable sizeofT : Z.
Variable Type_init : list Z.
Variable Size : Z.
Variable Reallocates : bool.
Variable self : ptr.

(** [FixedTypeAllocator()]: [m_Pool(sizeof(Type), Size)] *)
Definition FixedTypeAllocator_new : Pool := Pool_new sizeofT Size.

(** Inner loop of [Get]: the first [j] from [j] on, below [j + fuel],
    with [~b & flag] non-zero. *)
Fixpoint Get_bit (b : Z) (j : Z) (fuel : nat) : option Z :=
  match fuel with
  | O => None
  | S fuel' =>
      if Z.land (Z.lnot b) (flag j) =? 0
      then Get_bit b (j + 1) fuel'
      else Some j
  end.

(** Outer loop of [Get]: [lut] is what is left of the bitmap from the
    walking pointer [pLut] on, [i] the byte counter. *)
Fixpoint Get_scan (lut : list Z) (i : Z) : option (Z * Z) :=
  match lut with
  | [] => None
  | b :: rest =>
      match Get_bit b 0 8 with
      | Some j => Some (i, j)
      | None => Get_scan rest (i + 1)
      end
  end.

(** [*pLut |= flag; m_Pool.size++] at byte [i], bit [j]. *)
Definition claim (p : Pool) (i j : Z) : Pool :=
  {| block := alter (fun b => u8 (Z.lor b (flag j))) (Z.to_nat i) (block p);
     pMem := pMem p;
     capacity := capacity p;
     size := u64 (size p + 1);
     poolItemSize := poolItemSize p |}.

(** [new (&static_cast<Type*>(m_Pool.pMem)[idx]) Type()] *)
Definition construct (p : Pool) (idx : Z) : Pool :=
  {| block := list_inserts (Z.to_nat (pMem p + idx * sizeofT)) Type_init
                (block p);
     pMem := pMem p;
     capacity := capacity p;
     size := size p;
     poolItemSize := poolItemSize p |}.

(** [FixedTypeAllocator::Get] *)
Definition Get (p : Pool) : Outcome Pool OffsetPtr :=
  let full := u64 (size p + 1) >? capacity p in
  if full && negb Reallocates then Return p OffsetPtr_null
  else
    let p := if full then Reallocate p else p in
    match Get_scan (take (Z.to_nat (capacity p / 8)) (block p)) 0 with
    | Some (i, j) =>
        let p := claim p i j in
        let idx := u64 (i * 8 + j) in
        let p := construct p idx in
        Return p (OffsetPtr_of self idx)
    | None => Throw p bad_alloc
    end.

(** [*pBox ^= flag; m_Pool.size--] *)
Definition release (p : Pool) (box boxOffset : Z) : Pool :=
  {| block := alter (fun b => u8 (Z.lxor b (flag boxOffset)))
                (Z.to_nat box) (block p);
     pMem := pMem p;
     capacity := capacity p;
     size := u64 (size p - 1);
     poolItemSize := poolItemSize p |}.

(** [FixedTypeAllocator::Pop].  The state is the pool and the handle,
    which is passed by reference. *)
Definition Pop (p : Pool) (element : OffsetPtr)
  : Outcome (Pool * OffsetPtr) unit :=
  match Resolve sizeofT (own self p) element with
  | None => Undefined
  | Some pElement =>
      if (pElement <? pMem p) || (pElement >? pMem p + capacity p * sizeofT)
      then Throw (p, element) out_of_range
      else
        let index := u64 ((pElement - pMem p) / sizeofT) in
        let box := if index =? 0 then 0 else (index / 8) mod capacity p in
        let boxOffset := if index =? 0 then 0 else u8 (index mod 8) in
        match block p !! Z.to_nat box with
        | None => Undefined
        | Some b =>
            if Z.land b (flag boxOffset) =? 0
            then Return (p, element) tt
            else Return (release p box boxOffset, ZeroOut element) tt
        end
  end.

(** One iteration of the loop of [ForAllActive] at slot [i]; [f] is the
    visitor, called with the element's address, acting on the host's
    state [s]. *)
Definition ForAllActive_step {St : Type} (p : Pool) (f : Z -> St -> St)
    (acc : option St) (i : Z) : option St :=
  match acc with
  | None => None
  | Some s =>
      let box := if i =? 0 then 0 else (i / 8) mod Size in
      let boxOffset := if i =? 0 then 0 else u8 (i mod 8) in
      match block p !! Z.to_nat box with
      | None => None
      | Some b =>
          if Z.land b (flag boxOffset) =? 0
          then Some s
          else Some (f (pMem p + i * sizeofT) s)
      end
  end.

(** [FixedTypeAllocator::ForAllActive]; [None] when a bitmap read falls
    outside the allocation. *)
Definition ForAllActive {St : Type} (p : Pool) (f : Z -> St -> St)
    (s : St) : option St :=
  foldl (ForAllActive_step p f) (Some s) (seqZ 0 (capacity p)).

(** [FixedTypeAllocator::ForAllFast] *)
Definition ForAllFast {St : Type} (p : Pool) (f : Z -> St -> St)
    (s : St) : St :=
  foldl (fun s i => f (pMem p + i * sizeofT) s) s (seqZ 0 (capacity p)).

(** [ForAll<IgnoreInactive>] *)
Definition ForAll {St : Type} (IgnoreInactive : bool) (p : Pool)
    (f : Z -> St -> St) (s : St) : option St :=
  if IgnoreInactive then ForAllActive p f s else Some (ForAllFast p f s).

End FixedTypeAllocator.

(** The visitor that records the addresses it is called with, in call
    order. *)
Definition record_visit (a : Z) (trace : list Z) : list Z := trace ++ [a].

(** ** GeneralPurposeAllocator *)

Record GeneralPurposeAllocator : Type := mkGPA {
  m_Pools : gmap Z Pool;
  m_SubPoolSizes : list Z
}.

Section GeneralPurposeAllocator.

(** Template parameters [PoolSize] and [Reallocates]; the class sizes
    [SubPoolSize...] are the argument of the constructor. *)
Variable PoolSize : Z.
Variable Reallocates : bool.

(** [AddPools<Size>]: [m_Pools[Size] = new FixedTypeAllocator<Padding<Size>,
    PoolSize, ...>()].  A sub-allocator is represented by its [m_Pool] and
    identified by its key. *)
Definition AddPools (pools : gmap Z Pool) (Size : Z) : gmap Z Pool :=
  <[Size := FixedTypeAllocator_new Size PoolSize]> pools.

(** [GeneralPurposeAllocator()] *)
Definition GeneralPurposeAllocator_new (SubPoolSize : list Z)
  : GeneralPurposeAllocator :=
  {| m_Pools := foldl AddPools ∅ SubPoolSize;
     m_SubPoolSizes := SubPoolSize |}.

(** [ResolvePool<Type>]; [None] is [throw std::bad_alloc()]. *)
Fixpoint ResolvePool (subPoolSizes : list Z) (typeSize : Z) : option Z :=
  match subPoolSizes with
  | [] => None
  | c :: rest =>
      if typeSize <=? c then Some c else ResolvePool rest typeSize
  end.

Definition set_pool (g : GeneralPurposeAllocator) (pool : Z) (p : Pool)
  : GeneralPurposeAllocator :=
  {| m_Pools := <[pool := p]> (m_Pools g);
     m_SubPoolSizes := m_SubPoolSizes g |}.

(** [GeneralPurposeAllocator::New<Type>].  The sub-allocator found under
    the class size is used as a [FixedTypeAllocator<Padding<sizeof(Type)>>]:
    its [Get] runs with element size [sizeof(Type)] and value-initialises
    a [Padding<sizeof(Type)>], that is [sizeof(Type)] zero bytes. *)
Definition New (sizeofT : Z) (g : GeneralPurposeAllocator)
  : Outcome GeneralPurposeAllocator OffsetPtr :=
  match ResolvePool (m_SubPoolSizes g) sizeofT with
  | None => Throw g bad_alloc
  | Some pool =>
      match m_Pools g !! pool with
      | None => Undefined
      | Some ftPool =>
          match Get sizeofT (replicate (Z.to_nat sizeofT) 0) Reallocates
                  pool ftPool with
          | Return ftPool' h =>
              Return (set_pool g pool ftPool')
                (OffsetPtr_of pool (OffsetPtr_Internal h))
          | Throw ftPool' e => Throw (set_pool g pool ftPool') e
          | Undefined => Undefined
          end
      end
  end.

(** [GeneralPurposeAllocator::Delete<Type>]; the state is the allocator
    and the caller's handle [oPtr]. *)
Definition Delete (sizeofT : Z) (g : GeneralPurposeAllocator)
    (oPtr : OffsetPtr)
  : Outcome (GeneralPurposeAllocator * OffsetPtr) unit :=
  match ResolvePool (m_SubPoolSizes g) sizeofT with
  | None => Throw (g, oPtr) bad_alloc
  | Some pool =>
      match m_Pools g !! pool with
      | None => Undefined
      | Some ftPool =>
          let sized := OffsetPtr_of pool (OffsetPtr_Internal oPtr) in
          match Pop sizeofT pool ftPool sized with
          | Return (ftPool', _) _ =>
              Return (set_pool g pool ftPool', ZeroOut oPtr) tt
          | Throw (ftPool', _) e => Throw (set_pool g pool ftPool', oPtr) e
          | Undefined => Undefined
          end
      end
  end.

(** Resolving a handle against the allocator's current pools. *)
Definition Resolve_in (sizeofT : Z) (g : GeneralPurposeAllocator)
    (h : OffsetPtr) : option Z :=
  Resolve sizeofT (fun c => m_Pools g !! c) h.

End GeneralPurposeAllocator.

(** ** Predicates on pool states *)

(** Well-formed pools: what the constructor establishes and every
    operation keeps.  The capacity is a [uint64_t] multiple of eight, the
    object region starts right after the [capacity / 8] bytes of the
    bitmap, and the allocation holds the bitmap and [capacity] items of
    [poolItemSize] bytes. *)
Record pool_wf (p : Pool) : Prop := mk_pool_wf {
  wf_capacity : 0 <= capacity p < 2 ^ 64;
  wf_mult8 : capacity p mod 8 = 0;
  wf_pMem : pMem p = capacity p / 8;
  wf_item : 0 <= poolItemSize p;
  wf_block :
    Z.of_nat (length (block p)) =
    capacity p / 8 + poolItemSize p * capacity p
}.

(** The invariant of the data model: [size] is the number of set bits. *)
Definition size_inv (p : Pool) : Prop := size p = popcount p.

(** [claimed q q' k]: [q'] is [q] with slot [k], the lowest free slot of
    [q], claimed and nothing else changed in the bookkeeping. *)
Definition claimed (q q' : Pool) (k : Z) : Prop :=
  0 <= k < capacity q /\
  slot_bit q k = false /\
  (forall k', 0 <= k' < k -> slot_bit q k' = true) /\
  slot_bit q' k = true /\
  (forall k', 0 <= k' < capacity q -> k' <> k ->
     slot_bit q' k' = slot_bit q k') /\
  size q' = u64 (size q + 1) /\
  capacity q' = capacity q /\
  pMem q' = pMem q /\
  poolItemSize q' = poolItemSize q /\
  length (block q') = length (block q).

(** The doubled block request of [Reallocate] is representable. *)
Definition growth_fits (p : Pool) : Prop :=
  capacity p * 2 < 2 ^ 64 /\
  capacity p * 2 / 8 + poolItemSize p * (capacity p * 2) < 2 ^ 64.

(** The address of slot [k] of the object region, which [Pool] lays out
    as [capacity] items of [poolItemSize] bytes each (the sizes passed to
    [Alloc] and [memcpy] in [Pool::Pool] and [Pool::Reallocate]). *)
Definition slot_address (p : Pool) (k : Z) : Z :=
  Internal p + k * poolItemSize p.

(** ** Runs of calls *)

(** The state a call leaves behind, [d] when it has no defined behaviour,
    and the value it returns. *)
Definition outcome_state {St A : Type} (o : Outcome St A) (d : St) : St :=
  match o with
  | Return s _ => s
  | Throw s _ => s
  | Undefined => d
  end.

Definition outcome_value {St A : Type} (o : Outcome St A) : option A :=
  match o with
  | Return _ a => Some a
  | _ => None
  end.

(** [News R sizes g]: the allocator after one [New] per element of
    [sizes], each for a type of that size, as in the allocation loop of
    the test program. *)
Definition News (Reallocates : bool) (sizes : list Z)
    (g : GeneralPurposeAllocator) : GeneralPurposeAllocator :=
  foldl (fun g sizeofT => outcome_state (New Reallocates sizeofT g) g)
    g sizes.

(** ** Runs of allocations

    [Gets n p]: the pool after [n] successive calls of [Get], as in the
    allocation loops of the repository's test program. *)
Fixpoint Gets (sizeofT : Z) (Type_init : list Z) (Reallocates : bool)
    (self : ptr) (n : nat) (p : Pool) : Pool :=
  match n with
  | O => p
  | S n' =>
      match Get sizeofT Type_init Reallocates self
              (Gets sizeofT Type_init Reallocates self n' p) with
      | Return p' _ => p'
      | Throw p' _ => p'
      | Undefined => Gets sizeofT Type_init Reallocates self n' p
      end
  end.

(** ** States an allocator reaches

    The host writes into objects through resolved handles: [poke p a v]
    stores byte [v] at offset [a] of the allocation, where [a] is inside
    the object region. *)
Definition poke (p : Pool) (a v : Z) : Pool :=
  {| block := <[Z.to_nat a := v]> (block p);
     pMem := pMem p;
     capacity := capacity p;
     size := size p;
     poolItemSize := poolItemSize p |}.

(** The states of a [FixedTypeAllocator] reached from construction by
    calls of [Get], by calls of [Pop] on handles of this pool whose index
    is below the capacity (the handles [Get] returns), and by writes of the
    host into the object region.  A growth step is taken only when the
    doubled block is representable. *)
Inductive reachable (sizeofT : Z) (Type_init : list Z) (Size : Z)
    (Reallocates : bool) (self : ptr) : Pool -> Prop :=
| reach_new :
    reachable sizeofT Type_init Size Reallocates self
      (FixedTypeAllocator_new sizeofT Size)
| reach_Get p p' h :
    reachable sizeofT Type_init Size Reallocates self p ->
    (Reallocates = true -> growth_fits p) ->
    Get sizeofT Type_init Reallocates self p = Return p' h ->
    reachable sizeofT Type_init Size Reallocates self p'
| reach_Pop p h p' h' :
    reachable sizeofT Type_init Size Reallocates self p ->
    pContainer h = Some self -> 0 <= offset h < capacity p ->
    Pop sizeofT self p h = Return (p', h') tt ->
    reachable sizeofT Type_init Size Reallocates self p'
| reach_poke p a v :
    reachable sizeofT Type_init Size Reallocates self p ->
    pMem p <= a ->
    reachable sizeofT Type_init Size Reallocates self (poke p a v).

(** [prefix_live Size m p]: the state of a pool of initial capacity [Size]
    whose [m] lowest slots are live and whose other slots are free, with
    the capacity that [m] allocations without any free lead to. *)
Definition prefix_live (Size m : Z) (p : Pool) : Prop :=
  pool_wf p /\ size_inv p /\ size p = m /\
  Size <= capacity p /\ m <= capacity p /\
  (m <= Size -> capacity p = Size) /\
  (Size < m -> capacity p < 2 * m) /\
  forall k, 0 <= k < capacity p -> slot_bit p k = (k <? m).

(** ** The reallocation callback

    A [FixedTypeAllocator] with its callback.  [m_OnReallocateCallback] is
    a [std::function<void()>]: what it does is a change of the state [St]
    of the host that registered it. *)
Record FixedTypeAllocator (St : Type) : Type := mkFixedTypeAllocator {
  m_Pool : Pool;
  m_OnReallocateCallback : St -> St
}.
Arguments mkFixedTypeAllocator {St} _ _.
Arguments m_Pool {St} _.
Arguments m_OnReallocateCallback {St} _.

(** [FixedTypeAllocator()]: [m_Pool(sizeof(Type), Size)] and the default
    callback [[](){}]. *)
Definition FixedTypeAllocator_ctor {St : Type} (sizeofT Size : Z)
  : FixedTypeAllocator St :=
  {| m_Pool := Pool_new sizeofT Size;
     m_OnReallocateCallback := fun s => s |}.

(** [SetOnReallocateCallback(cb)] *)
Definition SetOnReallocateCallback {St : Type} (cb : St -> St)
    (a : FixedTypeAllocator St) : FixedTypeAllocator St :=
  {| m_Pool := m_Pool a; m_OnReallocateCallback := cb |}.

(** [FixedTypeAllocator::Get] with the callback: the state is the
    allocator and the state of the host. *)
Definition Get_notify {St : Type} (sizeofT : Z) (Type_init : list Z)
    (Reallocates : bool) (self : ptr) (a : FixedTypeAllocator St) (s : St)
  : Outcome (FixedTypeAllocator St * St) OffsetPtr :=
  let cb := m_OnReallocateCallback a in
  let p := m_Pool a in
  let full := u64 (size p + 1) >? capacity p in
  if full && negb Reallocates then Return (a, s) OffsetPtr_null
  else
    let p := if full then Reallocate p else p in
    let s := if full then cb s else s in
    match Get_scan (take (Z.to_nat (capacity p / 8)) (block p)) 0 with
    | Some (i, j) =>
        let p := claim p i j in
        let idx := u64 (i * 8 + j) in
        let p := construct sizeofT Type_init p idx in
        Return (mkFixedTypeAllocator p cb, s) (OffsetPtr_of self idx)
    | None => Throw (mkFixedTypeAllocator p cb, s) bad_alloc
    end.

(** [n] successive calls of [Get_notify]. *)
Fixpoint Gets_notify {St : Type} (sizeofT : Z) (Type_init : list Z)
    (Reallocates : bool) (self : ptr) (n : nat)
    (a : FixedTypeAllocator St) (s : St) : FixedTypeAllocator St * St :=
  match n with
  | O => (a, s)
  | S n' =>
      let '(a', s') :=
        Gets_notify sizeofT Type_init Reallocates self n' a s in
      outcome_state (Get_notify sizeofT Type_init Reallocates self a' s')
        (a', s')
  end.

(** ** The blocks on the heap

    The same [Pool] with its pointers as addresses into a heap of live
    allocations, so that [AlignedAllocator::Dealloc], the copy constructor
    and the destructor of [Pool] can be followed.  A heap maps the base
    address of each live allocation to its bytes.  The address a call of
    [_aligned_malloc] returns is chosen by the C runtime: it is the
    argument [at] of [Raw.Alloc]. *)
Module Raw.

Record Pool : Type := mkPool {
  pLut : Z;
  pMem : Z;
  capacity : Z;
  size : Z;
  poolItemSize : Z
}.

(** [AlignedAllocator::Alloc] *)
Definition Alloc (heap : gmap Z (list Z)) (at_ : Z) (sz : Z)
  : gmap Z (list Z) * Z :=
  (<[at_ := replicate (Z.to_nat sz) 0]> heap, at_).

(** [AlignedAllocator::Dealloc] *)
Definition Dealloc (heap : gmap Z (list Z)) (pPtr : Z) : gmap Z (list Z) :=
  delete pPtr heap.

(** [Pool::Pool(elementSize, poolCapacity)] *)
Definition Pool_new (heap : gmap Z (list Z)) (at_ : Z)
    (elementSize poolCapacity : Z) : gmap Z (list Z) * Pool :=
  let '(heap, pMemory) :=
    Alloc heap at_
      (u64 (poolCapacity / 8 + u64 (elementSize * poolCapacity))) in
  (heap,
   {| pLut := pMemory;
      pMem := pMemory + poolCapacity / 8;
      capacity := poolCapacity;
      size := 0;
      poolItemSize := elementSize |}).

(** [Pool::~Pool] *)
Definition Pool_delete (heap : gmap Z (list Z)) (this : Pool)
  : gmap Z (list Z) :=
  Dealloc heap (pLut this).

(** [Pool::Reallocate]: the copy [old] of [*this] keeps the old block,
    which its destructor releases at the end of the scope.  [None] when a
    block that is read or written is not allocated. *)
Definition Reallocate (heap : gmap Z (list Z)) (at_ : Z) (this : Pool)
  : option (gmap Z (list Z) * Pool) :=
  let old := this in
  let capacity' := u64 (capacity this * 2) in
  let '(heap, pNewMemory) :=
    Alloc heap at_
      (u64 (capacity' / 8 + u64 (poolItemSize this * capacity'))) in
  let pLut' := pNewMemory in
  let pMem' := pNewMemory + capacity' / 8 in
  match heap !! pLut old, heap !! pLut' with
  | Some src, Some dst =>
      let dst := memcpy dst 0 src 0 (capacity old / 8) in
      let dst :=
        memcpy dst (pMem' - pLut') src (pMem old - pLut old)
          (u64 (poolItemSize old * capacity old)) in
      let heap := <[pLut' := dst]> heap in
      Some (Pool_delete heap old,
            {| pLut := pLut';
               pMem := pMem';
               capacity := capacity';
               size := size this;
               poolItemSize := poolItemSize this |})
  | _, _ => None
  end.

(** Successive growths, at the addresses [ats]. *)
Fixpoint Reallocates (heap : gmap Z (list Z)) (ats : list Z) (this : Pool)
  : option (gmap Z (list Z) * Pool) :=
  match ats with
  | [] => Some (heap, this)
  | at_ :: ats' =>
      match Reallocate heap at_ this with
      | Some (heap', this') => Reallocates heap' ats' this'
      | None => None
      end
  end.

(** Each address of [ats] is free when it is returned: not allocated in
    [heap], and not the current block [cur] of the pool. *)
Fixpoint fresh (heap : gmap Z (list Z)) (cur : Z) (ats : list Z) : Prop :=
  match ats with
  | [] => True
  | at_ :: ats' => heap !! at_ = None /\ at_ <> cur /\ fresh heap at_ ats'
  end.

End Raw.

(** The pool that a raw pool stands for: its block read from the heap and
    its pointers taken relative to the start of the block. *)
Definition contents (heap : gmap Z (list Z)) (this : Raw.Pool)
  : option Pool :=
  match heap !! Raw.pLut this with
  | Some blk =>
      Some {| block := blk;
              pMem := Raw.pMem this - Raw.pLut this;
              capacity := Raw.capacity this;
              size := Raw.size this;
              poolItemSize := Raw.poolItemSize this |}
  | None => None
  end.

(** ** Fsa

    [Fsa::GetPool<Size, Capacity>] returns the address of a function-local
    static [Pool], one per instantiation, constructed when control first
    passes through its declaration.  The statics that have been
    constructed are a map from the template arguments, which also serve as
    the address returned. *)
Definition GetPool (statics : gmap (Z * Z) Pool) (Size Capacity : Z)
  : gmap (Z * Z) Pool * (Z * Z) :=
  match statics !! (Size, Capacity) with
  | Some _ => (statics, (Size, Capacity))
  | None =>
      (<[(Size, Capacity) := Pool_new Size Capacity]> statics,
       (Size, Capacity))
  end.

(** ** Visitors that write

    [ForAll] with a visitor that writes through the pointer it is given.
    The visitor [v] maps the address of the element and the bytes of the
    block to the bytes of the block after the call; the loop reads the
    bitmap from the block as the visitors so far have left it. *)
Definition set_block (p : Pool) (blk : list Z) : Pool :=
  {| block := blk;
     pMem := pMem p;
     capacity := capacity p;
     size := size p;
     poolItemSize := poolItemSize p |}.

(** One iteration of [ForAllActive] at slot [i]. *)
Definition ForAllActive_write_step (sizeofT Size : Z)
    (v : Z -> list Z -> list Z) (acc : option Pool) (i : Z) : option Pool :=
  match acc with
  | None => None
  | Some q =>
      let box := if i =? 0 then 0 else (i / 8) mod Size in
      let boxOffset := if i =? 0 then 0 else u8 (i mod 8) in
      match block q !! Z.to_nat box with
      | None => None
      | Some b =>
          if Z.land b (flag boxOffset) =? 0
          then Some q
          else Some (set_block q (v (pMem q + i * sizeofT) (block q)))
      end
  end.

(** [ForAll<IgnoreInactive>(f)] for a writing visitor. *)
Definition ForAll_write (sizeofT Size : Z) (IgnoreInactive : bool)
    (v : Z -> list Z -> list Z) (p : Pool) : option Pool :=
  if IgnoreInactive
  then foldl (ForAllActive_write_step sizeofT Size v) (Some p)
         (seqZ 0 (capacity p))
  else Some (foldl (fun q i => set_block q (v (pMem q + i * sizeofT) (block q)))
               p (seqZ 0 (capacity p))).

(** The visitor that replaces the [sizeof(Type)] bytes [x] of the element
    it is given by the first [sizeof(Type)] bytes of [g x], as
    [pParticle->Update(dt)] does in the test program. *)
Definition rewrite_element (sizeofT : Z) (g : list Z -> list Z) (a : Z)
    (blk : list Z) : list Z :=
  list_inserts (Z.to_nat a)
    (take (Z.to_nat sizeofT)
       (g (take (Z.to_nat sizeofT) (drop (Z.to_nat a) blk))))
    blk.

(** The state of a writing [ForAll] loop over [p] before slot [n]: the
    bookkeeping and the bitmap of [q] are those of [p], the elements from
    [n] on are untouched, and every element below [n] that counts as
    [live] has been rewritten by [g]. *)
Definition rewritten_below (sizeofT : Z) (g : list Z -> list Z) (p : Pool)
    (live : Z -> bool) (n : Z) (q : Pool) : Prop :=
  pMem q = pMem p /\ capacity q = capacity p /\ size q = size p /\
  poolItemSize q = poolItemSize p /\
  length (block q) = length (block p) /\
  (forall x, (x < Z.to_nat (pMem p))%nat -> block q !! x = block p !! x) /\
  (forall k, n <= k -> object_at sizeofT q k = object_at sizeofT p k) /\
  (forall k, 0 <= k < n ->
     object_at sizeofT q k =
     if live k then g (object_at sizeofT p k) else object_at sizeofT p k).

(** * Properties *)

(** ** Machine integers and flags *)

Lemma u64_small z : 0 <= z < 2 ^ 64 -> u64 z = z.
Proof. intros H. unfold u64. apply Z.mod_small. exact H. Qed.

Lemma u8_small z : 0 <= z < 2 ^ 8 -> u8 z = z.
Proof. intros H. unfold u8. apply Z.mod_small. exact H. Qed.

Lemma u8_mod8 z : u8 (z mod 8) = z mod 8.
Proof.
  apply u8_small. pose proof (Z.mod_pos_bound z 8 ltac:(lia)). lia.
Qed.

Lemma flag_pow2 j : 0 <= j < 8 -> flag j = 2 ^ j.
Proof.
  intros H. unfold flag. rewrite Z.shiftl_1_l. apply u8_small.
  split; [apply Z.pow_nonneg; lia|].
  apply Z.pow_lt_mono_r; lia.
Qed.

Lemma testbit_flag j k : 0 <= j < 8 -> Z.testbit (flag j) k = (j =? k).
Proof.
  intros H. rewrite flag_pow2 by exact H.
  rewrite Z.pow2_bits_eqb by lia. reflexivity.
Qed.

Lemma testbit_u8 z k : 0 <= k < 8 -> Z.testbit (u8 z) k = Z.testbit z k.
Proof. intros H. unfold u8. apply Z.mod_pow2_bits_low. lia. Qed.

Lemma land_flag_eqb b j :
  0 <= j < 8 -> (Z.land b (flag j) =? 0) = negb (Z.testbit b j).
Proof.
  intros H. rewrite flag_pow2 by exact H.
  destruct (Z.testbit b j) eqn:E; simpl.
  - apply Z.eqb_neq. intros H0.
    assert (Z.testbit (Z.land b (2 ^ j)) j = true) as Hb.
    { rewrite Z.land_spec, E, Z.pow2_bits_true by lia. reflexivity. }
    rewrite H0, Z.bits_0 in Hb. discriminate.
  - apply Z.eqb_eq. apply Z.bits_inj'. intros n Hn.
    rewrite Z.land_spec, Z.bits_0, Z.pow2_bits_eqb by lia.
    destruct (Z.eqb_spec j n) as [->|]; [rewrite E|]; auto using andb_false_r.
Qed.

Lemma land_lnot_flag_eqb b j :
  0 <= j < 8 -> (Z.land (Z.lnot b) (flag j) =? 0) = Z.testbit b j.
Proof.
  intros H. rewrite land_flag_eqb by exact H.
  rewrite Z.lnot_spec by lia. apply negb_involutive.
Qed.

Lemma testbit_set b j k :
  0 <= j < 8 -> 0 <= k < 8 ->
  Z.testbit (u8 (Z.lor b (flag j))) k = Z.testbit b k || (j =? k).
Proof.
  intros Hj Hk. rewrite testbit_u8, Z.lor_spec, testbit_flag by lia.
  reflexivity.
Qed.

Lemma testbit_flip b j k :
  0 <= j < 8 -> 0 <= k < 8 ->
  Z.testbit (u8 (Z.lxor b (flag j))) k = xorb (Z.testbit b k) (j =? k).
Proof.
  intros Hj Hk. rewrite testbit_u8, Z.lxor_spec, testbit_flag by lia.
  reflexivity.
Qed.

(** ** Counting set bits *)

Lemma count_upto_bounds f n : 0 <= count_upto f n <= Z.of_nat n.
Proof. induction n as [|n IH]; simpl; [lia|]. destruct (f _); lia. Qed.

Lemma count_upto_ext f g n :
  (forall i, 0 <= i < Z.of_nat n -> f i = g i) ->
  count_upto f n = count_upto g n.
Proof.
  induction n as [|n IH]; intros H; simpl; [reflexivity|].
  rewrite IH by (intros; apply H; lia).
  rewrite (H (Z.of_nat n)) by lia. reflexivity.
Qed.

Lemma count_upto_set f g n k :
  0 <= k < Z.of_nat n -> f k = false -> g k = true ->
  (forall i, 0 <= i < Z.of_nat n -> i <> k -> g i = f i) ->
  count_upto g n = count_upto f n + 1.
Proof.
  induction n as [|n IH]; intros Hk Hf Hg H; [simpl in Hk; lia|].
  cbn [count_upto].
  destruct (Z.eq_dec k (Z.of_nat n)) as [->|Hne].
  - rewrite Hf, Hg.
    rewrite (count_upto_ext g f n) by (intros; apply H; lia). lia.
  - rewrite IH; [|lia|assumption|assumption|intros; apply H; lia].
    rewrite (H (Z.of_nat n)) by lia. lia.
Qed.

Lemma count_upto_full f n :
  count_upto f n = Z.of_nat n ->
  forall i, 0 <= i < Z.of_nat n -> f i = true.
Proof.
  induction n as [|n IH]; intros H i Hi; [simpl in Hi; lia|].
  cbn [count_upto] in H. pose proof (count_upto_bounds f n) as Hb.
  destruct (f (Z.of_nat n)) eqn:E; [|lia].
  destruct (Z.eq_dec i (Z.of_nat n)) as [->|Hne]; [exact E|].
  apply IH; lia.
Qed.

Lemma count_upto_all f n :
  (forall i, 0 <= i < Z.of_nat n -> f i = true) ->
  count_upto f n = Z.of_nat n.
Proof.
  induction n as [|n IH]; intros H; [reflexivity|].
  cbn [count_upto]. rewrite IH by (intros; apply H; lia).
  rewrite H by lia. lia.
Qed.

Lemma count_upto_none f n :
  (forall i, 0 <= i < Z.of_nat n -> f i = false) ->
  count_upto f n = 0.
Proof.
  induction n as [|n IH]; intros H; [reflexivity|].
  cbn [count_upto]. rewrite IH by (intros; apply H; lia).
  rewrite H by lia. lia.
Qed.

Lemma count_upto_app f n m :
  count_upto f (n + m) =
  count_upto f n + count_upto (fun i => f (Z.of_nat n + i)) m.
Proof.
  induction m as [|m IH]; simpl.
  - rewrite Nat.add_0_r. lia.
  - rewrite Nat.add_succ_r. cbn [count_upto]. rewrite IH.
    rewrite Nat2Z.inj_add. lia.
Qed.

Lemma bit_index_div i j : 0 <= j < 8 -> (i * 8 + j) / 8 = i.
Proof. intros H. Z.div_mod_to_equations. lia. Qed.

Lemma bit_index_mod i j : 0 <= j < 8 -> (i * 8 + j) mod 8 = j.
Proof. intros H. Z.div_mod_to_equations. lia. Qed.

Lemma wf_lut_lookup p k :
  pool_wf p -> 0 <= k < capacity p ->
  exists b, block p !! Z.to_nat (k / 8) = Some b.
Proof.
  intros [Hc H8 _ Hi Hb] Hk.
  apply lookup_lt_is_Some_2.
  assert (k / 8 < capacity p / 8) by (Z.div_mod_to_equations; lia).
  assert (0 <= k / 8) by (Z.div_mod_to_equations; lia).
  assert (0 <= poolItemSize p * capacity p) by (apply Z.mul_nonneg_nonneg; lia).
  lia.
Qed.

Lemma Pool_new_wf elementSize poolCapacity :
  0 <= elementSize -> 0 <= poolCapacity < 2 ^ 64 -> poolCapacity mod 8 = 0 ->
  poolCapacity / 8 + elementSize * poolCapacity < 2 ^ 64 ->
  pool_wf (Pool_new elementSize poolCapacity).
Proof.
  intros He Hc H8 Hfit.
  assert (0 <= elementSize * poolCapacity) by (apply Z.mul_nonneg_nonneg; lia).
  assert (0 <= poolCapacity / 8) by (Z.div_mod_to_equations; lia).
  assert (poolCapacity / 8 <= poolCapacity) by (Z.div_mod_to_equations; lia).
  split; simpl; try lia.
  unfold Alloc. rewrite length_replicate.
  rewrite (u64_small (elementSize * poolCapacity)) by lia.
  rewrite u64_small by lia. lia.
Qed.

Lemma Pool_new_bit elementSize poolCapacity k :
  slot_bit (Pool_new elementSize poolCapacity) k = false.
Proof.
  unfold slot_bit, Pool_new, Alloc; simpl.
  destruct (replicate _ 0 !! _) as [b|] eqn:E; [|reflexivity].
  apply lookup_replicate in E as [-> _]. apply Z.bits_0.
Qed.

Lemma Pool_new_size_inv elementSize poolCapacity :
  size_inv (Pool_new elementSize poolCapacity).
Proof.
  unfold size_inv, popcount. rewrite count_upto_none; [reflexivity|].
  intros. apply Pool_new_bit.
Qed.

(** ** The bitmap scan of [Get] *)

Lemma Get_bit_Some b fuel : forall j k,
  0 <= j -> j + Z.of_nat fuel <= 8 -> Get_bit b j fuel = Some k ->
  j <= k < j + Z.of_nat fuel /\ Z.testbit b k = false /\
  forall k', j <= k' < k -> Z.testbit b k' = true.
Proof.
  induction fuel as [|fuel IH]; intros j k Hj Hf H; [discriminate|].
  cbn [Get_bit] in H. rewrite land_lnot_flag_eqb in H by lia.
  destruct (Z.testbit b j) eqn:E.
  - apply IH in H as (H1 & H2 & H3); [|lia|lia].
    repeat split; [lia|lia|exact H2|].
    intros k' Hk'. destruct (Z.eq_dec k' j) as [->|]; [exact E|].
    apply H3. lia.
  - inversion H; subst k. repeat split; [lia|lia|exact E|]. intros; lia.
Qed.

Lemma Get_bit_None b fuel : forall j,
  0 <= j -> j + Z.of_nat fuel <= 8 -> Get_bit b j fuel = None ->
  forall k', j <= k' < j + Z.of_nat fuel -> Z.testbit b k' = true.
Proof.
  induction fuel as [|fuel IH]; intros j Hj Hf H k' Hk'; [lia|].
  cbn [Get_bit] in H. rewrite land_lnot_flag_eqb in H by lia.
  destruct (Z.testbit b j) eqn:E; [|discriminate].
  destruct (Z.eq_dec k' j) as [->|]; [exact E|].
  apply (IH (j + 1)); [lia|lia|exact H|lia].
Qed.

Lemma Get_scan_Some lut : forall i0 i j,
  Get_scan lut i0 = Some (i, j) ->
  exists b,
    i0 <= i /\ lut !! Z.to_nat (i - i0) = Some b /\ 0 <= j < 8 /\
    Z.testbit b j = false /\
    (forall j', 0 <= j' < j -> Z.testbit b j' = true) /\
    (forall i' b', i0 <= i' < i -> lut !! Z.to_nat (i' - i0) = Some b' ->
       forall j', 0 <= j' < 8 -> Z.testbit b' j' = true).
Proof.
  induction lut as [|b lut IH]; intros i0 i j H; [discriminate|].
  cbn [Get_scan] in H. destruct (Get_bit b 0 8) as [j0|] eqn:E.
  - inversion H; subst i0 j0. clear H.
    apply Get_bit_Some in E as (H1 & H2 & H3); [|lia|simpl; lia].
    exists b. rewrite Z.sub_diag. simpl in H1.
    repeat split; try lia; try assumption.
  - apply IH in H as (b0 & H1 & H2 & H3 & H4 & H5 & H6).
    exists b0. repeat split; try lia; try assumption.
    + replace (Z.to_nat (i - i0)) with (S (Z.to_nat (i - (i0 + 1)))) by lia.
      exact H2.
    + intros i' b' Hi' Hl j' Hj'.
      destruct (Z.eq_dec i' i0) as [->|Hne].
      * rewrite Z.sub_diag in Hl. simpl in Hl. inversion Hl; subst b'.
        apply (Get_bit_None b 8 0); simpl; try lia. exact E.
      * apply (H6 i' b'); [lia| |exact Hj'].
        replace (Z.to_nat (i' - i0)) with (S (Z.to_nat (i' - (i0 + 1))))
          in Hl by lia.
        exact Hl.
Qed.

Lemma Get_scan_None lut : forall i0,
  Get_scan lut i0 = None ->
  forall n b, lut !! n = Some b ->
  forall j, 0 <= j < 8 -> Z.testbit b j = true.
Proof.
  induction lut as [|b lut IH]; intros i0 H n b' Hl j Hj; [discriminate|].
  cbn [Get_scan] in H. destruct (Get_bit b 0 8) eqn:E; [discriminate|].
  destruct n as [|n]; simpl in Hl.
  - inversion Hl; subst b'. apply (Get_bit_None b 8 0); simpl; try lia.
    exact E.
  - eapply IH; eauto.
Qed.

Lemma Get_scan_slot p i j :
  pool_wf p ->
  Get_scan (take (Z.to_nat (capacity p / 8)) (block p)) 0 = Some (i, j) ->
  0 <= i < capacity p / 8 /\ 0 <= j < 8 /\
  0 <= i * 8 + j < capacity p /\
  slot_bit p (i * 8 + j) = false /\
  forall k, 0 <= k < i * 8 + j -> slot_bit p k = true.
Proof.
  intros Hwf H. pose proof Hwf as [Hc H8 _ Hi Hb].
  apply Get_scan_Some in H as (b & H1 & H2 & H3 & H4 & H5 & H6).
  rewrite Z.sub_0_r in H2.
  assert (Z.to_nat i < Z.to_nat (capacity p / 8))%nat as Hlt.
  { apply lookup_lt_Some in H2. rewrite length_take in H2. lia. }
  rewrite lookup_take_lt in H2 by exact Hlt.
  assert (0 <= i < capacity p / 8) as Hi' by lia.
  repeat split; try lia.
  - Z.div_mod_to_equations. lia.
  - unfold slot_bit. rewrite bit_index_div, bit_index_mod by lia.
    rewrite H2. exact H4.
  - intros k Hk. unfold slot_bit.
    assert (0 <= k / 8 <= i) as Hk8 by (Z.div_mod_to_equations; lia).
    pose proof (Z.mod_pos_bound k 8 ltac:(lia)) as Hm.
    destruct (Z.eq_dec (k / 8) i) as [E|Hne].
    + rewrite E, H2. apply H5. Z.div_mod_to_equations. lia.
    + destruct (wf_lut_lookup p k Hwf) as [b' Hb']; [Z.div_mod_to_equations; lia|].
      rewrite Hb'. apply (H6 (k / 8) b'); [lia| |lia].
      rewrite Z.sub_0_r. rewrite lookup_take_lt by lia. exact Hb'.
Qed.

Lemma Get_scan_slot_None p :
  pool_wf p ->
  Get_scan (take (Z.to_nat (capacity p / 8)) (block p)) 0 = None ->
  forall k, 0 <= k < capacity p -> slot_bit p k = true.
Proof.
  intros Hwf H k Hk.
  destruct (wf_lut_lookup p k Hwf Hk) as [b Hb].
  unfold slot_bit. rewrite Hb.
  apply (Get_scan_None _ _ H (Z.to_nat (k / 8)) b).
  - rewrite lookup_take_lt; [exact Hb|].
    pose proof (wf_mult8 p Hwf). Z.div_mod_to_equations. lia.
  - apply Z.mod_pos_bound. lia.
Qed.

(** ** Effect of the bitmap updates on single bits *)

Lemma slot_index_eq i j k :
  0 <= j < 8 -> k / 8 = i -> (k =? i * 8 + j) = (j =? k mod 8).
Proof.
  intros Hj Hk.
  destruct (Z.eqb_spec j (k mod 8)) as [E|E]; [apply Z.eqb_eq|apply Z.eqb_neq];
    Z.div_mod_to_equations; lia.
Qed.

Lemma slot_bit_claim p i j k :
  0 <= i -> 0 <= j < 8 -> 0 <= k ->
  (Z.to_nat i < length (block p))%nat ->
  slot_bit (claim p i j) k = slot_bit p k || (k =? i * 8 + j).
Proof.
  intros Hi Hj Hk Hlen. unfold slot_bit, claim; simpl.
  pose proof (Z.mod_pos_bound k 8 ltac:(lia)) as Hm.
  assert (0 <= k / 8) as Hd by (Z.div_mod_to_equations; lia).
  destruct (Z.eq_dec (k / 8) i) as [E|E].
  - rewrite E, list_lookup_alter_eq.
    destruct (lookup_lt_is_Some_2 _ _ Hlen) as [b Hb]. rewrite Hb. simpl.
    rewrite testbit_set by lia. rewrite (slot_index_eq i j k) by lia.
    reflexivity.
  - rewrite list_lookup_alter_ne by lia.
    replace (k =? i * 8 + j) with false; [rewrite orb_false_r; reflexivity|].
    symmetry. apply Z.eqb_neq. intros ->. rewrite bit_index_div in E; lia.
Qed.

Lemma slot_bit_release p i j k :
  0 <= i -> 0 <= j < 8 -> 0 <= k ->
  (Z.to_nat i < length (block p))%nat ->
  slot_bit (release p i j) k = xorb (slot_bit p k) (k =? i * 8 + j).
Proof.
  intros Hi Hj Hk Hlen. unfold slot_bit, release; simpl.
  pose proof (Z.mod_pos_bound k 8 ltac:(lia)) as Hm.
  assert (0 <= k / 8) as Hd by (Z.div_mod_to_equations; lia).
  destruct (Z.eq_dec (k / 8) i) as [E|E].
  - rewrite E, list_lookup_alter_eq.
    destruct (lookup_lt_is_Some_2 _ _ Hlen) as [b Hb]. rewrite Hb. simpl.
    rewrite testbit_flip by lia. rewrite (slot_index_eq i j k) by lia.
    reflexivity.
  - rewrite list_lookup_alter_ne by lia.
    replace (k =? i * 8 + j) with false; [rewrite xorb_false_r; reflexivity|].
    symmetry. apply Z.eqb_neq. intros ->. rewrite bit_index_div in E; lia.
Qed.

Lemma slot_bit_construct sizeofT Type_init p idx k :
  0 <= idx * sizeofT -> 0 <= k < 8 * pMem p ->
  slot_bit (construct sizeofT Type_init p idx) k = slot_bit p k.
Proof.
  intros Hidx Hk. unfold slot_bit, construct; simpl.
  rewrite list_lookup_inserts_lt; [reflexivity|].
  Z.div_mod_to_equations. lia.
Qed.

(** ** Reading bytes back *)

Lemma bytes_at_ext p q a n :
  (forall x, (x < Z.to_nat n)%nat ->
     block p !! (Z.to_nat a + x)%nat = block q !! (Z.to_nat a + x)%nat) ->
  bytes_at p a n = bytes_at q a n.
Proof.
  intros H. unfold bytes_at. apply list_eq. intros x.
  destruct (Nat.lt_ge_cases x (Z.to_nat n)) as [Hlt|Hge].
  - rewrite !lookup_take_lt, !lookup_drop by exact Hlt. apply H. exact Hlt.
  - rewrite !lookup_take_ge by exact Hge. reflexivity.
Qed.

Lemma bytes_at_inserts (l : list Z) (a : nat) (bs : list Z) :
  (a + length bs <= length l)%nat ->
  take (length bs) (drop a (list_inserts a bs l)) = bs.
Proof.
  intros H. apply list_eq. intros x.
  destruct (Nat.lt_ge_cases x (length bs)) as [Hlt|Hge].
  - rewrite lookup_take_lt, lookup_drop by exact Hlt.
    rewrite list_lookup_inserts by lia. f_equal. lia.
  - rewrite lookup_take_ge by exact Hge. symmetry.
    apply lookup_ge_None. exact Hge.
Qed.

(** ** Claiming a slot *)

Lemma claimed_wf q q' k : pool_wf q -> claimed q q' k -> pool_wf q'.
Proof.
  intros [Hc H8 Hm Hi Hb] (_ & _ & _ & _ & _ & _ & Ec & Em & Ei & El).
  split; rewrite ?Ec, ?Em, ?Ei, ?El; assumption.
Qed.

Lemma claimed_popcount q q' k :
  pool_wf q -> claimed q q' k -> popcount q' = popcount q + 1.
Proof.
  intros Hwf (Hk & Hf & _ & Ht & Ho & _ & Ec & _).
  unfold popcount. rewrite Ec.
  pose proof (wf_capacity q Hwf).
  apply (count_upto_set (slot_bit q) (slot_bit q') _ k); try assumption.
  - lia.
  - intros i Hi Hne. apply Ho; lia.
Qed.

Lemma claimed_size_inv q q' k :
  pool_wf q -> size_inv q -> claimed q q' k -> size_inv q'.
Proof.
  intros Hwf Hinv Hcl. pose proof (claimed_popcount q q' k Hwf Hcl) as Hp.
  destruct Hcl as (Hk & Hf & _ & _ & _ & Es & _).
  unfold size_inv in *. rewrite Es, Hp, Hinv.
  apply u64_small.
  pose proof (count_upto_bounds (slot_bit q) (Z.to_nat (capacity q))) as Hb.
  pose proof (wf_capacity q Hwf). unfold popcount in *.
  assert (count_upto (slot_bit q) (Z.to_nat (capacity q)) <> capacity q).
  { intros E. rewrite (count_upto_full (slot_bit q) (Z.to_nat (capacity q))) in Hf;
      [discriminate|lia|lia]. }
  lia.
Qed.

Section GetProperties.

Variable sizeofT : Z.
Variable Type_init : list Z.
Variable Reallocates : bool.
Variable self : ptr.
Hypothesis sizeofT_nonneg : 0 <= sizeofT.

Lemma scan_claimed q i j :
  pool_wf q ->
  Get_scan (take (Z.to_nat (capacity q / 8)) (block q)) 0 = Some (i, j) ->
  u64 (i * 8 + j) = i * 8 + j /\
  claimed q (construct sizeofT Type_init (claim q i j) (i * 8 + j))
    (i * 8 + j).
Proof.
  intros Hwf H. pose proof Hwf as [Hc H8 Hm Hi Hb].
  apply Get_scan_slot in H as (H1 & H2 & H3 & H4 & H5); [|exact Hwf].
  assert (0 <= poolItemSize q * capacity q)
    by (apply Z.mul_nonneg_nonneg; lia).
  assert (Z.to_nat i < length (block q))%nat as Hlen by lia.
  assert (0 <= (i * 8 + j) * sizeofT) by (apply Z.mul_nonneg_nonneg; lia).
  assert (8 * (capacity q / 8) = capacity q)
    by (Z.div_mod_to_equations; lia).
  split; [apply u64_small; lia|].
  unfold claimed. repeat split; try lia; try assumption.
  - rewrite slot_bit_construct; [|assumption|simpl; lia].
    rewrite slot_bit_claim by lia. rewrite Z.eqb_refl. apply orb_true_r.
  - intros k' Hk' Hne.
    rewrite slot_bit_construct; [|assumption|simpl; lia].
    rewrite slot_bit_claim by lia.
    replace (k' =? i * 8 + j) with false; [apply orb_false_r|].
    symmetry. apply Z.eqb_neq. exact Hne.
  - simpl. rewrite length_inserts, length_alter. reflexivity.
Qed.

(** The element constructed by [Get] occupies the claimed slot. *)
Lemma construct_object q i j k :
  pool_wf q -> sizeofT <= poolItemSize q ->
  Z.of_nat (length Type_init) = sizeofT ->
  0 <= k < capacity q ->
  object_at sizeofT (construct sizeofT Type_init (claim q i j) k) k
  = Type_init.
Proof.
  intros [Hc H8 Hm Hi Hb] Hs Hl Hk.
  unfold object_at, bytes_at, Internal, construct, claim; simpl.
  replace (Z.to_nat sizeofT) with (length Type_init) by lia.
  apply bytes_at_inserts. rewrite length_alter.
  assert (0 <= k * sizeofT) by (apply Z.mul_nonneg_nonneg; lia).
  assert ((k + 1) * sizeofT <= capacity q * poolItemSize q)
    by (apply Z.mul_le_mono_nonneg; lia).
  assert (0 <= capacity q / 8) by (Z.div_mod_to_equations; lia).
  lia.
Qed.

(** Constructing at slot [k] leaves every other object as it was. *)
Lemma construct_other_object q i j k k' :
  pool_wf q -> Z.of_nat (length Type_init) = sizeofT ->
  0 <= i < capacity q / 8 -> 0 <= k -> 0 <= k' -> k' <> k ->
  object_at sizeofT (construct sizeofT Type_init (claim q i j) k) k'
  = object_at sizeofT q k'.
Proof.
  intros [Hc H8 Hm Hi Hb] Hl Hi' Hk Hk' Hne.
  unfold object_at, Internal. cbn [construct claim pMem].
  apply bytes_at_ext. intros x Hx. cbn [block construct claim pMem].
  assert (0 <= k * sizeofT) by (apply Z.mul_nonneg_nonneg; lia).
  assert (0 <= k' * sizeofT) by (apply Z.mul_nonneg_nonneg; lia).
  destruct (Z.lt_ge_cases k' k) as [Hlt|Hge].
  - assert ((k' + 1) * sizeofT <= k * sizeofT)
      by (apply Z.mul_le_mono_nonneg_r; lia).
    rewrite list_lookup_inserts_lt by lia.
    apply list_lookup_alter_ne. lia.
  - assert ((k + 1) * sizeofT <= k' * sizeofT)
      by (apply Z.mul_le_mono_nonneg_r; lia).
    rewrite list_lookup_inserts_ge by lia.
    apply list_lookup_alter_ne. lia.
Qed.

End GetProperties.

(** ** Growth *)

Lemma realloc_layout (lut objs : list Z) (a b : nat) :
  length lut = a -> length objs = b ->
  list_inserts (a + a) objs
    (list_inserts 0 lut (replicate (a + a + (b + b)) 0))
  = lut ++ replicate a 0 ++ objs ++ replicate b 0.
Proof.
  intros Ha Hb.
  rewrite <- (Nat.add_assoc a a (b + b)), (replicate_add a).
  rewrite list_inserts_0_r by (rewrite length_replicate; exact Ha).
  rewrite (replicate_add a), (replicate_add b), (app_assoc lut).
  replace (a + a)%nat with (length (lut ++ replicate a 0%Z) + 0)%nat
    by (rewrite length_app, length_replicate; lia).
  rewrite list_inserts_app_r.
  rewrite list_inserts_0_r by (rewrite length_replicate; exact Hb).
  rewrite <- app_assoc. reflexivity.
Qed.

Section Growth.

Variable p : Pool.
Hypothesis Hwf : pool_wf p.
Hypothesis Hfits : growth_fits p.

Let a : nat := Z.to_nat (capacity p / 8).
Let b : nat := Z.to_nat (poolItemSize p * capacity p).

Lemma growth_arith :
  0 <= capacity p / 8 /\ 0 <= poolItemSize p * capacity p /\
  capacity p * 2 / 8 = capacity p / 8 + capacity p / 8 /\
  8 * (capacity p / 8) = capacity p /\
  poolItemSize p * (capacity p * 2) =
    poolItemSize p * capacity p + poolItemSize p * capacity p /\
  length (block p) = (a + b)%nat.
Proof.
  destruct Hwf as [Hc H8 Hm Hi Hb].
  assert (0 <= poolItemSize p * capacity p)
    by (apply Z.mul_nonneg_nonneg; lia).
  repeat split; try lia; try (Z.div_mod_to_equations; lia).
Qed.

Lemma Reallocate_capacity : capacity (Reallocate p) = capacity p * 2.
Proof.
  destruct Hfits as [H1 _]. pose proof (wf_capacity p Hwf).
  simpl. apply u64_small. lia.
Qed.

Lemma Reallocate_pMem :
  pMem (Reallocate p) = capacity p / 8 + capacity p / 8.
Proof.
  destruct Hfits as [H1 _]. pose proof (wf_capacity p Hwf).
  destruct growth_arith as (_ & _ & E & _).
  simpl. rewrite u64_small by lia. exact E.
Qed.

(** The new block: the old bitmap, as many zero bytes again, the old
    object region, and as many zero bytes again. *)
Lemma Reallocate_block :
  block (Reallocate p) =
  take a (block p) ++ replicate a 0 ++ drop a (block p) ++ replicate b 0.
Proof.
  destruct Hfits as [H1 H2]. pose proof Hwf as [Hc H8 Hm Hi Hb].
  destruct growth_arith as (G1 & G2 & G3 & G4 & G5 & G6).
  unfold Reallocate, memcpy, Alloc. cbn [block].
  rewrite (u64_small (capacity p * 2)) by lia.
  rewrite (u64_small (poolItemSize p * (capacity p * 2))) by lia.
  rewrite (u64_small (capacity p * 2 / 8 + _)) by lia.
  rewrite (u64_small (poolItemSize p * capacity p)) by lia.
  rewrite Hm. change (Z.to_nat 0) with 0%nat. rewrite drop_0.
  fold a b.
  replace (Z.to_nat (capacity p * 2 / 8 + poolItemSize p * (capacity p * 2)))
    with (a + a + (b + b))%nat by (subst a b; lia).
  replace (Z.to_nat (capacity p * 2 / 8)) with (a + a)%nat
    by (subst a b; lia).
  replace (take b (drop a (block p))) with (drop a (block p))
    by (symmetry; apply take_ge; rewrite length_drop; lia).
  apply realloc_layout.
  - apply length_take_le. lia.
  - rewrite length_drop. lia.
Qed.

Lemma Reallocate_wf : pool_wf (Reallocate p).
Proof.
  destruct Hfits as [H1 H2]. pose proof Hwf as [Hc H8 Hm Hi Hb].
  destruct growth_arith as (G1 & G2 & G3 & G4 & G5 & G6).
  split.
  - rewrite Reallocate_capacity. lia.
  - rewrite Reallocate_capacity. Z.div_mod_to_equations. lia.
  - rewrite Reallocate_pMem, Reallocate_capacity. lia.
  - exact Hi.
  - rewrite Reallocate_block, Reallocate_capacity.
    change (poolItemSize (Reallocate p)) with (poolItemSize p).
    rewrite !length_app, !length_replicate, length_take_le, length_drop by lia.
    subst a b. lia.
Qed.

(** Old bitmap bytes are copied, the added bitmap bytes are zero. *)
Lemma Reallocate_lut_old n :
  (n < a)%nat -> block (Reallocate p) !! n = block p !! n.
Proof.
  intros Hn. destruct growth_arith as (_ & _ & _ & _ & _ & G6).
  rewrite Reallocate_block.
  rewrite lookup_app_l by (rewrite length_take_le; lia).
  apply lookup_take_lt. exact Hn.
Qed.

Lemma Reallocate_lut_new n :
  (a <= n < a + a)%nat -> block (Reallocate p) !! n = Some 0.
Proof.
  intros Hn. destruct growth_arith as (_ & _ & _ & _ & _ & G6).
  rewrite Reallocate_block.
  rewrite lookup_app_r by (rewrite length_take_le; lia).
  rewrite length_take_le by lia.
  rewrite lookup_app_l by (rewrite length_replicate; lia).
  apply lookup_replicate. split; [reflexivity|lia].
Qed.

(** Old object-region bytes are copied to the same offset from the new
    base of the object region. *)
Lemma Reallocate_obj n :
  (n < b)%nat ->
  block (Reallocate p) !! (Z.to_nat (pMem (Reallocate p)) + n)%nat =
  block p !! (Z.to_nat (pMem p) + n)%nat.
Proof.
  intros Hn. destruct growth_arith as (G1 & _ & _ & _ & _ & G6).
  rewrite Reallocate_pMem, (wf_pMem p Hwf).
  replace (Z.to_nat (capacity p / 8 + capacity p / 8)) with (a + a)%nat
    by (subst a; lia).
  fold a. rewrite Reallocate_block.
  rewrite lookup_app_r by (rewrite length_take_le; lia).
  rewrite length_take_le by lia.
  rewrite lookup_app_r by (rewrite length_replicate; lia).
  rewrite length_replicate.
  rewrite lookup_app_l by (rewrite length_drop; lia).
  rewrite lookup_drop. f_equal. lia.
Qed.

Lemma Reallocate_bit_old k :
  0 <= k < capacity p -> slot_bit (Reallocate p) k = slot_bit p k.
Proof.
  intros Hk. unfold slot_bit. rewrite Reallocate_lut_old; [reflexivity|].
  pose proof (wf_mult8 p Hwf). subst a. Z.div_mod_to_equations. lia.
Qed.

Lemma Reallocate_bit_new k :
  capacity p <= k < capacity p * 2 -> slot_bit (Reallocate p) k = false.
Proof.
  intros Hk. unfold slot_bit. rewrite Reallocate_lut_new; [apply Z.bits_0|].
  pose proof (wf_mult8 p Hwf). pose proof (wf_capacity p Hwf).
  subst a. Z.div_mod_to_equations. lia.
Qed.

Lemma Reallocate_object sizeofT k :
  0 <= k -> 0 <= sizeofT ->
  (k + 1) * sizeofT <= poolItemSize p * capacity p ->
  object_at sizeofT (Reallocate p) k = object_at sizeofT p k.
Proof.
  intros Hk Hs Hin. unfold object_at, Internal.
  assert (0 <= k * sizeofT) by (apply Z.mul_nonneg_nonneg; lia).
  destruct growth_arith as (G1 & G2 & _).
  assert (0 <= pMem (Reallocate p)) by (rewrite Reallocate_pMem; lia).
  assert (0 <= pMem p) by (rewrite (wf_pMem p Hwf); lia).
  unfold bytes_at. apply list_eq. intros x.
  destruct (Nat.lt_ge_cases x (Z.to_nat sizeofT)) as [Hlt|Hge].
  - rewrite !lookup_take_lt, !lookup_drop by exact Hlt.
    replace (Z.to_nat (pMem (Reallocate p) + k * sizeofT) + x)%nat
      with (Z.to_nat (pMem (Reallocate p)) + (Z.to_nat (k * sizeofT) + x))%nat
      by lia.
    replace (Z.to_nat (pMem p + k * sizeofT) + x)%nat
      with (Z.to_nat (pMem p) + (Z.to_nat (k * sizeofT) + x))%nat by lia.
    apply Reallocate_obj. subst b. lia.
  - rewrite !lookup_take_ge by exact Hge. reflexivity.
Qed.

Lemma Reallocate_popcount : popcount (Reallocate p) = popcount p.
Proof.
  unfold popcount. rewrite Reallocate_capacity.
  pose proof (wf_capacity p Hwf) as Hc.
  replace (Z.to_nat (capacity p * 2))
    with (Z.to_nat (capacity p) + Z.to_nat (capacity p))%nat by lia.
  rewrite count_upto_app.
  match goal with |- _ + ?c = _ => assert (c = 0) as -> end.
  { apply count_upto_none. intros i Hi. apply Reallocate_bit_new. lia. }
  rewrite Z.add_0_r. apply count_upto_ext.
  intros i Hi. apply Reallocate_bit_old. lia.
Qed.

Lemma Reallocate_size_inv : size_inv p -> size_inv (Reallocate p).
Proof.
  unfold size_inv. rewrite Reallocate_popcount. intros H. exact H.
Qed.

End Growth.

(** ** Freeing a slot *)

Lemma release_bit p k k' :
  pool_wf p -> 0 <= k < capacity p -> 0 <= k' ->
  slot_bit (release p (k / 8) (k mod 8)) k' =
  xorb (slot_bit p k') (k' =? k).
Proof.
  intros Hwf Hk Hk'.
  destruct (wf_lut_lookup p k Hwf Hk) as [b Hb].
  pose proof (Z.mod_pos_bound k 8 ltac:(lia)).
  assert (0 <= k / 8) by (Z.div_mod_to_equations; lia).
  rewrite slot_bit_release; try lia.
  - do 2 f_equal. Z.div_mod_to_equations. lia.
  - apply lookup_lt_Some in Hb. exact Hb.
Qed.

Lemma release_wf p i j : pool_wf p -> pool_wf (release p i j).
Proof.
  intros [Hc H8 Hm Hi Hb]. split; simpl; try assumption.
  rewrite length_alter. exact Hb.
Qed.

Lemma release_popcount p k :
  pool_wf p -> 0 <= k < capacity p -> slot_bit p k = true ->
  popcount (release p (k / 8) (k mod 8)) = popcount p - 1.
Proof.
  intros Hwf Hk Hset. unfold popcount. cbn [capacity release].
  pose proof (wf_capacity p Hwf).
  rewrite (count_upto_set (slot_bit (release p (k / 8) (k mod 8)))
             (slot_bit p) _ k); try lia; try assumption.
  - rewrite release_bit, Hset, Z.eqb_refl by (assumption || lia).
    reflexivity.
  - intros i Hi Hne. rewrite release_bit by (assumption || lia).
    replace (i =? k) with false by (symmetry; apply Z.eqb_neq; exact Hne).
    rewrite xorb_false_r. reflexivity.
Qed.

Lemma release_size_inv p k :
  pool_wf p -> size_inv p -> 0 <= k < capacity p -> slot_bit p k = true ->
  size_inv (release p (k / 8) (k mod 8)).
Proof.
  intros Hwf Hinv Hk Hset. unfold size_inv in *.
  rewrite release_popcount by assumption.
  cbn [size release]. rewrite Hinv.
  pose proof (release_popcount p k Hwf Hk Hset) as Hp.
  pose proof (count_upto_bounds (slot_bit (release p (k / 8) (k mod 8)))
                (Z.to_nat (capacity p))) as Hb1.
  pose proof (count_upto_bounds (slot_bit p) (Z.to_nat (capacity p))) as Hb2.
  pose proof (wf_capacity p Hwf).
  unfold popcount in *. cbn [capacity release] in *.
  apply u64_small. lia.
Qed.

Section PopProperties.

Variable sizeofT : Z.
Variable self : ptr.
Hypothesis sizeofT_pos : 0 < sizeofT.

Lemma Resolve_own p h :
  pContainer h = Some self ->
  Resolve sizeofT (own self p) h = Some (pMem p + offset h * sizeofT).
Proof.
  intros H. unfold Resolve, own. rewrite H.
  rewrite decide_True by reflexivity. reflexivity.
Qed.

(** A handle whose index is above the capacity is rejected, and nothing
    is changed. *)
Lemma Pop_above_capacity p h :
  pContainer h = Some self ->
  offset h < 0 \/ capacity p < offset h ->
  Pop sizeofT self p h = Throw (p, h) out_of_range.
Proof.
  intros Hc Hout. unfold Pop. rewrite Resolve_own by exact Hc.
  replace ((pMem p + offset h * sizeofT <? pMem p)
           || (pMem p + offset h * sizeofT >? pMem p + capacity p * sizeofT))
    with true; [reflexivity|].
  symmetry. apply orb_true_iff. destruct Hout as [Hneg|Hbig].
  - left. apply Z.ltb_lt. nia.
  - right. apply Z.gtb_lt. nia.
Qed.

(** A handle whose index is at most the capacity passes the bounds
    check. *)
Lemma Pop_check_passes p h :
  0 <= offset h <= capacity p ->
  (pMem p + offset h * sizeofT <? pMem p)
  || (pMem p + offset h * sizeofT >? pMem p + capacity p * sizeofT) = false.
Proof.
  intros Hr. apply orb_false_iff. split.
  - apply Z.ltb_ge. nia.
  - rewrite Z.gtb_ltb. apply Z.ltb_ge. nia.
Qed.

Lemma Pop_index p h :
  0 <= offset h < 2 ^ 64 ->
  u64 ((pMem p + offset h * sizeofT - pMem p) / sizeofT) = offset h.
Proof.
  intros Hr. replace (pMem p + offset h * sizeofT - pMem p)
    with (offset h * sizeofT) by lia.
  rewrite Z.div_mul by lia. apply u64_small. exact Hr.
Qed.

(** [Pop] on a handle of this pool with an index below the capacity. *)
Lemma Pop_in_range p h :
  pool_wf p -> pContainer h = Some self -> 0 <= offset h < capacity p ->
  Pop sizeofT self p h =
  if slot_bit p (offset h)
  then Return (release p (offset h / 8) (offset h mod 8), ZeroOut h) tt
  else Return (p, h) tt.
Proof.
  intros Hwf Hc Hr. pose proof (wf_capacity p Hwf) as Hcap.
  unfold Pop. rewrite Resolve_own by exact Hc.
  rewrite Pop_check_passes by lia. rewrite Pop_index by lia.
  pose proof (Z.mod_pos_bound (offset h) 8 ltac:(lia)) as Hm.
  assert (0 <= offset h / 8 < capacity p) as Hd
    by (Z.div_mod_to_equations; lia).
  assert ((if offset h =? 0 then 0 else (offset h / 8) mod capacity p)
          = offset h / 8) as ->.
  { destruct (Z.eqb_spec (offset h) 0) as [->|]; [reflexivity|].
    apply Z.mod_small. exact Hd. }
  assert ((if offset h =? 0 then 0 else u8 (offset h mod 8))
          = offset h mod 8) as ->.
  { destruct (Z.eqb_spec (offset h) 0) as [->|]; [reflexivity|].
    apply u8_mod8. }
  destruct (wf_lut_lookup p (offset h) Hwf Hr) as [b Hb].
  unfold slot_bit. rewrite Hb. rewrite land_flag_eqb by lia.
  destruct (Z.testbit b (offset h mod 8)); reflexivity.
Qed.

End PopProperties.

(** ** Allocation *)

Lemma popcount_bounds p : 0 <= popcount p <= Z.max 0 (capacity p).
Proof.
  unfold popcount.
  pose proof (count_upto_bounds (slot_bit p) (Z.to_nat (capacity p))). lia.
Qed.

Lemma popcount_lt p :
  pool_wf p ->
  (exists k, 0 <= k < capacity p /\ slot_bit p k = false) ->
  popcount p < capacity p.
Proof.
  intros Hwf (k & Hk & Hclear). pose proof (popcount_bounds p) as Hb.
  destruct (Z.eq_dec (popcount p) (capacity p)) as [E|]; [|lia].
  unfold popcount in E.
  rewrite (count_upto_full (slot_bit p) (Z.to_nat (capacity p))) in Hclear;
    [discriminate|lia|lia].
Qed.

Lemma popcount_full p :
  pool_wf p -> popcount p = capacity p ->
  forall k, 0 <= k < capacity p -> slot_bit p k = true.
Proof.
  intros Hwf E k Hk. pose proof (wf_capacity p Hwf).
  apply (count_upto_full (slot_bit p) (Z.to_nat (capacity p))); unfold popcount in E; lia.
Qed.

Section Allocation.

Variable sizeofT : Z.
Variable Type_init : list Z.
Variable self : ptr.
Hypothesis sizeofT_nonneg : 0 <= sizeofT.
Hypothesis Type_init_size : Z.of_nat (length Type_init) = sizeofT.

(** [Get] when the fullness test fails: scan, claim, construct. *)
Lemma Get_not_full Reallocates p :
  (u64 (size p + 1) >? capacity p) = false ->
  Get sizeofT Type_init Reallocates self p =
  match Get_scan (take (Z.to_nat (capacity p / 8)) (block p)) 0 with
  | Some (i, j) =>
      Return (construct sizeofT Type_init (claim p i j) (u64 (i * 8 + j)))
        (OffsetPtr_of self (u64 (i * 8 + j)))
  | None => Throw p bad_alloc
  end.
Proof. intros H. unfold Get. rewrite H. reflexivity. Qed.

(** [Get] when the fullness test succeeds and growth is enabled. *)
Lemma Get_grow p :
  (u64 (size p + 1) >? capacity p) = true ->
  Get sizeofT Type_init true self p =
  let q := Reallocate p in
  match Get_scan (take (Z.to_nat (capacity q / 8)) (block q)) 0 with
  | Some (i, j) =>
      Return (construct sizeofT Type_init (claim q i j) (u64 (i * 8 + j)))
        (OffsetPtr_of self (u64 (i * 8 + j)))
  | None => Throw q bad_alloc
  end.
Proof. intros H. unfold Get. rewrite H. reflexivity. Qed.

(** On a well-formed pool with a free slot the scan succeeds, and what it
    returns is the claimed state of the lowest free slot. *)
Lemma scan_finds q :
  pool_wf q ->
  (exists k, 0 <= k < capacity q /\ slot_bit q k = false) ->
  exists i j,
    Get_scan (take (Z.to_nat (capacity q / 8)) (block q)) 0 = Some (i, j) /\
    0 <= i < capacity q / 8 /\ 0 <= j < 8 /\
    u64 (i * 8 + j) = i * 8 + j /\
    claimed q (construct sizeofT Type_init (claim q i j) (i * 8 + j))
      (i * 8 + j).
Proof.
  intros Hwf (k & Hk & Hclear).
  destruct (Get_scan _ 0) as [[i j]|] eqn:E.
  - exists i, j. split; [reflexivity|].
    destruct (Get_scan_slot q i j Hwf E) as (H1 & H2 & _).
    destruct (scan_claimed sizeofT Type_init sizeofT_nonneg q i j Hwf E)
      as [H3 H4].
    auto.
  - rewrite (Get_scan_slot_None q Hwf E k Hk) in Hclear. discriminate.
Qed.

(** Every live object other than the claimed one keeps its bytes. *)
Lemma claim_keeps_objects q i j k :
  pool_wf q -> 0 <= i < capacity q / 8 -> 0 <= j < 8 ->
  0 <= k -> k <> i * 8 + j ->
  object_at sizeofT (construct sizeofT Type_init (claim q i j) (i * 8 + j)) k
  = object_at sizeofT q k.
Proof.
  intros Hwf Hi Hj Hk Hne.
  apply construct_other_object; try assumption; lia.
Qed.

End Allocation.

(** C5.  On a pool state with at least one clear bitmap bit, [Get] returns
    a handle bound to the pool and to the lowest-indexed free slot
    (first fit): every slot below it is occupied, exactly that slot's bit
    becomes set, no other bitmap bit changes, [size] grows by exactly one,
    the capacity is unchanged, and the slot holds a value-initialised
    element. *)
Theorem Get_first_fit sizeofT Type_init Reallocates self p :
  pool_wf p -> size_inv p ->
  0 <= sizeofT -> poolItemSize p = sizeofT ->
  Z.of_nat (length Type_init) = sizeofT ->
  (exists k, 0 <= k < capacity p /\ slot_bit p k = false) ->
  exists k p',
    Get sizeofT Type_init Reallocates self p
      = Return p' (OffsetPtr_of self k) /\
    0 <= k < capacity p /\
    slot_bit p k = false /\
    (forall k', 0 <= k' < k -> slot_bit p k' = true) /\
    slot_bit p' k = true /\
    (forall k', 0 <= k' < capacity p -> k' <> k ->
       slot_bit p' k' = slot_bit p k') /\
    size p' = size p + 1 /\
    capacity p' = capacity p /\
    object_at sizeofT p' k = Type_init.
Proof.
  intros Hwf Hinv Hs Hitem Hlen Hfree.
  pose proof (popcount_lt p Hwf Hfree) as Hlt.
  pose proof (popcount_bounds p) as Hb. pose proof (wf_capacity p Hwf) as Hc.
  unfold size_inv in Hinv.
  assert (u64 (size p + 1) = size p + 1) as Hu by (apply u64_small; lia).
  rewrite Get_not_full by (rewrite Hu, Z.gtb_ltb; apply Z.ltb_ge; lia).
  destruct (scan_finds sizeofT Type_init Hs p Hwf Hfree)
    as (i & j & E & Hi & Hj & Hidx & Hcl).
  rewrite E, Hidx.
  exists (i * 8 + j), (construct sizeofT Type_init (claim p i j) (i * 8 + j)).
  destruct Hcl as (H1 & H2 & H3 & H4 & H5 & H6 & H7 & _).
  repeat split; try assumption; try lia.
  apply construct_object; try assumption; lia.
Qed.

Lemma Get_first_fit_witness :
  exists k p',
    Get 1 [0] true 7 (Pool_new 1 8) = Return p' (OffsetPtr_of 7 k) /\
    0 <= k < 8 /\ size p' = 1 /\ object_at 1 p' k = [0].
Proof.
  destruct (Get_first_fit 1 [0] true 7 (Pool_new 1 8)) as (k & p' & H).
  - apply Pool_new_wf; [lia|lia|reflexivity|reflexivity].
  - apply Pool_new_size_inv.
  - lia.
  - reflexivity.
  - reflexivity.
  - exists 0. split; [simpl; lia|apply Pool_new_bit].
  - exists k, p'. destruct H as (H1 & H2 & _ & _ & _ & _ & H3 & _ & H4).
    repeat split; try assumption; simpl in *; lia.
Defined.

(** C7.  When [size == capacity] and growth is disabled ([Reallocates] is
    false), [Get] returns the unbound handle (no container, offset 0) and
    leaves the pool, hence its capacity, size and bitmap, unchanged. *)
Theorem Get_full_no_growth sizeofT Type_init self p :
  0 <= capacity p < 2 ^ 64 -> capacity p mod 8 = 0 ->
  size p = capacity p ->
  Get sizeofT Type_init false self p = Return p OffsetPtr_null /\
  pContainer OffsetPtr_null = None /\ offset OffsetPtr_null = 0.
Proof.
  intros Hc H8 Hfull. repeat split. unfold Get.
  assert (capacity p + 1 < 2 ^ 64) by (Z.div_mod_to_equations; lia).
  rewrite Hfull, u64_small by lia.
  replace (capacity p + 1 >? capacity p) with true; [reflexivity|].
  symmetry. apply Z.gtb_lt. lia.
Qed.

Lemma Get_full_no_growth_witness :
  Get 1 [0] false 7 (Gets 1 [0] false 7 8 (Pool_new 1 8))
  = Return (Gets 1 [0] false 7 8 (Pool_new 1 8)) OffsetPtr_null.
Proof.
  apply (Get_full_no_growth 1 [0] 7 (Gets 1 [0] false 7 8 (Pool_new 1 8))).
  - vm_compute. split; [discriminate|reflexivity].
  - vm_compute. reflexivity.
  - vm_compute. reflexivity.
Defined.

(** ** Growth keeps the data *)

Lemma read_handle_own sizeofT self p h :
  pContainer h = Some self ->
  read_handle sizeofT (own self p) h = Some (object_at sizeofT p (offset h)).
Proof.
  intros H. unfold read_handle. rewrite Resolve_own by exact H.
  rewrite H. unfold own. rewrite decide_True by reflexivity. reflexivity.
Qed.

Lemma Reallocate_lut_verbatim p :
  pool_wf p -> growth_fits p ->
  bytes_at (Reallocate p) 0 (capacity p / 8) = bytes_at p 0 (capacity p / 8).
Proof.
  intros Hwf Hfits. apply bytes_at_ext. intros x Hx.
  apply Reallocate_lut_old; assumption.
Qed.

Lemma Reallocate_region_verbatim p :
  pool_wf p -> growth_fits p ->
  bytes_at (Reallocate p) (Internal (Reallocate p))
    (poolItemSize p * capacity p)
  = bytes_at p (Internal p) (poolItemSize p * capacity p).
Proof.
  intros Hwf Hfits. unfold bytes_at, Internal. apply list_eq. intros x.
  destruct (Nat.lt_ge_cases x (Z.to_nat (poolItemSize p * capacity p)))
    as [Hlt|Hge].
  - rewrite !lookup_take_lt, !lookup_drop by exact Hlt.
    apply Reallocate_obj; assumption.
  - rewrite !lookup_take_ge by exact Hge. reflexivity.
Qed.

Lemma Reallocate_lut_zeroed p :
  pool_wf p -> growth_fits p ->
  bytes_at (Reallocate p) (capacity p / 8) (capacity p / 8)
  = replicate (Z.to_nat (capacity p / 8)) 0.
Proof.
  intros Hwf Hfits. unfold bytes_at. apply list_eq. intros x.
  destruct (Nat.lt_ge_cases x (Z.to_nat (capacity p / 8))) as [Hlt|Hge].
  - rewrite lookup_take_lt, lookup_drop by exact Hlt.
    rewrite Reallocate_lut_new by (assumption || lia).
    symmetry. apply lookup_replicate. split; [reflexivity|exact Hlt].
  - rewrite lookup_take_ge by exact Hge. symmetry.
    apply lookup_ge_None. rewrite length_replicate. exact Hge.
Qed.

(** [Get] on a full pool with growth enabled: the pool is doubled, the
    new element goes to the first added slot, and every slot that was
    there keeps its bit and its bytes. *)
Lemma Get_growth sizeofT Type_init self p :
  pool_wf p -> growth_fits p -> size_inv p ->
  0 <= sizeofT -> poolItemSize p = sizeofT ->
  Z.of_nat (length Type_init) = sizeofT ->
  0 < capacity p -> size p = capacity p ->
  exists p',
    Get sizeofT Type_init true self p
      = Return p' (OffsetPtr_of self (capacity p)) /\
    pool_wf p' /\ size_inv p' /\
    capacity p' = capacity p * 2 /\
    size p' = size p + 1 /\
    slot_bit p' (capacity p) = true /\
    (forall k, 0 <= k < capacity p ->
       slot_bit p' k = slot_bit p k /\
       object_at sizeofT p' k = object_at sizeofT p k).
Proof.
  intros Hwf Hfits Hinv Hs Hitem Hlen Hpos Hfull.
  pose proof (wf_capacity p Hwf) as Hc. pose proof (wf_mult8 p Hwf) as H8.
  assert (capacity p + 1 < 2 ^ 64) by (Z.div_mod_to_equations; lia).
  rewrite Get_grow
    by (rewrite Hfull, u64_small by lia; apply Z.gtb_lt; lia).
  cbv zeta.
  pose proof (Reallocate_wf p Hwf Hfits) as Hwfq.
  pose proof (Reallocate_capacity p Hwf Hfits) as Hcq.
  assert (forall k, 0 <= k < capacity p -> slot_bit (Reallocate p) k = true)
    as Hold.
  { intros k Hk. rewrite Reallocate_bit_old by assumption.
    apply popcount_full; try assumption. unfold size_inv in Hinv. lia. }
  destruct (scan_finds sizeofT Type_init Hs (Reallocate p) Hwfq)
    as (i & j & E & Hi & Hj & Hidx & Hcl).
  { exists (capacity p). split; [lia|].
    apply Reallocate_bit_new; try assumption. lia. }
  rewrite E, Hidx.
  assert (i * 8 + j = capacity p) as Hk.
  { destruct Hcl as (H1 & H2 & H3 & _).
    destruct (Z.lt_trichotomy (i * 8 + j) (capacity p)) as [Hlt|[Heq|Hgt]].
    - rewrite Hold in H2 by lia. discriminate.
    - exact Heq.
    - specialize (H3 (capacity p) ltac:(lia)).
      rewrite Reallocate_bit_new in H3; [|assumption|assumption|lia].
      discriminate. }
  rewrite Hk in *.
  eexists. split; [reflexivity|].
  pose proof (claimed_wf _ _ _ Hwfq Hcl) as Hwf'.
  pose proof (claimed_size_inv _ _ _ Hwfq
                (Reallocate_size_inv p Hwf Hfits Hinv) Hcl) as Hinv'.
  destruct Hcl as (H1 & H2 & H3 & H4 & H5 & H6 & H7 & _).
  split; [exact Hwf'|]. split; [exact Hinv'|].
  split; [rewrite H7; exact Hcq|].
  split; [rewrite H6; cbn [size Reallocate]; apply u64_small; lia|].
  split; [exact H4|].
  intros k Hk0. split.
  - rewrite H5 by lia. apply Reallocate_bit_old; assumption.
  - rewrite <- Hk at 1.
    rewrite claim_keeps_objects; try assumption; try lia.
    apply Reallocate_object; try assumption; try lia.
    rewrite Hitem. rewrite (Z.mul_comm sizeofT).
    apply Z.mul_le_mono_nonneg_r; lia.
Qed.

(** Every call of [Get], whether it grows the pool or not, leaves every
    live slot live and its object bytes unchanged. *)
Lemma Get_keeps_live_objects sizeofT Type_init Reallocates self p p' h :
  pool_wf p -> size_inv p ->
  0 <= sizeofT -> poolItemSize p = sizeofT ->
  Z.of_nat (length Type_init) = sizeofT ->
  (Reallocates = true -> growth_fits p) ->
  Get sizeofT Type_init Reallocates self p = Return p' h ->
  forall k, 0 <= k < capacity p -> slot_bit p k = true ->
    slot_bit p' k = true /\
    object_at sizeofT p' k = object_at sizeofT p k.
Proof.
  intros Hwf Hinv Hs Hitem Hlen Hfits HG k Hk Hlive.
  pose proof (wf_capacity p Hwf) as Hc. pose proof (wf_mult8 p Hwf) as H8.
  pose proof (popcount_bounds p) as Hpb. unfold size_inv in Hinv.
  destruct (u64 (size p + 1) >? capacity p) eqn:Efull.
  - destruct Reallocates.
    + assert (capacity p + 1 < 2 ^ 64) by (Z.div_mod_to_equations; lia).
      rewrite u64_small in Efull by lia. apply Z.gtb_lt in Efull.
      destruct (Get_growth sizeofT Type_init self p)
        as (p'' & HG' & _ & _ & _ & _ & _ & Hkeep);
        try assumption; try lia; [auto|].
      rewrite HG' in HG. inversion HG; subst p'' h.
      destruct (Hkeep k Hk) as [Hb Ho]. rewrite Hb. auto.
    + unfold Get in HG. rewrite Efull in HG. cbn [andb negb] in HG.
      inversion HG; subst p' h. auto.
  - rewrite Get_not_full in HG by exact Efull.
    destruct (Get_scan _ 0) as [[i j]|] eqn:E; [|discriminate].
    destruct (Get_scan_slot p i j Hwf E) as (Hi & Hj & _ & Hfree & _).
    destruct (scan_claimed sizeofT Type_init Hs p i j Hwf E) as [Hidx Hcl].
    rewrite Hidx in HG. inversion HG; subst p' h.
    assert (k <> i * 8 + j) as Hne by (intros ->; congruence).
    destruct Hcl as (_ & _ & _ & _ & Hother & _).
    split.
    + rewrite Hother by assumption. exact Hlive.
    + apply claim_keeps_objects; try assumption; lia.
Qed.

(** C3.  Growth ([Pool::Reallocate]) doubles the capacity, copies the old
    bitmap bytes and the old object-region bytes verbatim into the
    corresponding prefixes of the new block, and leaves the added bitmap
    bytes zero, so the new slots are free.  Hence every handle returned
    before the growth reads, through its unchanged index, the same bytes
    after it, both across [Reallocate] alone and across the [Get] that
    triggers the growth. *)
Theorem growth_preserves_data sizeofT Type_init self p :
  pool_wf p -> growth_fits p ->
  poolItemSize p = sizeofT -> Z.of_nat (length Type_init) = sizeofT ->
  capacity (Reallocate p) = capacity p * 2 /\
  bytes_at (Reallocate p) 0 (capacity p / 8)
    = bytes_at p 0 (capacity p / 8) /\
  bytes_at (Reallocate p) (Internal (Reallocate p))
      (poolItemSize p * capacity p)
    = bytes_at p (Internal p) (poolItemSize p * capacity p) /\
  bytes_at (Reallocate p) (capacity p / 8) (capacity p / 8)
    = replicate (Z.to_nat (capacity p / 8)) 0 /\
  (forall k, capacity p <= k < capacity p * 2 ->
     slot_bit (Reallocate p) k = false) /\
  (forall h, pContainer h = Some self -> 0 <= offset h < capacity p ->
     read_handle sizeofT (own self (Reallocate p)) h
     = read_handle sizeofT (own self p) h) /\
  (size_inv p -> size p = capacity p -> 0 < capacity p ->
   exists p' h',
     Get sizeofT Type_init true self p = Return p' h' /\
     capacity p' = capacity p * 2 /\
     forall h, pContainer h = Some self -> 0 <= offset h < capacity p ->
       read_handle sizeofT (own self p') h
       = read_handle sizeofT (own self p) h).
Proof.
  intros Hwf Hfits Hitem Hlen.
  assert (0 <= sizeofT) as Hs by lia.
  split; [apply Reallocate_capacity; assumption|].
  split; [apply Reallocate_lut_verbatim; assumption|].
  split; [apply Reallocate_region_verbatim; assumption|].
  split; [apply Reallocate_lut_zeroed; assumption|].
  split; [intros k Hk; apply Reallocate_bit_new; assumption|].
  split.
  - intros h Hc Hr. rewrite !read_handle_own by exact Hc. f_equal.
    apply Reallocate_object; try assumption; try lia.
    rewrite Hitem, (Z.mul_comm sizeofT).
    apply Z.mul_le_mono_nonneg_r; lia.
  - intros Hinv Hfull Hpos.
    destruct (Get_growth sizeofT Type_init self p)
      as (p' & HG & _ & _ & Hcap & _ & _ & Hkeep); try assumption.
    exists p', (OffsetPtr_of self (capacity p)).
    repeat split; try assumption.
    intros h Hc Hr. rewrite !read_handle_own by exact Hc. f_equal.
    apply Hkeep. exact Hr.
Qed.

Lemma growth_preserves_data_witness :
  capacity (Reallocate (Gets 1 [9] true 7 8 (Pool_new 1 8))) = 16 /\
  read_handle 1 (own 7 (Reallocate (Gets 1 [9] true 7 8 (Pool_new 1 8))))
    (OffsetPtr_of 7 3) = Some [9].
Proof.
  destruct (growth_preserves_data 1 [9] 7 (Gets 1 [9] true 7 8 (Pool_new 1 8)))
    as (H1 & _ & _ & _ & _ & H2 & _).
  - split; vm_compute; try reflexivity; try discriminate.
    split; [discriminate|reflexivity].
  - split; vm_compute; reflexivity.
  - reflexivity.
  - reflexivity.
  - split; [exact H1|].
    rewrite (H2 (OffsetPtr_of 7 3)); [reflexivity|reflexivity|].
    vm_compute. split; [discriminate|reflexivity].
Defined.

(** ** Freeing: what is detected and what is not *)

(** C1 (as the code behaves).  For every handle of the pool whose index is
    below the capacity and whose bitmap bit is already clear, [Pop]
    returns normally: no error of any kind is raised, and the pool (size,
    bitmap, object region) and the handle are left exactly as they were.
    A second free through a retained copy of a freed handle is therefore
    silently ignored.  A second free through the handle object that the
    first [Pop] zeroed dereferences a null container and has no defined
    behaviour. *)
Theorem Pop_clear_bit_is_ignored sizeofT self p h :
  0 < sizeofT -> pool_wf p ->
  pContainer h = Some self -> 0 <= offset h < capacity p ->
  slot_bit p (offset h) = false ->
  Pop sizeofT self p h = Return (p, h) tt /\
  Pop sizeofT self p (ZeroOut h) = Undefined.
Proof.
  intros Hs Hwf Hc Hr Hclear. split; [|reflexivity].
  rewrite Pop_in_range by assumption. rewrite Hclear. reflexivity.
Qed.

Lemma Pop_clear_bit_is_ignored_witness :
  Pop 1 7 (Pool_new 1 8) (OffsetPtr_of 7 3)
  = Return (Pool_new 1 8, OffsetPtr_of 7 3) tt.
Proof.
  apply (Pop_clear_bit_is_ignored 1 7 (Pool_new 1 8) (OffsetPtr_of 7 3)).
  - lia.
  - apply Pool_new_wf; [lia|lia|reflexivity|reflexivity].
  - reflexivity.
  - simpl. lia.
  - apply Pool_new_bit.
Defined.

(** C1, counterexample.  One element is allocated and the caller keeps a
    copy of its handle.  The first [Pop] frees the slot and zeroes the
    handle it was given.  The second [Pop], through the copy, finds the bit
    clear and returns normally with the pool and the handle unchanged: the
    double free raises nothing. *)
Lemma double_free_is_not_detected :
  Get 1 [0] true 7 (Pool_new 1 8)
    = Return (mkPool [1; 0; 0; 0; 0; 0; 0; 0; 0] 1 8 1 1) (OffsetPtr_of 7 0) /\
  Pop 1 7 (mkPool [1; 0; 0; 0; 0; 0; 0; 0; 0] 1 8 1 1) (OffsetPtr_of 7 0)
    = Return (mkPool [0; 0; 0; 0; 0; 0; 0; 0; 0] 1 8 0 1, OffsetPtr_null) tt /\
  slot_bit (mkPool [0; 0; 0; 0; 0; 0; 0; 0; 0] 1 8 0 1) 0 = false /\
  Pop 1 7 (mkPool [0; 0; 0; 0; 0; 0; 0; 0; 0] 1 8 0 1) (OffsetPtr_of 7 0)
    = Return (mkPool [0; 0; 0; 0; 0; 0; 0; 0; 0] 1 8 0 1, OffsetPtr_of 7 0) tt.
Proof. vm_compute. repeat split; reflexivity. Qed.

(** [Get] keeps the pool well formed and keeps [size] equal to the number
    of set bits. *)
Lemma Get_keeps_invariant sizeofT Type_init Reallocates self p p' h :
  0 <= sizeofT -> pool_wf p -> size_inv p ->
  (Reallocates = true -> growth_fits p) ->
  Get sizeofT Type_init Reallocates self p = Return p' h ->
  pool_wf p' /\ size_inv p'.
Proof.
  intros Hs Hwf Hinv Hfits H. unfold Get in H.
  destruct (u64 (size p + 1) >? capacity p) eqn:Efull;
    destruct Reallocates; cbn [andb negb] in H.
  - specialize (Hfits eq_refl).
    pose proof (Reallocate_wf p Hwf Hfits) as Hwfq.
    pose proof (Reallocate_size_inv p Hwf Hfits Hinv) as Hinvq.
    destruct (Get_scan _ 0) as [[i j]|] eqn:E; [|discriminate].
    destruct (scan_claimed sizeofT Type_init Hs _ i j Hwfq E) as [Hidx Hcl].
    rewrite Hidx in H. inversion H; subst p' h.
    eauto using claimed_wf, claimed_size_inv.
  - inversion H; subst p' h. auto.
  - destruct (Get_scan _ 0) as [[i j]|] eqn:E; [|discriminate].
    destruct (scan_claimed sizeofT Type_init Hs _ i j Hwf E) as [Hidx Hcl].
    rewrite Hidx in H. inversion H; subst p' h.
    eauto using claimed_wf, claimed_size_inv.
  - destruct (Get_scan _ 0) as [[i j]|] eqn:E; [|discriminate].
    destruct (scan_claimed sizeofT Type_init Hs _ i j Hwf E) as [Hidx Hcl].
    rewrite Hidx in H. inversion H; subst p' h.
    eauto using claimed_wf, claimed_size_inv.
Qed.

(** [Pop] keeps both as long as the index of the handle is not exactly the
    capacity: below it a set bit is cleared and [size] decremented, or
    nothing changes; above it the call is rejected and nothing changes. *)
Lemma Pop_keeps_invariant sizeofT self p h :
  0 < sizeofT -> pool_wf p -> size_inv p ->
  pContainer h = Some self -> offset h <> capacity p ->
  exists p' h',
    (Pop sizeofT self p h = Return (p', h') tt \/
     Pop sizeofT self p h = Throw (p', h') out_of_range) /\
    pool_wf p' /\ size_inv p'.
Proof.
  intros Hs Hwf Hinv Hc Hne.
  destruct (Z.lt_ge_cases (offset h) 0) as [Hneg|Hnn].
  { exists p, h. rewrite Pop_above_capacity by (assumption || lia). auto. }
  destruct (Z.lt_ge_cases (capacity p) (offset h)) as [Hbig|Hle].
  { exists p, h. rewrite Pop_above_capacity by (assumption || lia). auto. }
  rewrite Pop_in_range by (assumption || lia).
  destruct (slot_bit p (offset h)) eqn:E.
  - eexists _, _. split; [left; reflexivity|].
    split; [apply release_wf; exact Hwf|].
    apply release_size_inv; try assumption. lia.
  - exists p, h. auto.
Qed.

(** Writes of the host into the object region leave the bitmap alone. *)
Lemma poke_bit p a v k :
  pool_wf p -> pMem p <= a -> 0 <= k < capacity p ->
  slot_bit (poke p a v) k = slot_bit p k.
Proof.
  intros Hwf Ha Hk. unfold slot_bit, poke; simpl.
  rewrite list_lookup_insert_ne; [reflexivity|].
  pose proof (wf_pMem p Hwf). pose proof (wf_mult8 p Hwf).
  Z.div_mod_to_equations. lia.
Qed.

Lemma poke_keeps_invariant p a v :
  pool_wf p -> size_inv p -> pMem p <= a ->
  pool_wf (poke p a v) /\ size_inv (poke p a v).
Proof.
  intros Hwf Hinv Ha. split.
  - destruct Hwf as [Hc H8 Hm Hi Hb]. split; simpl; try assumption.
    rewrite length_insert. exact Hb.
  - unfold size_inv, popcount in *. cbn [size capacity poke]. rewrite Hinv.
    apply count_upto_ext. intros i Hi. symmetry.
    pose proof (wf_capacity p Hwf). apply poke_bit; (assumption || lia).
Qed.

(** In every state an allocator reaches the pool is well formed and
    [size] is the number of set bits. *)
Lemma reachable_invariant sizeofT Type_init Size Reallocates self p :
  0 < sizeofT -> 0 <= Size < 2 ^ 64 -> Size mod 8 = 0 ->
  Size / 8 + sizeofT * Size < 2 ^ 64 ->
  reachable sizeofT Type_init Size Reallocates self p ->
  pool_wf p /\ size_inv p.
Proof.
  intros Hs HS H8 Hfit Hr.
  induction Hr as [|p p' h Hr [Hwf Hinv] Hfits HG
                   |p h p' h' Hr [Hwf Hinv] Hc Hoff HP
                   |p a v Hr [Hwf Hinv] Ha].
  - split; [apply Pool_new_wf; (assumption || lia)|apply Pool_new_size_inv].
  - apply (Get_keeps_invariant sizeofT Type_init Reallocates self p p' h);
      (assumption || lia).
  - rewrite Pop_in_range in HP by assumption.
    destruct (slot_bit p (offset h)) eqn:E; inversion HP; subst p' h'.
    + split; [apply release_wf; exact Hwf|].
      apply release_size_inv; assumption.
    + auto.
  - apply poke_keeps_invariant; assumption.
Qed.

(** A handle whose index is exactly the capacity is never rejected: the
    byte right after the bitmap, the first byte of the object region, is
    taken for its bitmap byte. *)
Lemma Pop_at_capacity_returns sizeofT self p h :
  0 < sizeofT -> pool_wf p -> 0 < capacity p -> 0 < poolItemSize p ->
  pContainer h = Some self -> offset h = capacity p ->
  exists b,
    block p !! Z.to_nat (pMem p) = Some b /\
    Pop sizeofT self p h =
    if Z.testbit b 0
    then Return (release p (pMem p) 0, ZeroOut h) tt
    else Return (p, h) tt.
Proof.
  intros Hs Hwf Hpos Hitem Hc Hoff. pose proof Hwf as [Hcap H8 Hm Hi Hb].
  assert (8 <= capacity p) by (Z.div_mod_to_equations; lia).
  assert (0 < capacity p / 8 < capacity p) by (Z.div_mod_to_equations; lia).
  assert (0 < poolItemSize p * capacity p) by (apply Z.mul_pos_pos; lia).
  destruct (lookup_lt_is_Some_2 (block p) (Z.to_nat (pMem p))) as [b Hlk];
    [lia|].
  exists b. split; [exact Hlk|].
  unfold Pop. rewrite Resolve_own by exact Hc.
  rewrite Pop_check_passes by lia. rewrite Pop_index by lia.
  rewrite Hoff. rewrite (proj2 (Z.eqb_neq (capacity p) 0)) by lia.
  rewrite Z.mod_small by lia. rewrite <- Hm, Hlk.
  rewrite H8. change (u8 0) with 0. rewrite land_flag_eqb by lia.
  destruct (Z.testbit b 0); reflexivity.
Qed.

(** C2, evaluated on the code.  A one-byte element type whose
    value-initialisation stores 1, a pool of capacity 8 holding one
    element (slot 0), and a handle with index 8, that is with the address
    [base + capacity].  [Pop] raises no bounds error: it tests bit 0 of the
    byte at [pLut[1]], which is the first byte of the object region, finds
    it set, flips it and decrements [size] to 0 while bit 0 of the bitmap
    is still set.  A handle with index 9 is rejected. *)
Theorem Pop_at_capacity_is_not_rejected :
  Get 1 [1] true 7 (Pool_new 1 8)
    = Return (mkPool [1; 1; 0; 0; 0; 0; 0; 0; 0] 1 8 1 1) (OffsetPtr_of 7 0) /\
  Pop 1 7 (mkPool [1; 1; 0; 0; 0; 0; 0; 0; 0] 1 8 1 1) (OffsetPtr_of 7 8)
    = Return (mkPool [1; 0; 0; 0; 0; 0; 0; 0; 0] 1 8 0 1, OffsetPtr_null) tt /\
  Pop 1 7 (mkPool [1; 1; 0; 0; 0; 0; 0; 0; 0] 1 8 1 1) (OffsetPtr_of 7 9)
    = Throw (mkPool [1; 1; 0; 0; 0; 0; 0; 0; 0] 1 8 1 1, OffsetPtr_of 7 9)
        out_of_range.
Proof. vm_compute. repeat split; reflexivity. Qed.

(** C6, evaluated on the code.  In the same state [size] is 1 and one bit
    is set.  After [Pop] on the handle with index 8, [size] is 0 and one
    bit is still set: [size] no longer equals the number of set bits. *)
Theorem Pop_at_capacity_breaks_size_inv :
  pool_wf (mkPool [1; 1; 0; 0; 0; 0; 0; 0; 0] 1 8 1 1) /\
  size_inv (mkPool [1; 1; 0; 0; 0; 0; 0; 0; 0] 1 8 1 1) /\
  Pop 1 7 (mkPool [1; 1; 0; 0; 0; 0; 0; 0; 0] 1 8 1 1) (OffsetPtr_of 7 8)
    = Return (mkPool [1; 0; 0; 0; 0; 0; 0; 0; 0] 1 8 0 1, OffsetPtr_null) tt /\
  size (mkPool [1; 0; 0; 0; 0; 0; 0; 0; 0] 1 8 0 1) = 0 /\
  popcount (mkPool [1; 0; 0; 0; 0; 0; 0; 0; 0] 1 8 0 1) = 1 /\
  ~ size_inv (mkPool [1; 0; 0; 0; 0; 0; 0; 0; 0] 1 8 0 1).
Proof.
  split.
  { split; vm_compute; try reflexivity; try discriminate.
    split; [discriminate|reflexivity]. }
  vm_compute. repeat split; try reflexivity. discriminate.
Qed.

(** ** Iteration *)

Lemma foldl_option_step {St : Type} (step : option St -> Z -> option St)
    (g : St -> Z -> St) (l : list Z) :
  (forall s i, i ∈ l -> step (Some s) i = Some (g s i)) ->
  forall s, foldl step (Some s) l = Some (foldl g s l).
Proof.
  induction l as [|x l IH]; intros H s; [reflexivity|].
  cbn [foldl]. rewrite H by apply list_elem_of_here.
  apply IH. intros s' i Hi. apply H. apply list_elem_of_further. exact Hi.
Qed.

Lemma foldl_filter_visit {St : Type} (live : Z -> bool) (v : Z -> St -> St)
    (l : list Z) :
  forall s,
    foldl (fun s i => if live i then v i s else s) s l =
    foldl (fun s i => v i s) s (filter (fun i => live i = true) l).
Proof.
  induction l as [|x l IH]; intros s; [reflexivity|].
  cbn [foldl]. rewrite filter_cons.
  destruct (live x) eqn:E.
  - rewrite decide_True by reflexivity. cbn [foldl]. apply IH.
  - rewrite decide_False by discriminate. apply IH.
Qed.

Section Iteration.

Variable sizeofT : Z.
Variable Size : Z.
Variable p : Pool.
Hypothesis Hwf : pool_wf p.

(** One step of [ForAllActive] in terms of the bit it actually reads:
    bit [i mod 8] of byte [(i / 8) mod Size]. *)
Lemma ForAllActive_step_reads {St : Type} (f : Z -> St -> St) s i :
  0 <= i < capacity p -> 0 < Size ->
  ForAllActive_step sizeofT Size p f (Some s) i =
  Some (if slot_bit p (((i / 8) mod Size) * 8 + i mod 8)
        then f (pMem p + i * sizeofT) s else s).
Proof.
  intros Hi HS. unfold ForAllActive_step.
  pose proof (Z.mod_pos_bound i 8 ltac:(lia)) as Hm.
  assert (0 <= i / 8) as Hd by (Z.div_mod_to_equations; lia).
  pose proof (Z.mod_pos_bound (i / 8) Size HS) as Hb.
  pose proof (Z.mod_le (i / 8) Size Hd HS) as Hle.
  assert ((if i =? 0 then 0 else (i / 8) mod Size) = (i / 8) mod Size) as ->.
  { destruct (Z.eqb_spec i 0) as [->|]; [|reflexivity].
    symmetry. apply Z.mod_small. simpl. lia. }
  assert ((if i =? 0 then 0 else u8 (i mod 8)) = i mod 8) as ->.
  { destruct (Z.eqb_spec i 0) as [->|]; [reflexivity|apply u8_mod8]. }
  destruct (wf_lut_lookup p (((i / 8) mod Size) * 8 + i mod 8) Hwf)
    as [b Hlk]; [Z.div_mod_to_equations; lia|].
  unfold slot_bit. rewrite bit_index_div, bit_index_mod in * by lia.
  rewrite Hlk. rewrite land_flag_eqb by lia.
  destruct (Z.testbit b (i mod 8)); reflexivity.
Qed.

(** While the bitmap has at most [Size] bytes, that is while the capacity
    has not grown beyond [8 * Size], Active mode calls the visitor exactly
    on the slots whose bit is set, in ascending order. *)
Lemma ForAllActive_exact {St : Type} (f : Z -> St -> St) s :
  0 < Size -> capacity p <= 8 * Size ->
  ForAllActive sizeofT Size p f s =
  Some (foldl (fun s i => f (pMem p + i * sizeofT) s) s
          (filter (fun i => slot_bit p i = true) (seqZ 0 (capacity p)))).
Proof.
  intros HS Hcap. unfold ForAllActive.
  rewrite <- (foldl_filter_visit (slot_bit p)
                (fun i s => f (pMem p + i * sizeofT) s)).
  apply foldl_option_step. intros s' i Hi.
  apply elem_of_seqZ in Hi.
  rewrite ForAllActive_step_reads by lia.
  rewrite Z.mod_small by (Z.div_mod_to_equations; lia).
  replace (i / 8 * 8 + i mod 8) with i by (Z.div_mod_to_equations; lia).
  reflexivity.
Qed.

(** On a fully packed pool Active mode and Fast mode make the same calls
    in the same order, whatever the capacity. *)
Lemma ForAllActive_packed {St : Type} (f : Z -> St -> St) s :
  0 < Size ->
  (forall k, 0 <= k < capacity p -> slot_bit p k = true) ->
  ForAllActive sizeofT Size p f s = Some (ForAllFast sizeofT p f s).
Proof.
  intros HS Hall. unfold ForAllActive, ForAllFast.
  apply foldl_option_step. intros s' i Hi.
  apply elem_of_seqZ in Hi.
  rewrite ForAllActive_step_reads by lia.
  rewrite Hall; [reflexivity|].
  pose proof (Z.mod_pos_bound i 8 ltac:(lia)) as Hm.
  assert (0 <= i / 8) as Hd by (Z.div_mod_to_equations; lia).
  pose proof (Z.mod_pos_bound (i / 8) Size HS) as Hb.
  pose proof (Z.mod_le (i / 8) Size Hd HS) as Hle.
  Z.div_mod_to_equations. lia.
Qed.

(** In particular when [size == capacity] under the size invariant. *)
Lemma ForAll_modes_agree_when_full {St : Type} (f : Z -> St -> St) s :
  0 < Size -> size_inv p -> size p = capacity p ->
  ForAll sizeofT Size true p f s = ForAll sizeofT Size false p f s.
Proof.
  intros HS Hinv Hfull. unfold ForAll. apply ForAllActive_packed; [exact HS|].
  apply popcount_full; [exact Hwf|]. unfold size_inv in Hinv. lia.
Qed.

End Iteration.

(** C9, evaluated on the code.  A pool with [Size = 8] and growth enabled
    receives 65 allocations, as in the allocation loop of the test
    program.  It has grown four times, to capacity 128; slots 0 to 64 are
    live and slots 65 to 127 are free.  Active-mode iteration nevertheless
    calls the visitor on all 128 slots, the 63 free ones included, exactly
    as Fast mode does: for a slot [i >= 64] it reads bitmap byte
    [(i / 8) % Size], a byte of the slots below 64. *)
Theorem ForAllActive_visits_free_slots_after_growth :
  capacity (Gets 1 [0] true 7 65 (Pool_new 1 8)) = 128 /\
  size (Gets 1 [0] true 7 65 (Pool_new 1 8)) = 65 /\
  filter (fun i => slot_bit (Gets 1 [0] true 7 65 (Pool_new 1 8)) i = true)
    (seqZ 0 128) = seqZ 0 65 /\
  ForAllActive 1 8 (Gets 1 [0] true 7 65 (Pool_new 1 8)) record_visit []
    = Some ((fun i => 16 + i * 1) <$> seqZ 0 128) /\
  ForAllFast 1 (Gets 1 [0] true 7 65 (Pool_new 1 8)) record_visit []
    = (fun i => 16 + i * 1) <$> seqZ 0 128.
Proof. vm_compute. repeat split; reflexivity. Qed.

(** ** Size-class routing *)

Lemma ResolvePool_first_match classes typeSize c :
  ResolvePool classes typeSize = Some c ->
  exists before after,
    classes = before ++ c :: after /\ typeSize <= c /\
    Forall (fun c' => c' < typeSize) before.
Proof.
  induction classes as [|x classes IH]; intros H; [discriminate|].
  cbn [ResolvePool] in H. destruct (Z.leb_spec typeSize x) as [Hle|Hgt].
  - inversion H; subst x. exists [], classes. auto.
  - destruct (IH H) as (before & after & -> & Hc & Hall).
    exists (x :: before), after. auto.
Qed.

Lemma ResolvePool_None classes typeSize :
  ResolvePool classes typeSize = None <->
  forall c, In c classes -> c < typeSize.
Proof.
  induction classes as [|x classes IH]; cbn [ResolvePool In].
  - split; [intros _ c []|reflexivity].
  - destruct (Z.leb_spec typeSize x) as [Hle|Hgt].
    + split; [discriminate|]. intros H. specialize (H x (or_introl eq_refl)). lia.
    + rewrite IH. split.
      * intros H c [<-|Hin]; auto.
      * intros H c Hin. apply H. right. exact Hin.
Qed.

Lemma ResolvePool_smallest classes typeSize c :
  StronglySorted Z.le classes ->
  ResolvePool classes typeSize = Some c ->
  In c classes /\ typeSize <= c /\
  forall c', In c' classes -> typeSize <= c' -> c <= c'.
Proof.
  intros Hsorted H.
  destruct (ResolvePool_first_match _ _ _ H)
    as (before & after & -> & Hle & Hbefore).
  split; [apply in_or_app; right; left; reflexivity|].
  split; [exact Hle|].
  intros c' Hin Hfit. apply in_app_or in Hin as [Hin|[<-|Hin]].
  - rewrite Forall_forall in Hbefore.
    apply list_elem_of_In in Hin. specialize (Hbefore c' Hin). lia.
  - lia.
  - apply StronglySorted_app_1_r in Hsorted.
    apply StronglySorted_inv in Hsorted as [_ Hall].
    rewrite Forall_forall in Hall. apply Hall. apply list_elem_of_In. exact Hin.
Qed.

Lemma ResolvePool_total classes typeSize :
  (exists c, In c classes /\ typeSize <= c) ->
  exists c, ResolvePool classes typeSize = Some c.
Proof.
  intros (c & Hin & Hle).
  destruct (ResolvePool classes typeSize) as [c0|] eqn:E; [eauto|].
  rewrite ResolvePool_None in E. specialize (E c Hin). lia.
Qed.

(** The sub-allocators other than the one under [pool] are untouched. *)
Lemma set_pool_other g pool ftPool c :
  c <> pool -> m_Pools (set_pool g pool ftPool) !! c = m_Pools g !! c.
Proof. intros H. unfold set_pool; simpl. apply lookup_insert_ne. auto. Qed.

Lemma New_class Reallocates sizeofT g g' h c :
  ResolvePool (m_SubPoolSizes g) sizeofT = Some c ->
  New Reallocates sizeofT g = Return g' h ->
  pContainer h = Some c /\
  forall c', c' <> c -> m_Pools g' !! c' = m_Pools g !! c'.
Proof.
  intros Hc H. unfold New in H. rewrite Hc in H.
  destruct (m_Pools g !! c) as [ftPool|]; [|discriminate].
  destruct (Get _ _ _ _ _) as [ftPool' h0|ftPool' e|]; try discriminate.
  inversion H; subst g' h. split; [reflexivity|].
  intros c' Hne. apply set_pool_other. exact Hne.
Qed.

Lemma Delete_class sizeofT g oPtr g' oPtr' c :
  ResolvePool (m_SubPoolSizes g) sizeofT = Some c ->
  Delete sizeofT g oPtr = Return (g', oPtr') tt ->
  forall c', c' <> c -> m_Pools g' !! c' = m_Pools g !! c'.
Proof.
  intros Hc H. unfold Delete in H. rewrite Hc in H.
  destruct (m_Pools g !! c) as [ftPool|]; [|discriminate].
  destruct (Pop _ _ _ _) as [[ftPool' h0] u|[ftPool' h0] e|];
    try discriminate.
  inversion H; subst g' oPtr'.
  intros c' Hne. apply set_pool_other. exact Hne.
Qed.

(** C8.  With an ascending class list, [ResolvePool] returns the first
    class that fits, which is the smallest configured class size at least
    [sizeof(Type)]; it returns one whenever some class fits and throws
    [bad_alloc] exactly when [sizeof(Type)] exceeds every class, that is
    the largest.  With the classes 8, 16, 32, 64, 128, 256 a 20-byte type
    is routed to class 32 and a 300-byte type fails.  [New] and [Delete]
    resolve the same class for the same type: both fail with [bad_alloc]
    when there is none, and otherwise [New] binds the handle to that class
    and both leave every other class untouched. *)
Theorem ResolvePool_smallest_fitting_class classes typeSize :
  StronglySorted Z.le classes ->
  (forall c, ResolvePool classes typeSize = Some c ->
     In c classes /\ typeSize <= c /\
     forall c', In c' classes -> typeSize <= c' -> c <= c') /\
  ((exists c, In c classes /\ typeSize <= c) ->
     exists c, ResolvePool classes typeSize = Some c) /\
  (ResolvePool classes typeSize = None <->
     forall c, In c classes -> c < typeSize) /\
  ResolvePool [8; 16; 32; 64; 128; 256] 20 = Some 32 /\
  ResolvePool [8; 16; 32; 64; 128; 256] 300 = None /\
  (forall Reallocates g oPtr,
     m_SubPoolSizes g = classes ->
     match ResolvePool classes typeSize with
     | None =>
         New Reallocates typeSize g = Throw g bad_alloc /\
         Delete typeSize g oPtr = Throw (g, oPtr) bad_alloc
     | Some c =>
         (forall g' h, New Reallocates typeSize g = Return g' h ->
            pContainer h = Some c /\
            forall c', c' <> c -> m_Pools g' !! c' = m_Pools g !! c') /\
         (forall g' oPtr', Delete typeSize g oPtr = Return (g', oPtr') tt ->
            forall c', c' <> c -> m_Pools g' !! c' = m_Pools g !! c')
     end).
Proof.
  intros Hsorted.
  split; [intros c; apply ResolvePool_smallest; exact Hsorted|].
  split; [apply ResolvePool_total|].
  split; [apply ResolvePool_None|].
  split; [reflexivity|]. split; [reflexivity|].
  intros Reallocates g oPtr Hg.
  destruct (ResolvePool classes typeSize) as [c|] eqn:E.
  - split.
    + intros g' h. apply New_class. rewrite Hg. exact E.
    + intros g' oPtr'. apply Delete_class. rewrite Hg. exact E.
  - unfold New, Delete. rewrite Hg, E. auto.
Qed.

Lemma ResolvePool_smallest_fitting_class_witness :
  ResolvePool [8; 16; 32; 64; 128; 256] 20 = Some 32 /\
  forall c', In c' [8; 16; 32; 64; 128; 256] -> 20 <= c' -> 32 <= c'.
Proof.
  assert (StronglySorted Z.le [8; 16; 32; 64; 128; 256]) as Hs.
  { repeat (apply SSorted_cons; [|repeat apply Forall_cons_2; try lia; apply Forall_nil_2]).
    apply SSorted_nil. }
  destruct (ResolvePool_smallest_fitting_class [8; 16; 32; 64; 128; 256] 20 Hs)
    as (H & _).
  split; [reflexivity|]. apply (H 32). reflexivity.
Defined.

(** ** Deleting through the general-purpose allocator *)

Lemma set_pool_same g pool ftPool :
  m_Pools g !! pool = Some ftPool -> set_pool g pool ftPool = g.
Proof.
  intros H. destruct g as [pools sizes]. unfold set_pool; simpl in *.
  f_equal. apply insert_id. exact H.
Qed.

(** Whenever [Delete] returns, the caller's handle is unbound. *)
Lemma Delete_return_zeroes sizeofT g oPtr g' oPtr' :
  Delete sizeofT g oPtr = Return (g', oPtr') tt -> oPtr' = OffsetPtr_null.
Proof.
  unfold Delete. intros H.
  destruct (ResolvePool _ _) as [pool|]; [|discriminate].
  destruct (m_Pools g !! pool) as [ftPool|]; [|discriminate].
  destruct (Pop _ _ _ _) as [[ftPool' h0] u|[ftPool' h0] e|];
    try discriminate.
  inversion H. reflexivity.
Qed.

(** Whenever [Delete] throws, the caller's handle is what it was. *)
Lemma Delete_throw_keeps_handle sizeofT g oPtr g' oPtr' e :
  Delete sizeofT g oPtr = Throw (g', oPtr') e -> oPtr' = oPtr.
Proof.
  unfold Delete. intros H.
  destruct (ResolvePool _ _) as [pool|]; [|inversion H; reflexivity].
  destruct (m_Pools g !! pool) as [ftPool|]; [|discriminate].
  destruct (Pop _ _ _ _) as [[ftPool' h0] u|[ftPool' h0] e'|];
    try discriminate.
  inversion H. reflexivity.
Qed.

Section DeleteProperties.

Variable sizeofT : Z.
Variable g : GeneralPurposeAllocator.
Variable c : Z.
Variable ftPool : Pool.
Hypothesis sizeofT_pos : 0 < sizeofT.
Hypothesis Hclass : ResolvePool (m_SubPoolSizes g) sizeofT = Some c.
Hypothesis Hpool : m_Pools g !! c = Some ftPool.

(** A double free: the slot's bit is already clear. *)
Lemma Delete_clear_bit oPtr :
  pool_wf ftPool -> 0 <= offset oPtr < capacity ftPool ->
  slot_bit ftPool (offset oPtr) = false ->
  Delete sizeofT g oPtr = Return (g, OffsetPtr_null) tt.
Proof.
  intros Hwf Hr Hclear. unfold Delete. rewrite Hclass, Hpool.
  rewrite Pop_in_range; try assumption; try reflexivity.
  cbn [offset OffsetPtr_of]. unfold OffsetPtr_Internal. rewrite Hclear.
  rewrite set_pool_same by exact Hpool. reflexivity.
Qed.

(** A live slot is released. *)
Lemma Delete_set_bit oPtr :
  pool_wf ftPool -> 0 <= offset oPtr < capacity ftPool ->
  slot_bit ftPool (offset oPtr) = true ->
  Delete sizeofT g oPtr =
  Return (set_pool g c (release ftPool (offset oPtr / 8) (offset oPtr mod 8)),
          OffsetPtr_null) tt.
Proof.
  intros Hwf Hr Hset. unfold Delete. rewrite Hclass, Hpool.
  rewrite Pop_in_range; try assumption; try reflexivity.
  cbn [offset OffsetPtr_of]. unfold OffsetPtr_Internal. rewrite Hset.
  reflexivity.
Qed.

(** An index above the capacity: the bounds error of [Pop] propagates and
    nothing is changed, the handle included. *)
Lemma Delete_above_capacity oPtr :
  offset oPtr < 0 \/ capacity ftPool < offset oPtr ->
  Delete sizeofT g oPtr = Throw (g, oPtr) out_of_range.
Proof.
  intros Hout. unfold Delete. rewrite Hclass, Hpool.
  rewrite Pop_above_capacity; try assumption; try reflexivity.
  rewrite set_pool_same by exact Hpool. reflexivity.
Qed.

End DeleteProperties.

(** C10 (as the code behaves).  [Delete<Type>] zeroes the caller's handle
    whenever it returns: after every [Delete] call that returns normally
    the handle is unbound (no container, offset 0).  This includes the
    double free: on a handle whose index is below the capacity of the
    class's pool and whose bit is already clear, [Delete] returns, leaves
    the allocator (hence the pool's size and bitmap) unchanged and unbinds
    the handle.  When [Delete] exits with an exception ([bad_alloc] from
    the class resolution, [out_of_range] from the bounds check of [Pop])
    the handle is left as it was. *)
Theorem Delete_zeroes_handle_on_return sizeofT g oPtr :
  0 < sizeofT ->
  (forall g' oPtr',
     Delete sizeofT g oPtr = Return (g', oPtr') tt ->
     oPtr' = OffsetPtr_null /\ pContainer oPtr' = None /\ offset oPtr' = 0) /\
  (forall c ftPool,
     ResolvePool (m_SubPoolSizes g) sizeofT = Some c ->
     m_Pools g !! c = Some ftPool -> pool_wf ftPool ->
     0 <= offset oPtr < capacity ftPool ->
     slot_bit ftPool (offset oPtr) = false ->
     Delete sizeofT g oPtr = Return (g, OffsetPtr_null) tt) /\
  (forall c ftPool,
     ResolvePool (m_SubPoolSizes g) sizeofT = Some c ->
     m_Pools g !! c = Some ftPool -> pool_wf ftPool ->
     0 <= offset oPtr < capacity ftPool ->
     exists g', Delete sizeofT g oPtr = Return (g', OffsetPtr_null) tt) /\
  (forall g' oPtr' e,
     Delete sizeofT g oPtr = Throw (g', oPtr') e -> oPtr' = oPtr).
Proof.
  intros Hs. split; [|split; [|split]].
  - intros g' oPtr' H. apply Delete_return_zeroes in H. subst oPtr'.
    repeat split; reflexivity.
  - intros c ftPool Hc Hp Hwf Hr Hclear.
    apply (Delete_clear_bit sizeofT g c ftPool); assumption.
  - intros c ftPool Hc Hp Hwf Hr.
    destruct (slot_bit ftPool (offset oPtr)) eqn:E.
    + eexists. apply (Delete_set_bit sizeofT g c ftPool); assumption.
    + exists g. apply (Delete_clear_bit sizeofT g c ftPool); assumption.
  - intros g' oPtr' e. apply Delete_throw_keeps_handle.
Qed.

Lemma Delete_zeroes_handle_on_return_witness :
  Delete 8 (GeneralPurposeAllocator_new 8 [8; 16; 32]) (OffsetPtr_of 8 3)
  = Return (GeneralPurposeAllocator_new 8 [8; 16; 32], OffsetPtr_null) tt.
Proof.
  destruct (Delete_zeroes_handle_on_return 8
              (GeneralPurposeAllocator_new 8 [8; 16; 32]) (OffsetPtr_of 8 3))
    as (_ & H & _); [lia|].
  apply (H 8 (Pool_new 8 8)).
  - reflexivity.
  - reflexivity.
  - apply Pool_new_wf; [lia|lia|reflexivity|reflexivity].
  - simpl. lia.
  - apply Pool_new_bit.
Defined.

(** C10, counterexample.  Three classes with pools of capacity 8.  A
    [Delete] of an 8-byte type on a handle with index 9 leaves through the
    bounds error of [Pop], and a [Delete] of a 300-byte type leaves through
    [bad_alloc]; after either call the handle is still bound. *)
Lemma Delete_leaves_handle_bound_when_it_throws :
  Delete 8 (GeneralPurposeAllocator_new 8 [8; 16; 32]) (OffsetPtr_of 8 9)
  = Throw (GeneralPurposeAllocator_new 8 [8; 16; 32], OffsetPtr_of 8 9)
      out_of_range /\
  Delete 300 (GeneralPurposeAllocator_new 8 [8; 16; 32]) (OffsetPtr_of 8 0)
  = Throw (GeneralPurposeAllocator_new 8 [8; 16; 32], OffsetPtr_of 8 0)
      bad_alloc /\
  pContainer (OffsetPtr_of 8 9) = Some 8.
Proof.
  split; [|split; reflexivity].
  apply (Delete_above_capacity 8 _ 8 (Pool_new 8 8)).
  - lia.
  - reflexivity.
  - reflexivity.
  - right. simpl. lia.
Qed.

(** ** Handles of the general-purpose allocator *)

(** A handle returned by [New] resolves to [offset * sizeof(Type)] bytes
    past the base of the object region of the class's pool. *)
Lemma New_resolves Reallocates sizeofT g g' h :
  New Reallocates sizeofT g = Return g' h ->
  exists c p',
    ResolvePool (m_SubPoolSizes g) sizeofT = Some c /\
    pContainer h = Some c /\ m_Pools g' !! c = Some p' /\
    Resolve_in sizeofT g' h = Some (Internal p' + offset h * sizeofT).
Proof.
  unfold New. intros H.
  destruct (ResolvePool _ _) as [c|]; [|discriminate].
  destruct (m_Pools g !! c) as [ftPool|]; [|discriminate].
  destruct (Get _ _ _ _ _) as [ftPool' h0|ftPool' e|]; try discriminate.
  inversion H; subst g' h. exists c, ftPool'.
  assert (m_Pools (set_pool g c ftPool') !! c = Some ftPool') as Hl
    by apply lookup_insert_eq.
  repeat split; try assumption.
  unfold Resolve_in, Resolve. cbn [pContainer OffsetPtr_of]. cbv beta.
  rewrite Hl. reflexivity.
Qed.

(** That address is the pool's slot of the same index when the type is as
    large as the class, or when the index is 0. *)
Lemma New_resolves_to_slot Reallocates sizeofT g g' h c p' :
  New Reallocates sizeofT g = Return g' h ->
  pContainer h = Some c -> m_Pools g' !! c = Some p' ->
  poolItemSize p' = sizeofT \/ offset h = 0 ->
  Resolve_in sizeofT g' h = Some (slot_address p' (offset h)).
Proof.
  intros H Hc Hp Hsame.
  destruct (New_resolves _ _ _ _ _ H) as (c0 & p0 & _ & Hc0 & Hp0 & Hr).
  rewrite Hc in Hc0. inversion Hc0; subst c0.
  rewrite Hp in Hp0. inversion Hp0; subst p0.
  rewrite Hr. unfold slot_address. f_equal.
  destruct Hsame as [->| ->]; lia.
Qed.

(** C4, evaluated on the code.  The allocator of the test program: pools
    of capacity 128 for the classes 8, 16, 32, 64, 128, 256, and its
    48-byte type, which is routed to class 64.  The second [New] returns
    index 1 in the class-64 pool, whose items are 64 bytes; the handle
    resolves to byte 16 + 48 of the block, inside slot 0, while slot 1
    starts at byte 16 + 64.  With a 64-byte and a 48-byte type sharing the
    class, the second object (index 1, bytes 64 to 111) overlaps the first
    (index 0, bytes 16 to 79). *)
Theorem New_handle_misses_the_class_slot :
  ResolvePool [8; 16; 32; 64; 128; 256] 48 = Some 64 /\
  outcome_value
    (New true 48 (GeneralPurposeAllocator_new 128 [8; 16; 32; 64; 128; 256]))
    = Some (OffsetPtr_of 64 0) /\
  outcome_value
    (New true 48
       (News true [48]
          (GeneralPurposeAllocator_new 128 [8; 16; 32; 64; 128; 256])))
    = Some (OffsetPtr_of 64 1) /\
  poolItemSize <$>
    m_Pools (News true [48; 48]
               (GeneralPurposeAllocator_new 128 [8; 16; 32; 64; 128; 256]))
      !! 64 = Some 64 /\
  Resolve_in 48
    (News true [48; 48]
       (GeneralPurposeAllocator_new 128 [8; 16; 32; 64; 128; 256]))
    (OffsetPtr_of 64 1) = Some (16 + 48) /\
  (fun p => slot_address p 1) <$>
    m_Pools (News true [48; 48]
               (GeneralPurposeAllocator_new 128 [8; 16; 32; 64; 128; 256]))
      !! 64 = Some (16 + 64) /\
  outcome_value
    (New true 64 (GeneralPurposeAllocator_new 128 [8; 16; 32; 64; 128; 256]))
    = Some (OffsetPtr_of 64 0) /\
  outcome_value
    (New true 48
       (News true [64]
          (GeneralPurposeAllocator_new 128 [8; 16; 32; 64; 128; 256])))
    = Some (OffsetPtr_of 64 1) /\
  Resolve_in 64
    (News true [64; 48]
       (GeneralPurposeAllocator_new 128 [8; 16; 32; 64; 128; 256]))
    (OffsetPtr_of 64 0) = Some 16 /\
  Resolve_in 48
    (News true [64; 48]
       (GeneralPurposeAllocator_new 128 [8; 16; 32; 64; 128; 256]))
    (OffsetPtr_of 64 1) = Some 64.
Proof. vm_compute. repeat split; reflexivity. Qed.

(** ** The scenarios of the specification, evaluated *)

(** A pool of capacity 16 receives ten allocations, then the elements
    with indices 2 and 5 are freed: Active mode makes exactly eight
    visits, to slots 0, 1, 3, 4, 6, 7, 8, 9 in this order. *)
Example active_iteration_skips_holes :
  ForAllActive 1 16
    (outcome_state
       (Pop 1 7
          (outcome_state
             (Pop 1 7 (Gets 1 [0] true 7 10 (Pool_new 1 16)) (OffsetPtr_of 7 2))
             (Pool_new 1 16, OffsetPtr_null)).1
          (OffsetPtr_of 7 5))
       (Pool_new 1 16, OffsetPtr_null)).1
    record_visit []
  = Some ((fun i => 2 + i * 1) <$> [0; 1; 3; 4; 6; 7; 8; 9]).
Proof. vm_compute. reflexivity. Qed.

(** After [C] allocations into a pool of capacity [C] the size is [C];
    the next allocation grows the pool when growth is enabled and returns
    the unbound handle when it is not. *)
Example fill_then_allocate :
  size (Gets 4 [0; 0; 0; 0] true 7 16 (Pool_new 4 16)) = 16 /\
  capacity (Gets 4 [0; 0; 0; 0] true 7 17 (Pool_new 4 16)) = 32 /\
  size (Gets 4 [0; 0; 0; 0] true 7 17 (Pool_new 4 16)) = 17 /\
  outcome_value
    (Get 4 [0; 0; 0; 0] false 7 (Gets 4 [0; 0; 0; 0] false 7 16 (Pool_new 4 16)))
  = Some OffsetPtr_null.
Proof. vm_compute. repeat split; reflexivity. Qed.

(** A freed slot is free again before the next scan, which reuses it. *)
Example freed_slot_is_reused :
  slot_bit
    (outcome_state
       (Pop 1 7 (Gets 1 [0] true 7 3 (Pool_new 1 8)) (OffsetPtr_of 7 1))
       (Pool_new 1 8, OffsetPtr_null)).1 1 = false /\
  outcome_value
    (Get 1 [0] true 7
       (outcome_state
          (Pop 1 7 (Gets 1 [0] true 7 3 (Pool_new 1 8)) (OffsetPtr_of 7 1))
          (Pool_new 1 8, OffsetPtr_null)).1)
  = Some (OffsetPtr_of 7 1).
Proof. vm_compute. repeat split; reflexivity. Qed.

(** * Further properties of the code *)

(** ** Freeing a live element *)

(** The bitmap update of [Pop] touches one bitmap byte only: every object
    keeps its bytes. *)
Lemma release_object sizeofT p i j k :
  0 <= i < pMem p -> 0 <= k * sizeofT ->
  object_at sizeofT (release p i j) k = object_at sizeofT p k.
Proof.
  intros Hi Hk. unfold object_at, Internal. cbn [pMem release].
  apply bytes_at_ext. intros x Hx. cbn [block release].
  apply list_lookup_alter_ne. lia.
Qed.

Lemma wf_byte_index p k :
  pool_wf p -> 0 <= k < capacity p -> 0 <= k / 8 < pMem p.
Proof.
  intros [Hc H8 Hm Hi Hb] Hk. rewrite Hm. Z.div_mod_to_equations. lia.
Qed.

(** What [Pop] does to a live slot. *)
Lemma Pop_live_spec sizeofT self p h :
  0 < sizeofT -> pool_wf p -> size_inv p ->
  pContainer h = Some self -> 0 <= offset h < capacity p ->
  slot_bit p (offset h) = true ->
  exists p',
    Pop sizeofT self p h = Return (p', OffsetPtr_null) tt /\
    slot_bit p' (offset h) = false /\
    (forall k, 0 <= k -> k <> offset h -> slot_bit p' k = slot_bit p k) /\
    size p' = size p - 1 /\
    capacity p' = capacity p /\
    (forall k, 0 <= k -> object_at sizeofT p' k = object_at sizeofT p k) /\
    pool_wf p' /\ size_inv p'.
Proof.
  intros Hs Hwf Hinv Hc Hr Hlive.
  exists (release p (offset h / 8) (offset h mod 8)).
  pose proof (release_size_inv p (offset h) Hwf Hinv Hr Hlive) as Hinv'.
  split; [rewrite Pop_in_range by assumption; rewrite Hlive; reflexivity|].
  split; [rewrite release_bit, Hlive, Z.eqb_refl by (assumption || lia);
          reflexivity|].
  split.
  { intros k Hk Hne. rewrite release_bit by assumption.
    rewrite (proj2 (Z.eqb_neq k (offset h)) Hne). apply xorb_false_r. }
  split.
  { unfold size_inv in *. rewrite Hinv', Hinv.
    apply release_popcount; assumption. }
  split; [reflexivity|].
  split.
  { intros k Hk. apply release_object.
    - apply wf_byte_index; assumption.
    - apply Z.mul_nonneg_nonneg; lia. }
  split; [apply release_wf; exact Hwf|exact Hinv'].
Qed.

(** X1.  [Pop] on a handle of the pool whose index is below the capacity
    and whose slot is live returns normally, clears exactly that slot's
    bit, decrements [size] by one, keeps the capacity, zeroes the handle
    and leaves the bytes of every object, the freed one included, as they
    were; the pool stays well formed with [size] equal to the number of set
    bits. *)
Theorem Pop_frees_live_slot sizeofT self p h :
  0 < sizeofT -> pool_wf p -> size_inv p ->
  pContainer h = Some self -> 0 <= offset h < capacity p ->
  slot_bit p (offset h) = true ->
  exists p',
    Pop sizeofT self p h = Return (p', OffsetPtr_null) tt /\
    slot_bit p' (offset h) = false /\
    (forall k, 0 <= k -> k <> offset h -> slot_bit p' k = slot_bit p k) /\
    size p' = size p - 1 /\
    capacity p' = capacity p /\
    (forall k, 0 <= k -> object_at sizeofT p' k = object_at sizeofT p k) /\
    pool_wf p' /\ size_inv p'.
Proof. apply Pop_live_spec. Qed.

Lemma Pop_frees_live_slot_witness :
  exists p',
    Pop 1 7 (Gets 1 [5] true 7 3 (Pool_new 1 8)) (OffsetPtr_of 7 1)
      = Return (p', OffsetPtr_null) tt /\
    size p' = 2 /\ object_at 1 p' 1 = [5].
Proof.
  destruct (Pop_frees_live_slot 1 7 (Gets 1 [5] true 7 3 (Pool_new 1 8))
              (OffsetPtr_of 7 1))
    as (p' & H1 & _ & _ & H2 & _ & H3 & _).
  - lia.
  - split; vm_compute; try reflexivity; try discriminate.
    split; [discriminate|reflexivity].
  - vm_compute. reflexivity.
  - reflexivity.
  - vm_compute. split; [discriminate|reflexivity].
  - vm_compute. reflexivity.
  - exists p'. split; [exact H1|]. split; [exact H2|].
    rewrite H3 by lia. vm_compute. reflexivity.
Defined.



(** ** Allocation followed by free *)

(** [Get] on a pool with a free slot, in terms of [claimed]. *)
Lemma Get_claims_lowest sizeofT Type_init Reallocates self p :
  pool_wf p -> size_inv p -> 0 <= sizeofT ->
  (exists k, 0 <= k < capacity p /\ slot_bit p k = false) ->
  exists i j,
    Get sizeofT Type_init Reallocates self p
      = Return (construct sizeofT Type_init (claim p i j) (i * 8 + j))
          (OffsetPtr_of self (i * 8 + j)) /\
    0 <= i < capacity p / 8 /\ 0 <= j < 8 /\
    claimed p (construct sizeofT Type_init (claim p i j) (i * 8 + j))
      (i * 8 + j).
Proof.
  intros Hwf Hinv Hs Hfree.
  pose proof (popcount_lt p Hwf Hfree) as Hlt.
  pose proof (popcount_bounds p) as Hb. pose proof (wf_capacity p Hwf) as Hc.
  unfold size_inv in Hinv.
  assert (u64 (size p + 1) = size p + 1) as Hu by (apply u64_small; lia).
  rewrite Get_not_full by (rewrite Hu, Z.gtb_ltb; apply Z.ltb_ge; lia).
  destruct (scan_finds sizeofT Type_init Hs p Hwf Hfree)
    as (i & j & E & Hi & Hj & Hidx & Hcl).
  rewrite E, Hidx. exists i, j. auto.
Qed.

(** [Get] then [Pop] through the returned handle. *)
Lemma Get_Pop_spec sizeofT Type_init Reallocates self p :
  0 < sizeofT -> pool_wf p -> size_inv p ->
  (exists k, 0 <= k < capacity p /\ slot_bit p k = false) ->
  exists k p1 p2,
    Get sizeofT Type_init Reallocates self p
      = Return p1 (OffsetPtr_of self k) /\
    Pop sizeofT self p1 (OffsetPtr_of self k)
      = Return (p2, OffsetPtr_null) tt /\
    0 <= k < capacity p /\
    size p2 = size p /\ capacity p2 = capacity p /\
    (forall k', 0 <= k' < capacity p -> slot_bit p2 k' = slot_bit p k') /\
    pool_wf p2 /\ size_inv p2 /\
    (Z.of_nat (length Type_init) = sizeofT ->
     forall k', 0 <= k' -> k' <> k ->
       object_at sizeofT p2 k' = object_at sizeofT p k').
Proof.
  intros Hs Hwf Hinv Hfree.
  destruct (Get_claims_lowest sizeofT Type_init Reallocates self p)
    as (i & j & HG & Hi & Hj & Hcl); try assumption; try lia.
  set (k := i * 8 + j) in *.
  set (p1 := construct sizeofT Type_init (claim p i j) k) in *.
  pose proof (claimed_wf _ _ _ Hwf Hcl) as Hwf1.
  pose proof (claimed_size_inv _ _ _ Hwf Hinv Hcl) as Hinv1.
  pose proof (claimed_popcount _ _ _ Hwf Hcl) as Hpop1.
  destruct Hcl as (Hk & Hclear & _ & Hset & Hother & Hsize & Hcap & _).
  destruct (Pop_live_spec sizeofT self p1 (OffsetPtr_of self k))
    as (p2 & HP & Hb2 & Ho2 & Hs2 & Hc2 & Hobj2 & Hwf2 & Hinv2);
    try assumption; try reflexivity;
    try (cbn [offset OffsetPtr_of]; lia).
  cbn [offset OffsetPtr_of] in *.
  exists k, p1, p2.
  split; [exact HG|]. split; [exact HP|]. split; [exact Hk|].
  split.
  { unfold size_inv in *. rewrite Hs2, Hinv1, Hpop1, Hinv. lia. }
  split; [lia|].
  split.
  { intros k' Hk'. destruct (Z.eq_dec k' k) as [->|Hne].
    - rewrite Hb2, Hclear. reflexivity.
    - rewrite Ho2 by lia. apply Hother; assumption. }
  split; [exact Hwf2|]. split; [exact Hinv2|].
  intros Hlen k' Hk' Hne. rewrite Hobj2 by exact Hk'.
  apply construct_other_object; try assumption; try lia.
Qed.

(** X3.  Allocation followed by free is a round trip on the bookkeeping.
    On a pool with a free slot, [Get] returns a handle of the pool and
    [Pop] through that handle returns normally and zeroes it; afterwards
    [size], the capacity and every bit of the bitmap are what they were
    before the [Get], and every object other than the one just created
    and destroyed has its bytes unchanged. *)
Theorem Get_then_Pop_restores_bookkeeping sizeofT Type_init Reallocates
    self p :
  0 < sizeofT -> Z.of_nat (length Type_init) = sizeofT ->
  pool_wf p -> size_inv p ->
  (exists k, 0 <= k < capacity p /\ slot_bit p k = false) ->
  exists k p1 p2,
    Get sizeofT Type_init Reallocates self p
      = Return p1 (OffsetPtr_of self k) /\
    Pop sizeofT self p1 (OffsetPtr_of self k)
      = Return (p2, OffsetPtr_null) tt /\
    size p2 = size p /\ capacity p2 = capacity p /\
    (forall k', 0 <= k' < capacity p -> slot_bit p2 k' = slot_bit p k') /\
    (forall k', 0 <= k' -> k' <> k ->
       object_at sizeofT p2 k' = object_at sizeofT p k').
Proof.
  intros Hs Hlen Hwf Hinv Hfree.
  destruct (Get_Pop_spec sizeofT Type_init Reallocates self p)
    as (k & p1 & p2 & HG & HP & _ & H1 & H2 & H3 & _ & _ & H4);
    try assumption.
  exists k, p1, p2. auto 10.
Qed.

Lemma Get_then_Pop_restores_bookkeeping_witness :
  exists k p1 p2,
    Get 1 [5] true 7 (Gets 1 [5] true 7 3 (Pool_new 1 8))
      = Return p1 (OffsetPtr_of 7 k) /\
    Pop 1 7 p1 (OffsetPtr_of 7 k) = Return (p2, OffsetPtr_null) tt /\
    size p2 = 3.
Proof.
  destruct (Get_then_Pop_restores_bookkeeping 1 [5] true 7
              (Gets 1 [5] true 7 3 (Pool_new 1 8)))
    as (k & p1 & p2 & H1 & H2 & H3 & _).
  - lia.
  - reflexivity.
  - split; vm_compute; try reflexivity; try discriminate.
    split; [discriminate|reflexivity].
  - vm_compute. reflexivity.
  - exists 5. vm_compute. split; [split; [discriminate|reflexivity]|reflexivity].
  - exists k, p1, p2. split; [exact H1|]. split; [exact H2|]. exact H3.
Defined.

(** X4.  A slot freed from a full pool is the one the next allocation
    takes.  When every slot is live, [Pop] on a live handle followed by
    [Get] hands out the very index that was freed, without growing the
    pool, whether growth is enabled or not, and the pool is full again. *)
Theorem Get_reuses_slot_freed_from_full_pool sizeofT Type_init Reallocates
    self p h :
  0 < sizeofT -> pool_wf p -> size_inv p -> size p = capacity p ->
  pContainer h = Some self -> 0 <= offset h < capacity p ->
  exists p1 p2,
    Pop sizeofT self p h = Return (p1, OffsetPtr_null) tt /\
    Get sizeofT Type_init Reallocates self p1
      = Return p2 (OffsetPtr_of self (offset h)) /\
    capacity p2 = capacity p /\ size p2 = size p /\
    (forall k, 0 <= k < capacity p -> slot_bit p2 k = true).
Proof.
  intros Hs Hwf Hinv Hfull Hc Hr.
  assert (forall k, 0 <= k < capacity p -> slot_bit p k = true) as Hall.
  { apply popcount_full; [exact Hwf|]. unfold size_inv in Hinv. lia. }
  destruct (Pop_live_spec sizeofT self p h)
    as (p1 & HP & Hb1 & Ho1 & Hs1 & Hc1 & _ & Hwf1 & Hinv1);
    try assumption; [apply Hall; exact Hr|].
  destruct (Get_claims_lowest sizeofT Type_init Reallocates self p1)
    as (i & j & HG & Hi & Hj & Hcl); try assumption; try lia.
  { exists (offset h). rewrite Hc1. auto. }
  assert (i * 8 + j = offset h) as Hk.
  { destruct Hcl as (Hk & Hclear & _).
    destruct (Z.eq_dec (i * 8 + j) (offset h)) as [E|Hne]; [exact E|].
    rewrite Ho1, Hall in Hclear by lia. discriminate. }
  rewrite Hk in *.
  pose proof (claimed_size_inv _ _ _ Hwf1 Hinv1 Hcl) as Hinv2.
  pose proof (claimed_popcount _ _ _ Hwf1 Hcl) as Hpop2.
  destruct Hcl as (_ & _ & _ & Hset & Hother & _ & Hcap2 & _).
  eexists _, _. split; [exact HP|]. split; [exact HG|].
  split; [lia|].
  split.
  { unfold size_inv in *. rewrite Hinv2, Hpop2, <- Hinv1, Hs1. lia. }
  intros k Hk'. destruct (Z.eq_dec k (offset h)) as [->|Hne]; [exact Hset|].
  rewrite Hother by lia. rewrite Ho1 by lia. apply Hall. exact Hk'.
Qed.

Lemma Get_reuses_slot_freed_from_full_pool_witness :
  exists p1 p2,
    Pop 1 7 (Gets 1 [5] false 7 8 (Pool_new 1 8)) (OffsetPtr_of 7 3)
      = Return (p1, OffsetPtr_null) tt /\
    Get 1 [5] false 7 p1 = Return p2 (OffsetPtr_of 7 3) /\
    capacity p2 = 8.
Proof.
  destruct (Get_reuses_slot_freed_from_full_pool 1 [5] false 7
              (Gets 1 [5] false 7 8 (Pool_new 1 8)) (OffsetPtr_of 7 3))
    as (p1 & p2 & H1 & H2 & H3 & _).
  - lia.
  - split; vm_compute; try reflexivity; try discriminate.
    split; [discriminate|reflexivity].
  - vm_compute. reflexivity.
  - vm_compute. reflexivity.
  - reflexivity.
  - vm_compute. split; [discriminate|reflexivity].
  - exists p1, p2. split; [exact H1|]. split; [exact H2|]. exact H3.
Defined.

(** ** Runs of allocations *)

(** [Get] on a full pool with growth enabled, in terms of the bitmap
    alone: whatever the element size, the pool is doubled and the new
    element takes the first added slot. *)
Lemma Get_grow_spec sizeofT Type_init self p :
  pool_wf p -> growth_fits p -> size_inv p -> 0 <= sizeofT ->
  0 < capacity p -> size p = capacity p ->
  exists p',
    Get sizeofT Type_init true self p
      = Return p' (OffsetPtr_of self (capacity p)) /\
    pool_wf p' /\ size_inv p' /\
    capacity p' = capacity p * 2 /\ size p' = size p + 1 /\
    poolItemSize p' = poolItemSize p /\
    forall k, 0 <= k < capacity p * 2 -> slot_bit p' k = (k <=? capacity p).
Proof.
  intros Hwf Hfits Hinv Hs Hpos Hfull.
  pose proof (wf_capacity p Hwf) as Hc. pose proof (wf_mult8 p Hwf) as H8.
  assert (capacity p + 1 < 2 ^ 64) by (Z.div_mod_to_equations; lia).
  rewrite Get_grow
    by (rewrite Hfull, u64_small by lia; apply Z.gtb_lt; lia).
  cbv zeta.
  pose proof (Reallocate_wf p Hwf Hfits) as Hwfq.
  pose proof (Reallocate_capacity p Hwf Hfits) as Hcq.
  assert (forall k, 0 <= k < capacity p -> slot_bit (Reallocate p) k = true)
    as Hold.
  { intros k Hk. rewrite Reallocate_bit_old by assumption.
    apply popcount_full; try assumption. unfold size_inv in Hinv. lia. }
  destruct (scan_finds sizeofT Type_init Hs (Reallocate p) Hwfq)
    as (i & j & E & Hi & Hj & Hidx & Hcl).
  { exists (capacity p). split; [lia|].
    apply Reallocate_bit_new; try assumption. lia. }
  rewrite E, Hidx.
  assert (i * 8 + j = capacity p) as Hk.
  { destruct Hcl as (H1 & H2 & H3 & _).
    destruct (Z.lt_trichotomy (i * 8 + j) (capacity p)) as [Hlt|[Heq|Hgt]].
    - rewrite Hold in H2 by lia. discriminate.
    - exact Heq.
    - specialize (H3 (capacity p) ltac:(lia)).
      rewrite Reallocate_bit_new in H3; [|assumption|assumption|lia].
      discriminate. }
  rewrite Hk in *.
  eexists. split; [reflexivity|].
  pose proof (claimed_wf _ _ _ Hwfq Hcl) as Hwf'.
  pose proof (claimed_size_inv _ _ _ Hwfq
                (Reallocate_size_inv p Hwf Hfits Hinv) Hcl) as Hinv'.
  destruct Hcl as (H1 & H2 & H3 & H4 & H5 & H6 & H7 & _ & H9 & _).
  split; [exact Hwf'|]. split; [exact Hinv'|].
  split; [rewrite H7; exact Hcq|].
  split; [rewrite H6; cbn [size Reallocate]; apply u64_small; lia|].
  split; [exact H9|].
  intros k Hk0. destruct (Z.leb_spec k (capacity p)) as [Hle|Hgt].
  - destruct (Z.eq_dec k (capacity p)) as [->|Hne]; [exact H4|].
    rewrite H5 by lia. apply Hold. lia.
  - rewrite H5 by lia. apply Reallocate_bit_new; (assumption || lia).
Qed.

(** One more allocation on a pool whose [m] lowest slots are live. *)
Lemma prefix_live_Get sizeofT Type_init Reallocates self Size m p :
  0 <= sizeofT -> 0 < Size -> prefix_live Size m p ->
  m + 1 <= Size \/
    (Reallocates = true /\ (1 + poolItemSize p) * (2 * (m + 1)) < 2 ^ 64) ->
  exists p',
    Get sizeofT Type_init Reallocates self p
      = Return p' (OffsetPtr_of self m) /\
    prefix_live Size (m + 1) p' /\ poolItemSize p' = poolItemSize p.
Proof.
  intros Hs HS (Hwf & Hinv & Hsize & HSc & Hmc & Hsmall & Hbig & Hbits) Hbound.
  pose proof (wf_capacity p Hwf) as Hc. pose proof (wf_item p Hwf) as Hitem.
  assert (0 <= m) as Hm0.
  { unfold size_inv in Hinv. pose proof (popcount_bounds p). lia. }
  destruct (Z.lt_ge_cases m (capacity p)) as [Hlt|Hge].
  - destruct (Get_claims_lowest sizeofT Type_init Reallocates self p)
      as (i & j & HG & Hi & Hj & Hcl); try assumption.
    { exists m. split; [lia|]. rewrite Hbits by lia. apply Z.ltb_irrefl. }
    assert (i * 8 + j = m) as Hk.
    { destruct Hcl as (Hk & Hclear & Hbelow & _).
      destruct (Z.lt_trichotomy (i * 8 + j) m) as [Hl|[E|Hg]]; [|exact E|].
      - rewrite Hbits in Hclear by lia.
        apply Z.ltb_ge in Hclear. lia.
      - specialize (Hbelow m ltac:(lia)). rewrite Hbits in Hbelow by lia.
        rewrite Z.ltb_irrefl in Hbelow. discriminate. }
    rewrite Hk in *. eexists. split; [exact HG|].
    pose proof (claimed_wf _ _ _ Hwf Hcl) as Hwf'.
    pose proof (claimed_size_inv _ _ _ Hwf Hinv Hcl) as Hinv'.
    pose proof (claimed_popcount _ _ _ Hwf Hcl) as Hpop'.
    destruct Hcl as (_ & _ & _ & Hset & Hother & _ & Hcap & _ & Hit & _).
    split; [|exact Hit].
    unfold prefix_live. rewrite Hcap.
    split; [exact Hwf'|]. split; [exact Hinv'|].
    split; [unfold size_inv in *; rewrite Hinv', Hpop'; lia|].
    split; [lia|]. split; [lia|]. split; [intros; apply Hsmall; lia|].
    split; [intros; destruct (Z.eq_dec m Size); lia|].
    intros k Hk'. destruct (Z.eq_dec k m) as [->|Hne].
    + rewrite Hset. symmetry. apply Z.ltb_lt. lia.
    + rewrite Hother, Hbits by lia.
      destruct (Z.ltb_spec k m), (Z.ltb_spec k (m + 1)); (reflexivity || lia).
  - assert (m = capacity p) as Hfull by lia.
    destruct Hbound as [Hfit|[-> Hfit]]; [lia|].
    assert (growth_fits p) as Hfits.
    { split; [nia|].
      assert (capacity p * 2 / 8 <= capacity p * 2)
        by (Z.div_mod_to_equations; lia).
      nia. }
    destruct (Get_grow_spec sizeofT Type_init self p)
      as (p' & HG & Hwf' & Hinv' & Hcap' & Hsize' & Hit' & Hbits');
      try assumption; try lia.
    rewrite <- Hfull in HG. exists p'. split; [exact HG|].
    split; [|exact Hit'].
    unfold prefix_live. rewrite Hcap'.
    split; [exact Hwf'|]. split; [exact Hinv'|].
    split; [lia|]. split; [lia|]. split; [lia|]. split; [lia|].
    split; [lia|].
    intros k Hk'. rewrite Hbits' by exact Hk'. rewrite <- Hfull.
    destruct (Z.leb_spec k m), (Z.ltb_spec k (m + 1)); (reflexivity || lia).
Qed.

Lemma prefix_live_new elementSize Size :
  0 <= elementSize -> 0 < Size < 2 ^ 64 -> Size mod 8 = 0 ->
  Size / 8 + elementSize * Size < 2 ^ 64 ->
  prefix_live Size 0 (Pool_new elementSize Size).
Proof.
  intros He HS H8 Hfit. unfold prefix_live.
  split; [apply Pool_new_wf; (assumption || lia)|].
  split; [apply Pool_new_size_inv|].
  cbn [size capacity Pool_new].
  repeat split; try lia.
  intros k Hk. rewrite Pool_new_bit. symmetry. apply Z.ltb_ge. lia.
Qed.

(** The allocation loop of the test program, for any number of rounds;
    [itemSize] is the item size of the pool and [sizeofT] the element size
    [Get] runs with. *)
Lemma Gets_prefix_live sizeofT Type_init Reallocates self itemSize Size
    (m : nat) :
  0 <= sizeofT -> 0 <= itemSize -> 0 < Size < 2 ^ 64 -> Size mod 8 = 0 ->
  Size / 8 + itemSize * Size < 2 ^ 64 ->
  Z.of_nat m <= Size \/
    (Reallocates = true /\ (1 + itemSize) * (2 * Z.of_nat m) < 2 ^ 64) ->
  prefix_live Size (Z.of_nat m)
    (Gets sizeofT Type_init Reallocates self m (Pool_new itemSize Size)) /\
  poolItemSize
    (Gets sizeofT Type_init Reallocates self m (Pool_new itemSize Size))
    = itemSize.
Proof.
  intros Hs Hi HS H8 Hfit. induction m as [|m IH]; intros Hbound.
  - split; [apply prefix_live_new; assumption|reflexivity].
  - destruct IH as [IH Hit].
    { destruct Hbound as [Hle|[HR Hb]]; [left; lia|right].
      split; [exact HR|]. nia. }
    destruct (prefix_live_Get sizeofT Type_init Reallocates self Size
                (Z.of_nat m) _ Hs ltac:(lia) IH) as (p' & HG & Hpl & Hit').
    { rewrite Hit. destruct Hbound as [Hle|[HR Hb]]; [left; lia|right].
      split; [exact HR|]. rewrite Nat2Z.inj_succ in Hb. lia. }
    cbn [Gets]. rewrite HG. rewrite Nat2Z.inj_succ.
    replace (Z.succ (Z.of_nat m)) with (Z.of_nat m + 1) by lia.
    split; [exact Hpl|]. rewrite Hit'. exact Hit.
Qed.

(** The next [Get] of such a run returns the next index. *)
Lemma Gets_next sizeofT Type_init Reallocates self itemSize Size (m : nat) :
  0 <= sizeofT -> 0 <= itemSize -> 0 < Size < 2 ^ 64 -> Size mod 8 = 0 ->
  Size / 8 + itemSize * Size < 2 ^ 64 ->
  Z.of_nat (S m) <= Size \/
    (Reallocates = true /\ (1 + itemSize) * (2 * Z.of_nat (S m)) < 2 ^ 64) ->
  Get sizeofT Type_init Reallocates self
    (Gets sizeofT Type_init Reallocates self m (Pool_new itemSize Size))
  = Return
      (Gets sizeofT Type_init Reallocates self (S m) (Pool_new itemSize Size))
      (OffsetPtr_of self (Z.of_nat m)).
Proof.
  intros Hs Hi HS H8 Hfit Hbound.
  destruct (Gets_prefix_live sizeofT Type_init Reallocates self itemSize
              Size m) as [Hpl Hit]; try assumption.
  { destruct Hbound as [Hle|[HR Hb]]; [left; lia|right].
    split; [exact HR|]. nia. }
  destruct (prefix_live_Get sizeofT Type_init Reallocates self Size
              (Z.of_nat m) _ Hs ltac:(lia) Hpl) as (p' & HG & _).
  { rewrite Hit. destruct Hbound as [Hle|[HR Hb]]; [left; lia|right].
    split; [exact HR|]. rewrite Nat2Z.inj_succ in Hb. lia. }
  rewrite HG. cbn [Gets]. rewrite HG. reflexivity.
Qed.

(** X5.  Successive allocations on a new allocator hand out the indices
    0, 1, 2, ... in this order.  After [m] calls of [Get] on a newly
    constructed allocator, with no free in between, the next [Get] returns
    the handle with index [m]; [size] is then [m + 1], exactly the slots
    [0 .. m] are live, the capacity is still [Size] as long as [m + 1] does
    not exceed it, and once the pool has grown the capacity is less than
    twice the number of elements.  Beyond [Size] elements this needs growth
    to be enabled and the doubled block to be representable. *)
Theorem sequential_Gets_return_successive_indices sizeofT Type_init
    Reallocates self Size (m : nat) :
  0 <= sizeofT -> 0 < Size < 2 ^ 64 -> Size mod 8 = 0 ->
  Size / 8 + sizeofT * Size < 2 ^ 64 ->
  Z.of_nat (S m) <= Size \/
    (Reallocates = true /\ (1 + sizeofT) * (2 * Z.of_nat (S m)) < 2 ^ 64) ->
  Get sizeofT Type_init Reallocates self
    (Gets sizeofT Type_init Reallocates self m
       (FixedTypeAllocator_new sizeofT Size))
  = Return
      (Gets sizeofT Type_init Reallocates self (S m)
         (FixedTypeAllocator_new sizeofT Size))
      (OffsetPtr_of self (Z.of_nat m)) /\
  size (Gets sizeofT Type_init Reallocates self (S m)
          (FixedTypeAllocator_new sizeofT Size)) = Z.of_nat (S m) /\
  (forall k,
     0 <= k < capacity (Gets sizeofT Type_init Reallocates self (S m)
                          (FixedTypeAllocator_new sizeofT Size)) ->
     slot_bit (Gets sizeofT Type_init Reallocates self (S m)
                 (FixedTypeAllocator_new sizeofT Size)) k
     = (k <? Z.of_nat (S m))) /\
  (Z.of_nat (S m) <= Size ->
     capacity (Gets sizeofT Type_init Reallocates self (S m)
                 (FixedTypeAllocator_new sizeofT Size)) = Size) /\
  (Size < Z.of_nat (S m) ->
     capacity (Gets sizeofT Type_init Reallocates self (S m)
                 (FixedTypeAllocator_new sizeofT Size))
     < 2 * Z.of_nat (S m)).
Proof.
  intros Hs HS H8 Hfit Hbound. unfold FixedTypeAllocator_new.
  destruct (Gets_prefix_live sizeofT Type_init Reallocates self sizeofT Size
              (S m))
    as [(_ & _ & Hsize & _ & _ & Hsmall & Hbig & Hbits) _]; try assumption.
  split; [apply Gets_next; assumption|]. auto.
Qed.

Lemma sequential_Gets_return_successive_indices_witness :
  Get 8 (replicate 8 0) true 7
    (Gets 8 (replicate 8 0) true 7 20 (FixedTypeAllocator_new 8 16))
  = Return (Gets 8 (replicate 8 0) true 7 21 (FixedTypeAllocator_new 8 16))
      (OffsetPtr_of 7 20).
Proof.
  apply (sequential_Gets_return_successive_indices 8 (replicate 8 0) true 7
           16 20).
  - lia.
  - lia.
  - reflexivity.
  - reflexivity.
  - right. split; [reflexivity|]. vm_compute. reflexivity.
Defined.

(** ** Every state an allocator reaches *)

(** What a returning [Get] does to the layout: the item size is kept and
    the capacity is kept or, with growth enabled, doubled. *)
Lemma Get_layout sizeofT Type_init Reallocates self p p' h :
  0 <= sizeofT -> pool_wf p -> (Reallocates = true -> growth_fits p) ->
  Get sizeofT Type_init Reallocates self p = Return p' h ->
  poolItemSize p' = poolItemSize p /\
  (capacity p' = capacity p \/
   (Reallocates = true /\ capacity p' = capacity p * 2)).
Proof.
  intros Hs Hwf Hfits H. unfold Get in H.
  destruct (u64 (size p + 1) >? capacity p) eqn:Efull;
    destruct Reallocates; cbn [andb negb] in H.
  - specialize (Hfits eq_refl).
    pose proof (Reallocate_wf p Hwf Hfits) as Hwfq.
    destruct (Get_scan _ 0) as [[i j]|] eqn:E; [|discriminate].
    inversion H; subst p' h. cbn [poolItemSize capacity construct claim].
    split; [reflexivity|]. right. split; [reflexivity|].
    apply Reallocate_capacity; assumption.
  - inversion H; subst p' h. auto.
  - destruct (Get_scan _ 0) as [[i j]|] eqn:E; [|discriminate].
    inversion H; subst p' h. auto.
  - destruct (Get_scan _ 0) as [[i j]|] eqn:E; [|discriminate].
    inversion H; subst p' h. auto.
Qed.

(** X6.  In every state that an allocator reaches from its construction
    by calls of [Get], by calls of [Pop] on handles whose index is below
    the capacity, and by writes of the host into the object region: the
    pool is well formed, [size] equals the number of set bits of the
    bitmap and lies between 0 and the capacity, the item size is
    [sizeof(Type)], and the capacity is the initial [Size] times a power
    of two, which is [Size] itself when growth is disabled. *)
Theorem reachable_states_keep_the_invariants sizeofT Type_init Size
    Reallocates self p :
  0 < sizeofT -> 0 <= Size < 2 ^ 64 -> Size mod 8 = 0 ->
  Size / 8 + sizeofT * Size < 2 ^ 64 ->
  reachable sizeofT Type_init Size Reallocates self p ->
  pool_wf p /\ size p = popcount p /\ 0 <= size p <= capacity p /\
  poolItemSize p = sizeofT /\
  (exists e, 0 <= e /\ capacity p = Size * 2 ^ e) /\
  (Reallocates = false -> capacity p = Size).
Proof.
  intros Hs HS H8 Hfit Hr.
  destruct (reachable_invariant _ _ _ _ _ _ Hs HS H8 Hfit Hr) as [Hwf Hinv].
  split; [exact Hwf|]. split; [exact Hinv|].
  split.
  { unfold size_inv in Hinv. pose proof (popcount_bounds p).
    pose proof (wf_capacity p Hwf). lia. }
  clear Hwf Hinv.
  induction Hr as [|p p' h Hr IH Hfits HG
                   |p h p' h' Hr IH Hc Hoff HP
                   |p a v Hr IH].
  - split; [reflexivity|]. split; [|reflexivity].
    exists 0. split; [lia|]. cbn [capacity FixedTypeAllocator_new Pool_new].
    lia.
  - destruct (reachable_invariant _ _ _ _ _ _ Hs HS H8 Hfit Hr) as [Hwf _].
    destruct IH as (Hit & (e & He & Hcap) & Hfix).
    destruct (Get_layout _ _ _ _ _ _ _ (Z.lt_le_incl _ _ Hs) Hwf Hfits HG)
      as [Hit' [Hsame|[HR Hdbl]]].
    + rewrite Hit', Hsame. eauto.
    + rewrite Hit', Hdbl. split; [exact Hit|]. split.
      * exists (e + 1). split; [lia|].
        rewrite Hcap, Z.pow_add_r by lia. lia.
      * intros HR'. congruence.
  - destruct (reachable_invariant _ _ _ _ _ _ Hs HS H8 Hfit Hr) as [Hwf _].
    rewrite Pop_in_range in HP by assumption.
    destruct (slot_bit p (offset h)); inversion HP; subst p' h'; exact IH.
  - exact IH.
Qed.

Lemma reachable_states_keep_the_invariants_witness :
  size (Gets 1 [0] true 7 2 (FixedTypeAllocator_new 1 8))
  = popcount (Gets 1 [0] true 7 2 (FixedTypeAllocator_new 1 8)).
Proof.
  destruct (reachable_states_keep_the_invariants 1 [0] 8 true 7
              (Gets 1 [0] true 7 2 (FixedTypeAllocator_new 1 8)))
    as (_ & H & _).
  - lia.
  - lia.
  - reflexivity.
  - reflexivity.
  - eapply reach_Get; [eapply reach_Get; [apply reach_new| |]| |].
    + intros _. split; vm_compute; reflexivity.
    + vm_compute. reflexivity.
    + intros _. split; vm_compute; reflexivity.
    + vm_compute. reflexivity.
  - exact H.
Defined.

(** X7.  No call of [Get] disturbs an element that is live, whether the
    call claims a free slot in place or grows and relocates the pool: a
    handle of the pool whose slot is live designates a live slot
    afterwards and reads the same bytes through the new base. *)
Theorem Get_never_disturbs_live_elements sizeofT Type_init Reallocates
    self p p' h' h :
  pool_wf p -> size_inv p ->
  0 <= sizeofT -> poolItemSize p = sizeofT ->
  Z.of_nat (length Type_init) = sizeofT ->
  (Reallocates = true -> growth_fits p) ->
  Get sizeofT Type_init Reallocates self p = Return p' h' ->
  pContainer h = Some self -> 0 <= offset h < capacity p ->
  slot_bit p (offset h) = true ->
  slot_bit p' (offset h) = true /\
  read_handle sizeofT (own self p') h = read_handle sizeofT (own self p) h.
Proof.
  intros Hwf Hinv Hs Hitem Hlen Hfits HG Hc Hr Hlive.
  destruct (Get_keeps_live_objects sizeofT Type_init Reallocates self p p' h'
              Hwf Hinv Hs Hitem Hlen Hfits HG (offset h) Hr Hlive)
    as [Hb Ho].
  split; [exact Hb|]. rewrite !read_handle_own by exact Hc.
  f_equal. exact Ho.
Qed.

Lemma Get_never_disturbs_live_elements_witness :
  read_handle 1 (own 7 (Gets 1 [5] true 7 9 (Pool_new 1 8)))
    (OffsetPtr_of 7 3)
  = read_handle 1 (own 7 (Gets 1 [5] true 7 8 (Pool_new 1 8)))
      (OffsetPtr_of 7 3).
Proof.
  apply (Get_never_disturbs_live_elements 1 [5] true 7
           (Gets 1 [5] true 7 8 (Pool_new 1 8))
           (Gets 1 [5] true 7 9 (Pool_new 1 8))
           (OffsetPtr_of 7 8) (OffsetPtr_of 7 3)).
  - split; vm_compute; try reflexivity; try discriminate.
    split; [discriminate|reflexivity].
  - vm_compute. reflexivity.
  - lia.
  - reflexivity.
  - reflexivity.
  - intros _. split; vm_compute; reflexivity.
  - vm_compute. reflexivity.
  - reflexivity.
  - vm_compute. split; [discriminate|reflexivity].
  - vm_compute. reflexivity.
Defined.

(** ** What the iterations visit *)

Lemma foldl_record_visit (g : Z -> Z) (l : list Z) :
  forall acc, foldl (fun s i => record_visit (g i) s) acc l = acc ++ (g <$> l).
Proof.
  induction l as [|x l IH]; intros acc; cbn [foldl fmap list_fmap].
  - rewrite app_nil_r. reflexivity.
  - rewrite IH. unfold record_visit. rewrite <- app_assoc. reflexivity.
Qed.

Lemma length_filter_seqZ (f : Z -> bool) (n : nat) :
  Z.of_nat (length (filter (fun i => f i = true) (seqZ 0 (Z.of_nat n))))
  = count_upto f n.
Proof.
  induction n as [|n IH]; [reflexivity|].
  rewrite seqZ_S, filter_app, length_app, Nat2Z.inj_add, IH.
  cbn [count_upto]. f_equal. rewrite Z.add_0_l.
  rewrite filter_cons, filter_nil.
  destruct (f (Z.of_nat n)) eqn:E.
  - rewrite decide_True by reflexivity. reflexivity.
  - rewrite decide_False by discriminate. reflexivity.
Qed.

(** X8.  While the capacity is at most [8 * Size], Active-mode iteration
    calls the visitor on the address of every live slot and of no other,
    once each and in ascending slot order; the number of calls is
    [size]. *)
Theorem ForAllActive_visits_live_slots_in_order sizeofT Size p :
  pool_wf p -> size_inv p -> 0 < Size -> capacity p <= 8 * Size ->
  ForAllActive sizeofT Size p record_visit []
  = Some ((fun i => pMem p + i * sizeofT) <$>
            filter (fun i => slot_bit p i = true) (seqZ 0 (capacity p))) /\
  Z.of_nat
    (length ((fun i => pMem p + i * sizeofT) <$>
               filter (fun i => slot_bit p i = true) (seqZ 0 (capacity p))))
  = size p.
Proof.
  intros Hwf Hinv HS Hcap. split.
  - rewrite (ForAllActive_exact sizeofT Size p Hwf) by assumption.
    f_equal. apply (foldl_record_visit (fun i => pMem p + i * sizeofT)).
  - rewrite length_fmap. pose proof (wf_capacity p Hwf) as Hc.
    rewrite <- (Z2Nat.id (capacity p)) at 1 by lia.
    rewrite length_filter_seqZ. symmetry. exact Hinv.
Qed.

Lemma ForAllActive_visits_live_slots_in_order_witness :
  ForAllActive 1 8 (Gets 1 [0] true 7 3 (Pool_new 1 8)) record_visit []
  = Some [1; 2; 3].
Proof.
  destruct (ForAllActive_visits_live_slots_in_order 1 8
              (Gets 1 [0] true 7 3 (Pool_new 1 8))) as [H _].
  - split; vm_compute; try reflexivity; try discriminate.
    split; [discriminate|reflexivity].
  - vm_compute. reflexivity.
  - lia.
  - vm_compute. discriminate.
  - rewrite H. vm_compute. reflexivity.
Defined.

(** X9.  On a pool without free slots ([size == capacity]) the two modes
    of [ForAll] make the same visitor calls in the same order, for every
    visitor and whatever the capacity has grown to: one call per slot, at
    the consecutive element addresses [pMem + i * sizeof(Type)]. *)
Theorem ForAll_modes_agree_on_full_pool sizeofT Size p :
  pool_wf p -> size_inv p -> size p = capacity p -> 0 < Size ->
  (forall (St : Type) (f : Z -> St -> St) (s : St),
     ForAll sizeofT Size true p f s = ForAll sizeofT Size false p f s) /\
  ForAll sizeofT Size true p record_visit []
  = Some ((fun i => pMem p + i * sizeofT) <$> seqZ 0 (capacity p)) /\
  Z.of_nat (length (seqZ 0 (capacity p))) = capacity p.
Proof.
  intros Hwf Hinv Hfull HS.
  assert (forall (St : Type) (f : Z -> St -> St) (s : St),
            ForAll sizeofT Size true p f s = ForAll sizeofT Size false p f s)
    as Hagree.
  { intros St f s. apply ForAll_modes_agree_when_full; assumption. }
  split; [exact Hagree|]. split.
  - rewrite Hagree. unfold ForAll, ForAllFast. f_equal.
    apply (foldl_record_visit (fun i => pMem p + i * sizeofT)).
  - rewrite length_seqZ. pose proof (wf_capacity p Hwf). lia.
Qed.

Lemma ForAll_modes_agree_on_full_pool_witness :
  ForAll 1 8 true (Gets 1 [0] true 7 8 (Pool_new 1 8)) record_visit []
  = Some [1; 2; 3; 4; 5; 6; 7; 8].
Proof.
  destruct (ForAll_modes_agree_on_full_pool 1 8
              (Gets 1 [0] true 7 8 (Pool_new 1 8))) as (_ & H & _).
  - split; vm_compute; try reflexivity; try discriminate.
    split; [discriminate|reflexivity].
  - vm_compute. reflexivity.
  - vm_compute. reflexivity.
  - lia.
  - rewrite H. vm_compute. reflexivity.
Defined.

(** ** The general-purpose allocator: construction and allocation runs *)

Lemma AddPools_lookup PoolSize (classes : list Z) :
  forall (pools : gmap Z Pool) (c : Z),
    foldl (AddPools PoolSize) pools classes !! c =
    if decide (c ∈ classes) then Some (Pool_new c PoolSize) else pools !! c.
Proof.
  induction classes as [|x classes IH]; intros pools c; cbn [foldl].
  - rewrite decide_False by apply not_elem_of_nil. reflexivity.
  - rewrite IH. unfold AddPools, FixedTypeAllocator_new.
    destruct (decide (c ∈ classes)) as [Hin|Hnin].
    + rewrite decide_True by (apply elem_of_cons; auto). reflexivity.
    + destruct (decide (c = x)) as [->|Hne].
      * rewrite decide_True by apply list_elem_of_here.
        apply lookup_insert_eq.
      * rewrite decide_False
          by (intros [?|?]%elem_of_cons; contradiction).
        apply lookup_insert_ne. auto.
Qed.

Lemma ResolvePool_elem_of classes typeSize c :
  ResolvePool classes typeSize = Some c -> c ∈ classes /\ typeSize <= c.
Proof.
  intros H. destruct (ResolvePool_first_match _ _ _ H)
    as (before & after & -> & Hle & _).
  split; [|exact Hle]. apply elem_of_app. right. apply list_elem_of_here.
Qed.

Lemma GeneralPurposeAllocator_new_pools_aux PoolSize classes c :
  c ∈ classes ->
  m_Pools (GeneralPurposeAllocator_new PoolSize classes) !! c
  = Some (Pool_new c PoolSize) /\
  forall c', c' ∉ classes ->
    m_Pools (GeneralPurposeAllocator_new PoolSize classes) !! c' = None.
Proof.
  intros Hin. unfold GeneralPurposeAllocator_new. cbn [m_Pools]. split.
  - rewrite AddPools_lookup, decide_True by exact Hin. reflexivity.
  - intros c' Hnin. rewrite AddPools_lookup, decide_False by exact Hnin.
    apply lookup_empty.
Qed.

(** X10.  The constructor gives every class size of the list, and no
    other key, a pool of its own: a new pool of capacity [PoolSize] whose
    items are as large as the class, with [size] 0 and every slot free.
    Hence the class that [ResolvePool] selects for a type always has its
    pool. *)
Theorem GeneralPurposeAllocator_new_pools PoolSize classes c :
  (c ∈ classes ->
     m_Pools (GeneralPurposeAllocator_new PoolSize classes) !! c
     = Some (Pool_new c PoolSize) /\
     poolItemSize (Pool_new c PoolSize) = c /\
     capacity (Pool_new c PoolSize) = PoolSize /\
     size (Pool_new c PoolSize) = 0 /\
     forall k, slot_bit (Pool_new c PoolSize) k = false) /\
  (c ∉ classes ->
     m_Pools (GeneralPurposeAllocator_new PoolSize classes) !! c = None) /\
  (forall typeSize,
     ResolvePool
       (m_SubPoolSizes (GeneralPurposeAllocator_new PoolSize classes))
       typeSize = Some c ->
     m_Pools (GeneralPurposeAllocator_new PoolSize classes) !! c
     = Some (Pool_new c PoolSize)).
Proof.
  unfold GeneralPurposeAllocator_new. cbn [m_Pools m_SubPoolSizes].
  split; [|split].
  - intros Hin. rewrite AddPools_lookup, decide_True by exact Hin.
    repeat split. intros k. apply Pool_new_bit.
  - intros Hnin. rewrite AddPools_lookup, decide_False by exact Hnin.
    apply lookup_empty.
  - intros typeSize H. apply ResolvePool_elem_of in H as [Hin _].
    rewrite AddPools_lookup, decide_True by exact Hin. reflexivity.
Qed.

(** [News] on one type is [Gets] on the pool of its class. *)
Lemma News_one_type Reallocates sizeofT g c p0 (m : nat) :
  ResolvePool (m_SubPoolSizes g) sizeofT = Some c ->
  m_Pools g !! c = Some p0 ->
  News Reallocates (replicate m sizeofT) g
  = set_pool g c
      (Gets sizeofT (replicate (Z.to_nat sizeofT) 0) Reallocates c m p0).
Proof.
  intros Hc Hp. induction m as [|m IH].
  - cbn [replicate News foldl Gets]. symmetry. apply set_pool_same. exact Hp.
  - rewrite replicate_S_end. unfold News in *. rewrite foldl_app, IH.
    cbn [foldl Gets]. unfold New. cbn [m_SubPoolSizes set_pool m_Pools].
    rewrite Hc, lookup_insert_eq.
    destruct (Get _ _ _ _ _) as [p' h|p' e|]; cbn [outcome_state];
      unfold set_pool; cbn [m_Pools m_SubPoolSizes];
      rewrite ?insert_insert_eq; reflexivity.
Qed.

(** X11.  The allocation loop of [TestGeneralPurposeAllocator], for any
    type and any number of rounds: on a newly constructed allocator the
    successive calls of [New] for one type return handles bound to the
    class of the type with the indices 0, 1, 2, ... in this order, and the
    handle with index [m] resolves to [m * sizeof(Type)] bytes past the
    base of the object region of the class's pool.  Beyond [PoolSize]
    elements this needs growth to be enabled and the doubled block to be
    representable. *)
Theorem sequential_News_return_successive_indices PoolSize Reallocates
    classes sizeofT c (m : nat) :
  0 < sizeofT -> ResolvePool classes sizeofT = Some c ->
  0 < PoolSize < 2 ^ 64 -> PoolSize mod 8 = 0 ->
  PoolSize / 8 + c * PoolSize < 2 ^ 64 ->
  Z.of_nat (S m) <= PoolSize \/
    (Reallocates = true /\ (1 + c) * (2 * Z.of_nat (S m)) < 2 ^ 64) ->
  New Reallocates sizeofT
    (News Reallocates (replicate m sizeofT)
       (GeneralPurposeAllocator_new PoolSize classes))
  = Return
      (News Reallocates (replicate (S m) sizeofT)
         (GeneralPurposeAllocator_new PoolSize classes))
      (OffsetPtr_of c (Z.of_nat m)) /\
  exists p,
    m_Pools (News Reallocates (replicate (S m) sizeofT)
               (GeneralPurposeAllocator_new PoolSize classes)) !! c
    = Some p /\
    size p = Z.of_nat (S m) /\
    Resolve_in sizeofT
      (News Reallocates (replicate (S m) sizeofT)
         (GeneralPurposeAllocator_new PoolSize classes))
      (OffsetPtr_of c (Z.of_nat m))
    = Some (Internal p + Z.of_nat m * sizeofT).
Proof.
  intros Hs Hc HP H8 Hfit Hbound.
  set (g0 := GeneralPurposeAllocator_new PoolSize classes).
  pose proof (ResolvePool_elem_of _ _ _ Hc) as [Hin Hle].
  assert (m_Pools g0 !! c = Some (Pool_new c PoolSize)) as Hp0.
  { destruct (GeneralPurposeAllocator_new_pools_aux PoolSize classes c Hin)
      as [H _]. exact H. }
  assert (ResolvePool (m_SubPoolSizes g0) sizeofT = Some c) as Hc0
    by exact Hc.
  rewrite !(News_one_type Reallocates sizeofT g0 c _ _ Hc0 Hp0).
  pose proof (Gets_next sizeofT (replicate (Z.to_nat sizeofT) 0) Reallocates
                c c PoolSize m ltac:(lia) ltac:(lia) HP H8 Hfit Hbound)
    as HG.
  destruct (Gets_prefix_live sizeofT (replicate (Z.to_nat sizeofT) 0)
              Reallocates c c PoolSize (S m))
    as [(_ & _ & Hsize & _) _]; try assumption; try lia.
  split.
  - unfold New. cbn [m_SubPoolSizes set_pool m_Pools].
    rewrite Hc0, lookup_insert_eq, HG.
    unfold set_pool; cbn [m_Pools m_SubPoolSizes].
    rewrite insert_insert_eq. reflexivity.
  - eexists. split; [apply lookup_insert_eq|]. split; [exact Hsize|].
    unfold Resolve_in, Resolve. cbn [pContainer OffsetPtr_of offset].
    cbv beta. cbn [set_pool m_Pools]. rewrite lookup_insert_eq. reflexivity.
Qed.

Lemma sequential_News_return_successive_indices_witness :
  New true 12
    (News true (replicate 9 12) (GeneralPurposeAllocator_new 8 [8; 16; 32]))
  = Return
      (News true (replicate 10 12) (GeneralPurposeAllocator_new 8 [8; 16; 32]))
      (OffsetPtr_of 16 9).
Proof.
  destruct (sequential_News_return_successive_indices 8 true [8; 16; 32]
              12 16 9) as [H _].
  - lia.
  - reflexivity.
  - lia.
  - reflexivity.
  - reflexivity.
  - right. split; [reflexivity|]. vm_compute. reflexivity.
  - exact H.
Defined.

(** ** The general-purpose allocator: exhaustion, free and round trip *)

(** X12.  [New] never returns the unbound handle.  When growth is
    disabled and the pool of the class is full, the unbound handle that
    [Get] returns is rebuilt from its offset: [New] returns normally,
    changes nothing, and hands out a handle bound to the class with index
    0, the index of the first element allocated in the pool. *)
Theorem New_on_full_pool_without_growth_returns_index_0 sizeofT g c ftPool :
  ResolvePool (m_SubPoolSizes g) sizeofT = Some c ->
  m_Pools g !! c = Some ftPool ->
  0 <= capacity ftPool < 2 ^ 64 -> capacity ftPool mod 8 = 0 ->
  size ftPool = capacity ftPool ->
  New false sizeofT g = Return g (OffsetPtr_of c 0) /\
  pContainer (OffsetPtr_of c 0) = Some c.
Proof.
  intros Hc Hp Hcap H8 Hfull. split; [|reflexivity].
  unfold New. rewrite Hc, Hp. unfold Get.
  assert (capacity ftPool + 1 < 2 ^ 64) by (Z.div_mod_to_equations; lia).
  rewrite Hfull, u64_small by lia.
  rewrite (proj2 (Z.gtb_lt (capacity ftPool + 1) (capacity ftPool)))
    by lia.
  cbn [andb negb]. rewrite set_pool_same by exact Hp. reflexivity.
Qed.

Lemma New_on_full_pool_without_growth_returns_index_0_witness :
  New false 12
    (News false (replicate 8 12) (GeneralPurposeAllocator_new 8 [8; 16; 32]))
  = Return
      (News false (replicate 8 12) (GeneralPurposeAllocator_new 8 [8; 16; 32]))
      (OffsetPtr_of 16 0).
Proof.
  destruct (New_on_full_pool_without_growth_returns_index_0 12
              (News false (replicate 8 12)
                 (GeneralPurposeAllocator_new 8 [8; 16; 32]))
              16
              (Gets 12 (replicate 12 0) false 16 8 (Pool_new 16 8)))
    as [H _].
  - reflexivity.
  - vm_compute. reflexivity.
  - vm_compute. split; [discriminate|reflexivity].
  - vm_compute. reflexivity.
  - vm_compute. reflexivity.
  - exact H.
Defined.



(** X14.  [New] followed by [Delete] through the returned handle is a
    round trip on the bookkeeping of the class's pool.  When that pool has
    a free slot, [New] returns a handle bound to the class, [Delete]
    returns and zeroes it, and afterwards the pool of the class has the
    [size], the capacity and the bitmap it had before, while the pools of
    all other classes were never touched. *)
Theorem New_then_Delete_restores_bookkeeping Reallocates sizeofT g c ftPool :
  0 < sizeofT ->
  ResolvePool (m_SubPoolSizes g) sizeofT = Some c ->
  m_Pools g !! c = Some ftPool ->
  pool_wf ftPool -> size_inv ftPool ->
  (exists k, 0 <= k < capacity ftPool /\ slot_bit ftPool k = false) ->
  exists g1 h g2 p2,
    New Reallocates sizeofT g = Return g1 h /\
    pContainer h = Some c /\
    Delete sizeofT g1 h = Return (g2, OffsetPtr_null) tt /\
    m_Pools g2 !! c = Some p2 /\
    size p2 = size ftPool /\ capacity p2 = capacity ftPool /\
    (forall k, 0 <= k < capacity ftPool ->
       slot_bit p2 k = slot_bit ftPool k) /\
    (forall c', c' <> c -> m_Pools g2 !! c' = m_Pools g !! c').
Proof.
  intros Hs Hc Hp Hwf Hinv Hfree.
  destruct (Get_Pop_spec sizeofT (replicate (Z.to_nat sizeofT) 0)
              Reallocates c ftPool Hs Hwf Hinv Hfree)
    as (k & p1 & p2 & HG & HP & Hk & Hsz & Hcap & Hbits & _).
  exists (set_pool g c p1), (OffsetPtr_of c k),
         (set_pool (set_pool g c p1) c p2), p2.
  split.
  { unfold New. rewrite Hc, Hp, HG. reflexivity. }
  split; [reflexivity|].
  split.
  { unfold Delete. cbn [m_SubPoolSizes set_pool m_Pools].
    rewrite Hc, lookup_insert_eq.
    change (OffsetPtr_Internal (OffsetPtr_of c k)) with k.
    rewrite HP. reflexivity. }
  split; [apply lookup_insert_eq|].
  split; [exact Hsz|]. split; [exact Hcap|]. split; [exact Hbits|].
  intros c' Hne. rewrite !set_pool_other by exact Hne. reflexivity.
Qed.

Lemma New_then_Delete_restores_bookkeeping_witness :
  exists g1 h g2 p2,
    New true 12 (GeneralPurposeAllocator_new 8 [8; 16; 32]) = Return g1 h /\
    Delete 12 g1 h = Return (g2, OffsetPtr_null) tt /\
    m_Pools g2 !! 16 = Some p2 /\ size p2 = 0.
Proof.
  destruct (New_then_Delete_restores_bookkeeping true 12
              (GeneralPurposeAllocator_new 8 [8; 16; 32]) 16 (Pool_new 16 8))
    as (g1 & h & g2 & p2 & H1 & _ & H2 & H3 & H4 & _).
  - lia.
  - reflexivity.
  - reflexivity.
  - apply Pool_new_wf; [lia|lia|reflexivity|reflexivity].
  - apply Pool_new_size_inv.
  - exists 0. split; [simpl; lia|apply Pool_new_bit].
  - exists g1, h, g2, p2. auto.
Defined.

(** ** Memory safety of allocation *)

(** The handle a returning [Get] hands out: unbound with the pool
    untouched, or bound to the pool with the index of a live slot below
    the capacity. *)
Lemma Get_handle_range sizeofT Type_init Reallocates self p p' h :
  0 <= sizeofT -> pool_wf p -> (Reallocates = true -> growth_fits p) ->
  Get sizeofT Type_init Reallocates self p = Return p' h ->
  (h = OffsetPtr_null /\ p' = p) \/
  (pContainer h = Some self /\ 0 <= offset h < capacity p' /\
   slot_bit p' (offset h) = true /\ pool_wf p' /\
   poolItemSize p' = poolItemSize p).
Proof.
  intros Hs Hwf Hfits H. unfold Get in H.
  assert (forall q i j,
            pool_wf q -> poolItemSize q = poolItemSize p ->
            Get_scan (take (Z.to_nat (capacity q / 8)) (block q)) 0
              = Some (i, j) ->
            Return (construct sizeofT Type_init (claim q i j)
                      (u64 (i * 8 + j)))
              (OffsetPtr_of self (u64 (i * 8 + j))) = Return p' h ->
            pContainer h = Some self /\ 0 <= offset h < capacity p' /\
            slot_bit p' (offset h) = true /\ pool_wf p' /\
            poolItemSize p' = poolItemSize p) as Hfound.
  { intros q i j Hwfq Hitq E HR.
    destruct (scan_claimed sizeofT Type_init Hs q i j Hwfq E) as [Hidx Hcl].
    rewrite Hidx in HR. inversion HR; subst p' h.
    pose proof (claimed_wf _ _ _ Hwfq Hcl) as Hwf'.
    destruct Hcl as (Hk & _ & _ & Hset & _ & _ & Hcap & _ & Hit & _).
    cbn [pContainer offset OffsetPtr_of].
    split; [reflexivity|]. split; [rewrite Hcap; exact Hk|].
    split; [exact Hset|]. split; [exact Hwf'|].
    rewrite Hit. exact Hitq. }
  destruct (u64 (size p + 1) >? capacity p) eqn:Efull;
    destruct Reallocates; cbn [andb negb] in H.
  - specialize (Hfits eq_refl).
    pose proof (Reallocate_wf p Hwf Hfits) as Hwfq.
    destruct (Get_scan _ 0) as [[i j]|] eqn:E; [|discriminate].
    right. apply (Hfound (Reallocate p) i j); auto.
  - inversion H; subst p' h. left. auto.
  - destruct (Get_scan _ 0) as [[i j]|] eqn:E; [|discriminate].
    right. apply (Hfound p i j); auto.
  - destruct (Get_scan _ 0) as [[i j]|] eqn:E; [|discriminate].
    right. apply (Hfound p i j); auto.
Qed.

(** X15.  An object handed out by [New] lies inside the object region of
    the class's pool, also when [sizeof(Type)] is smaller than the class
    size: the handle's index is below the capacity, it resolves to an
    address at or after the base of the object region, and the
    [sizeof(Type)] bytes from that address end within the allocation. *)
Theorem New_object_lies_inside_the_pool Reallocates sizeofT g c ftPool g' h :
  0 < sizeofT ->
  ResolvePool (m_SubPoolSizes g) sizeofT = Some c ->
  m_Pools g !! c = Some ftPool ->
  pool_wf ftPool -> sizeofT <= poolItemSize ftPool ->
  0 < capacity ftPool ->
  (Reallocates = true -> growth_fits ftPool) ->
  New Reallocates sizeofT g = Return g' h ->
  exists p' a,
    m_Pools g' !! c = Some p' /\
    pContainer h = Some c /\ 0 <= offset h < capacity p' /\
    Resolve_in sizeofT g' h = Some a /\
    Internal p' <= a /\ a + sizeofT <= Z.of_nat (length (block p')).
Proof.
  intros Hs Hc Hp Hwf Hle Hpos Hfits HN.
  unfold New in HN. rewrite Hc, Hp in HN.
  destruct (Get _ _ _ _ _) as [p' h0|p' e|] eqn:HG; try discriminate.
  inversion HN; subst g' h. clear HN.
  assert (m_Pools (set_pool g c p') !! c = Some p') as Hl
    by apply lookup_insert_eq.
  assert (0 <= offset h0 < capacity p' /\ pool_wf p' /\
          poolItemSize p' = poolItemSize ftPool) as (Hr & Hwf' & Hit).
  { destruct (Get_handle_range _ _ _ _ _ _ _ (Z.lt_le_incl _ _ Hs)
                Hwf Hfits HG) as [[-> ->]|(_ & H1 & _ & H2 & H3)].
    - cbn [offset OffsetPtr_null]. auto with lia.
    - auto. }
  exists p', (Internal p' + offset h0 * sizeofT).
  split; [exact Hl|]. split; [reflexivity|].
  split; [exact Hr|].
  split.
  { unfold Resolve_in, Resolve. cbn [pContainer OffsetPtr_of offset].
    cbv beta. rewrite Hl. reflexivity. }
  destruct Hwf' as [Hcap H8 Hm Hi Hb]. unfold Internal.
  assert (0 <= offset h0 * sizeofT) by (apply Z.mul_nonneg_nonneg; lia).
  split; [lia|].
  assert ((offset h0 + 1) * sizeofT <= capacity p' * poolItemSize p')
    by (apply Z.mul_le_mono_nonneg; lia).
  assert (0 <= capacity p' / 8) by (Z.div_mod_to_equations; lia).
  rewrite Hb, Hm. lia.
Qed.

Lemma New_object_lies_inside_the_pool_witness :
  exists p' a,
    m_Pools (News true [12] (GeneralPurposeAllocator_new 8 [8; 16; 32])) !! 16
      = Some p' /\
    Resolve_in 12 (News true [12] (GeneralPurposeAllocator_new 8 [8; 16; 32]))
      (OffsetPtr_of 16 0) = Some a /\
    a + 12 <= Z.of_nat (length (block p')).
Proof.
  destruct (New_object_lies_inside_the_pool true 12
              (GeneralPurposeAllocator_new 8 [8; 16; 32]) 16 (Pool_new 16 8)
              (News true [12] (GeneralPurposeAllocator_new 8 [8; 16; 32]))
              (OffsetPtr_of 16 0))
    as (p' & a & H1 & _ & _ & H2 & _ & H3).
  - lia.
  - reflexivity.
  - reflexivity.
  - apply Pool_new_wf; [lia|lia|reflexivity|reflexivity].
  - simpl. lia.
  - simpl. lia.
  - intros _. split; vm_compute; reflexivity.
  - vm_compute. reflexivity.
  - exists p', a. auto.
Defined.

(** ** When allocation fails *)

Lemma count_upto_lt_exists f n :
  count_upto f n < Z.of_nat n ->
  exists i, 0 <= i < Z.of_nat n /\ f i = false.
Proof.
  induction n as [|n IH]; intros H; [simpl in H; lia|].
  cbn [count_upto] in H. destruct (f (Z.of_nat n)) eqn:E.
  - destruct IH as (i & Hi & Hf); [lia|]. exists i. split; [lia|exact Hf].
  - exists (Z.of_nat n). split; [lia|exact E].
Qed.

Lemma Get_full_no_growth_eq sizeofT Type_init self p :
  0 <= capacity p < 2 ^ 64 -> capacity p mod 8 = 0 ->
  size p = capacity p ->
  Get sizeofT Type_init false self p = Return p OffsetPtr_null.
Proof.
  intros Hc H8 Hfull. unfold Get.
  assert (capacity p + 1 < 2 ^ 64) by (Z.div_mod_to_equations; lia).
  rewrite Hfull, u64_small by lia.
  replace (capacity p + 1 >? capacity p) with true; [reflexivity|].
  symmetry. apply Z.gtb_lt. lia.
Qed.

(** X16.  [Get] throws [bad_alloc] only on a pool without any slot.  On a
    well-formed pool with at least one slot whose [size] is the number of
    set bits, [Get] always returns, and with growth enabled the handle is
    bound to the pool.  On a pool of capacity 0, as an allocator
    constructed with [Size = 0] has, [Get] with growth enabled doubles 0
    to 0, finds no slot and throws [bad_alloc], and [Get] with growth
    disabled returns the unbound handle; either way the pool is left as it
    was. *)
Theorem Get_throws_only_on_capacity_0 sizeofT Type_init Reallocates self p :
  0 <= sizeofT -> pool_wf p -> size_inv p ->
  (Reallocates = true -> growth_fits p) ->
  (0 < capacity p ->
     exists p' h,
       Get sizeofT Type_init Reallocates self p = Return p' h /\
       (Reallocates = true -> pContainer h = Some self)) /\
  (capacity p = 0 ->
     Get sizeofT Type_init true self p = Throw p bad_alloc /\
     Get sizeofT Type_init false self p = Return p OffsetPtr_null).
Proof.
  intros Hs Hwf Hinv Hfits.
  pose proof (wf_capacity p Hwf) as Hc. pose proof (wf_mult8 p Hwf) as H8.
  pose proof (popcount_bounds p) as Hb.
  assert (capacity p + 1 < 2 ^ 64) by (Z.div_mod_to_equations; lia).
  split.
  - intros Hpos. destruct (Z.eq_dec (size p) (capacity p)) as [Hfull|Hne].
    + destruct Reallocates.
      * destruct (Get_grow_spec sizeofT Type_init self p)
          as (p' & HG & _); auto.
        eexists _, _. split; [exact HG|]. reflexivity.
      * exists p, OffsetPtr_null. split; [|discriminate].
        apply Get_full_no_growth_eq; assumption.
    + destruct (Get_claims_lowest sizeofT Type_init Reallocates self p)
        as (i & j & HG & _); try assumption.
      { unfold size_inv, popcount in *.
        destruct (count_upto_lt_exists (slot_bit p) (Z.to_nat (capacity p)))
          as (k & Hk & Hf); [lia|].
        exists k. split; [lia|exact Hf]. }
      eexists _, _. split; [exact HG|]. reflexivity.
  - intros Hzero.
    assert (size p = 0) as Hsz by (unfold size_inv in Hinv; lia).
    assert (block p = []) as Hblk.
    { apply nil_length_inv. pose proof (wf_block p Hwf) as Hl.
      rewrite Hzero, Z.mul_0_r in Hl. change (0 / 8) with 0 in Hl. lia. }
    assert (Reallocate p = p) as HR.
    { pose proof (wf_pMem p Hwf) as Hm. rewrite Hzero in Hm.
      change (0 / 8) with 0 in Hm.
      unfold Reallocate, memcpy, Alloc. rewrite Hzero, Hblk, Hm.
      change (u64 (0 * 2)) with 0. rewrite !Z.mul_0_r.
      change (u64 0) with 0. change (0 / 8) with 0.
      change (u64 (0 + 0)) with 0. cbn [Z.to_nat replicate take drop list_inserts].
      destruct p as [blk pm cap sz it]. simpl in *. subst. reflexivity. }
    split.
    + unfold Get. rewrite Hsz, Hzero. simpl.
      fold (Reallocate p). rewrite HR, Hzero. reflexivity.
    + unfold Get. rewrite Hsz, Hzero. reflexivity.
Qed.

Lemma Get_throws_only_on_capacity_0_witness :
  Get 4 [0; 0; 0; 0] true 7 (Pool_new 4 0) = Throw (Pool_new 4 0) bad_alloc /\
  Get 4 [0; 0; 0; 0] false 7 (Pool_new 4 0)
  = Return (Pool_new 4 0) OffsetPtr_null.
Proof.
  destruct (Get_throws_only_on_capacity_0 4 [0; 0; 0; 0] true 7
              (Pool_new 4 0)) as [_ H].
  - lia.
  - apply Pool_new_wf; [lia|lia|reflexivity|reflexivity].
  - apply Pool_new_size_inv.
  - intros _. split; vm_compute; reflexivity.
  - apply H. reflexivity.
Defined.

(** ** The reallocation callback *)

(** One call of [Get_notify] against one call of [Get]: the pool and the
    result are those of [Get], and the callback has run once exactly when
    the pool was full and growth is enabled. *)
Lemma Get_notify_step {St : Type} sizeofT Type_init Reallocates self p
    (cb : St -> St) (s : St) :
  outcome_state
    (Get_notify sizeofT Type_init Reallocates self
       (mkFixedTypeAllocator p cb) s)
    (mkFixedTypeAllocator p cb, s)
  = (mkFixedTypeAllocator
       (outcome_state (Get sizeofT Type_init Reallocates self p) p) cb,
     if (u64 (size p + 1) >? capacity p) && Reallocates then cb s else s) /\
  outcome_value
    (Get_notify sizeofT Type_init Reallocates self
       (mkFixedTypeAllocator p cb) s)
  = outcome_value (Get sizeofT Type_init Reallocates self p) /\
  capacity (outcome_state (Get sizeofT Type_init Reallocates self p) p)
  = if (u64 (size p + 1) >? capacity p) && Reallocates
    then u64 (capacity p * 2) else capacity p.
Proof.
  unfold Get_notify, Get. cbn [m_Pool m_OnReallocateCallback].
  destruct (u64 (size p + 1) >? capacity p); destruct Reallocates;
    cbn [andb negb]; try (repeat split; reflexivity);
    destruct (Get_scan _ 0) as [[i j]|]; repeat split; reflexivity.
Qed.

Lemma u64_double z : u64 (u64 z * 2) = u64 (z * 2).
Proof. unfold u64. apply Z.mul_mod_idemp_l. discriminate. Qed.

Lemma Gets_notify_spec {St : Type} sizeofT Type_init Reallocates self Size
    (cb : St -> St) (s0 : St) (n : nat) :
  0 <= Size < 2 ^ 64 ->
  exists c : nat,
    Gets_notify sizeofT Type_init Reallocates self n
      (mkFixedTypeAllocator (Pool_new sizeofT Size) cb) s0
    = (mkFixedTypeAllocator
         (Gets sizeofT Type_init Reallocates self n (Pool_new sizeofT Size))
         cb,
       Nat.iter c cb s0) /\
    capacity (Gets sizeofT Type_init Reallocates self n
                (Pool_new sizeofT Size))
    = u64 (Size * 2 ^ Z.of_nat c) /\
    (Reallocates = false -> c = O).
Proof.
  intros HS. induction n as [|n (c & Hrun & Hcap & Hoff)].
  - exists O. split; [reflexivity|]. split; [|reflexivity].
    cbn [Gets capacity Pool_new]. rewrite Z.mul_1_r, u64_small; auto.
  - cbn [Gets_notify]. rewrite Hrun.
    destruct (Get_notify_step sizeofT Type_init Reallocates self
                (Gets sizeofT Type_init Reallocates self n
                   (Pool_new sizeofT Size)) cb (Nat.iter c cb s0))
      as (Hst & _ & Hc').
    rewrite Hst.
    assert (outcome_state
              (Get sizeofT Type_init Reallocates self
                 (Gets sizeofT Type_init Reallocates self n
                    (Pool_new sizeofT Size)))
              (Gets sizeofT Type_init Reallocates self n
                 (Pool_new sizeofT Size))
            = Gets sizeofT Type_init Reallocates self (S n)
                (Pool_new sizeofT Size)) as Hnext.
    { cbn [Gets]. destruct (Get _ _ _ _ _); reflexivity. }
    rewrite Hnext in *.
    destruct ((u64 (size _ + 1) >? capacity _) && Reallocates) eqn:Eg.
    + exists (S c). split; [reflexivity|]. split.
      * rewrite Hc', Hcap, u64_double. f_equal.
        rewrite Nat2Z.inj_succ, Z.pow_succ_r by lia. lia.
      * intros ->. rewrite andb_false_r in Eg. discriminate.
    + exists c. split; [reflexivity|]. split; [|exact Hoff].
      rewrite Hc'. exact Hcap.
Qed.

(** X17.  The callback registered with [SetOnReallocateCallback] runs
    once for every growth of the pool and at no other time.  After any
    number of calls of [Get] on a newly constructed allocator the state of
    the host is the callback applied [c] times, where the capacity is
    [Size * 2 ^ c] (in 64-bit arithmetic); the pool is the one the same
    calls produce without the callback; with growth disabled the callback
    never runs; and with the default callback the host is never
    changed. *)
Theorem callback_runs_once_per_growth {St : Type} sizeofT Type_init
    Reallocates self Size (cb : St -> St) (s0 : St) (n : nat) :
  0 <= Size < 2 ^ 64 ->
  (exists c : nat,
     Gets_notify sizeofT Type_init Reallocates self n
       (SetOnReallocateCallback cb (FixedTypeAllocator_ctor sizeofT Size)) s0
     = (mkFixedTypeAllocator
          (Gets sizeofT Type_init Reallocates self n
             (FixedTypeAllocator_new sizeofT Size)) cb,
        Nat.iter c cb s0) /\
     capacity (Gets sizeofT Type_init Reallocates self n
                 (FixedTypeAllocator_new sizeofT Size))
     = u64 (Size * 2 ^ Z.of_nat c) /\
     (Reallocates = false -> c = O)) /\
  snd (Gets_notify sizeofT Type_init Reallocates self n
         (FixedTypeAllocator_ctor sizeofT Size) s0) = s0.
Proof.
  intros HS. split.
  - apply (Gets_notify_spec sizeofT Type_init Reallocates self Size cb s0 n HS).
  - destruct (Gets_notify_spec sizeofT Type_init Reallocates self Size
                (fun s : St => s) s0 n HS) as (c & Hrun & _).
    unfold FixedTypeAllocator_ctor. rewrite Hrun. cbn [snd].
    clear. induction c as [|c IH]; [reflexivity|exact IH].
Qed.

Lemma callback_runs_once_per_growth_witness :
  exists c : nat,
    Gets_notify 1 [0] true 7 20
      (SetOnReallocateCallback Z.succ (FixedTypeAllocator_ctor 1 8)) 0
    = (mkFixedTypeAllocator
         (Gets 1 [0] true 7 20 (FixedTypeAllocator_new 1 8)) Z.succ,
       Nat.iter c Z.succ 0) /\
    capacity (Gets 1 [0] true 7 20 (FixedTypeAllocator_new 1 8))
    = u64 (8 * 2 ^ Z.of_nat c).
Proof.
  destruct (callback_runs_once_per_growth 1 [0] true 7 8 Z.succ 0 20)
    as [(c & Hrun & Hcap & _) _]; [lia|].
  exists c. split; [exact Hrun|exact Hcap].
Defined.

(** Twenty allocations into a pool of initial capacity 8: two growths, two
    calls of the callback. *)
Example callback_counts_two_growths :
  Gets_notify 1 [0] true 7 20
    (SetOnReallocateCallback Z.succ (FixedTypeAllocator_ctor 1 8)) 0
  = (mkFixedTypeAllocator (Gets 1 [0] true 7 20 (FixedTypeAllocator_new 1 8))
       Z.succ, 2).
Proof. vm_compute. reflexivity. Qed.

(** ** The blocks on the heap *)

(** One growth on the heap: the new block is written at [at_] with the
    contents [Reallocate] computes, and the old block is released. *)
Lemma Raw_Reallocate_spec heap at_ this blk :
  heap !! Raw.pLut this = Some blk -> heap !! at_ = None ->
  exists p',
    contents heap this = Some p' /\
    Raw.Reallocate heap at_ this
    = Some (delete (Raw.pLut this) (<[at_ := block (Reallocate p')]> heap),
            {| Raw.pLut := at_;
               Raw.pMem := at_ + capacity (Reallocate p') / 8;
               Raw.capacity := capacity (Reallocate p');
               Raw.size := size (Reallocate p');
               Raw.poolItemSize := poolItemSize (Reallocate p') |}).
Proof.
  intros Hold Hnew. unfold contents. rewrite Hold. eexists. split; [reflexivity|].
  assert (Raw.pLut this <> at_) as Hne by (intros E; congruence).
  unfold Raw.Reallocate, Raw.Alloc.
  rewrite lookup_insert_ne by auto. rewrite Hold, lookup_insert_eq.
  rewrite insert_insert_eq.
  unfold Raw.Pool_delete, Raw.Dealloc, Reallocate, Alloc.
  cbn [block pMem capacity size poolItemSize].
  replace (at_ + u64 (Raw.capacity this * 2) / 8 - at_)
    with (u64 (Raw.capacity this * 2) / 8) by lia.
  reflexivity.
Qed.

(** After a growth the object region starts [capacity / 8] bytes into the
    block, so reading the raw pool back gives the grown pool. *)
Lemma rebase_eq at_ p :
  {| block := block (Reallocate p);
     pMem := at_ + capacity (Reallocate p) / 8 - at_;
     capacity := capacity (Reallocate p);
     size := size (Reallocate p);
     poolItemSize := poolItemSize (Reallocate p) |}
  = Reallocate p.
Proof.
  replace (at_ + capacity (Reallocate p) / 8 - at_)
    with (pMem (Reallocate p)) by (cbn [pMem capacity Reallocate]; lia).
  destruct (Reallocate p). reflexivity.
Qed.

(** X18.  Growth moves the pool to a new block and releases the old one.
    When the block of the pool is live and [_aligned_malloc] returns an
    address that is not allocated, [Pool::Reallocate] succeeds; the pool
    then lives at the new address with the contents that the growth of
    its old contents gives, its object region starts [capacity / 8] bytes
    into the new block, the old base address is no longer allocated, so
    that raw pointers into the old block dangle, and no other allocation
    of the heap is touched. *)
Theorem Reallocate_moves_the_block heap at_ this blk :
  heap !! Raw.pLut this = Some blk -> heap !! at_ = None ->
  exists heap' this',
    Raw.Reallocate heap at_ this = Some (heap', this') /\
    contents heap' this' = Reallocate <$> contents heap this /\
    Raw.pLut this' = at_ /\
    Raw.pMem this' = at_ + Raw.capacity this' / 8 /\
    heap' !! Raw.pLut this = None /\
    (forall a, a <> at_ -> a <> Raw.pLut this -> heap' !! a = heap !! a).
Proof.
  intros Hold Hnew.
  assert (Raw.pLut this <> at_) as Hne by (intros E; congruence).
  destruct (Raw_Reallocate_spec heap at_ this blk Hold Hnew)
    as (p' & Hc & HR).
  eexists _, _. split; [exact HR|].
  split.
  { rewrite Hc. unfold contents. cbn [Raw.pLut Raw.pMem Raw.capacity
      Raw.size Raw.poolItemSize fmap option_fmap option_map].
    rewrite lookup_delete_ne, lookup_insert_eq by auto.
    f_equal. apply rebase_eq. }
  split; [reflexivity|]. split; [reflexivity|].
  split; [apply lookup_delete_eq|].
  intros a Ha1 Ha2. rewrite lookup_delete_ne, lookup_insert_ne by auto.
  reflexivity.
Qed.

Lemma Reallocate_moves_the_block_witness :
  exists heap' this',
    Raw.Reallocate {[ 4096 := [0; 0] ]} 8192 (Raw.mkPool 4096 4097 8 0 0)
    = Some (heap', this') /\
    Raw.pLut this' = 8192 /\ heap' !! 4096 = None.
Proof.
  destruct (Reallocate_moves_the_block {[ 4096 := [0; 0] ]} 8192
              (Raw.mkPool 4096 4097 8 0 0) [0; 0])
    as (heap' & this' & H1 & _ & H2 & _ & H3 & _).
  - reflexivity.
  - reflexivity.
  - exists heap', this'. auto.
Defined.

Lemma Raw_Reallocates_spec heap0 : forall ats this blk,
  heap0 !! Raw.pLut this = None ->
  Raw.fresh heap0 (Raw.pLut this) ats ->
  exists this' p p',
    contents (<[Raw.pLut this := blk]> heap0) this = Some p /\
    Raw.Reallocates (<[Raw.pLut this := blk]> heap0) ats this
    = Some (<[Raw.pLut this' := block p']> heap0, this') /\
    heap0 !! Raw.pLut this' = None /\
    contents (<[Raw.pLut this' := block p']> heap0) this' = Some p' /\
    p' = Nat.iter (length ats) Reallocate p.
Proof.
  induction ats as [|at_ ats IH]; intros this blk Hcur Hfresh.
  - assert (contents (<[Raw.pLut this := blk]> heap0) this
            = Some {| block := blk;
                      pMem := Raw.pMem this - Raw.pLut this;
                      capacity := Raw.capacity this;
                      size := Raw.size this;
                      poolItemSize := Raw.poolItemSize this |}) as Hc.
    { unfold contents. rewrite lookup_insert_eq. reflexivity. }
    exists this,
      {| block := blk;
         pMem := Raw.pMem this - Raw.pLut this;
         capacity := Raw.capacity this;
         size := Raw.size this;
         poolItemSize := Raw.poolItemSize this |},
      {| block := blk;
         pMem := Raw.pMem this - Raw.pLut this;
         capacity := Raw.capacity this;
         size := Raw.size this;
         poolItemSize := Raw.poolItemSize this |}.
    split; [exact Hc|].
    split; [reflexivity|]. split; [exact Hcur|]. split; [exact Hc|].
    reflexivity.
  - destruct Hfresh as (Hat & Hne & Hfresh).
    destruct (Raw_Reallocate_spec (<[Raw.pLut this := blk]> heap0) at_ this
                blk) as (p & Hc & HR).
    { apply lookup_insert_eq. }
    { rewrite lookup_insert_ne by auto. exact Hat. }
    cbn [Raw.Reallocates]. rewrite HR.
    rewrite delete_insert_ne by auto.
    rewrite delete_insert_eq, (delete_id heap0) by exact Hcur.
    set (this1 := {| Raw.pLut := at_;
                     Raw.pMem := at_ + capacity (Reallocate p) / 8;
                     Raw.capacity := capacity (Reallocate p);
                     Raw.size := size (Reallocate p);
                     Raw.poolItemSize := poolItemSize (Reallocate p) |}).
    destruct (IH this1 (block (Reallocate p)) Hat Hfresh)
      as (this' & p1 & p' & Hc1 & HR1 & Hfree & Hc' & Hiter).
    exists this', p, p'. split; [exact Hc|].
    split; [exact HR1|]. split; [exact Hfree|]. split; [exact Hc'|].
    rewrite Hiter. cbn [length]. rewrite Nat.iter_succ_r. f_equal.
    unfold contents in Hc1. cbn [Raw.pLut this1] in Hc1.
    rewrite lookup_insert_eq in Hc1. inversion Hc1; subst p1.
    cbn [Raw.pMem Raw.capacity Raw.size Raw.poolItemSize this1].
    apply rebase_eq.
Qed.

(** X19.  A pool owns exactly one block at any time and gives it back.
    A pool is constructed at an address that is not allocated and then
    grows any number of times, each time at an address that is not
    allocated at that moment.  Every growth succeeds; afterwards the heap
    is the initial heap plus the one current block of the pool, which
    holds what the same growths do to the contents of a new pool; and the
    destructor of the pool gives back the initial heap: nothing leaks and
    nothing else is released. *)
Theorem pool_lifetime_leaves_the_heap_as_it_was heap0 at0 ats elementSize
    poolCapacity :
  heap0 !! at0 = None -> Raw.fresh heap0 at0 ats ->
  exists heap' this' p',
    Raw.Reallocates (Raw.Pool_new heap0 at0 elementSize poolCapacity).1 ats
      (Raw.Pool_new heap0 at0 elementSize poolCapacity).2
    = Some (heap', this') /\
    contents heap' this' = Some p' /\
    p' = Nat.iter (length ats) Reallocate (Pool_new elementSize poolCapacity) /\
    (forall a, a <> Raw.pLut this' -> heap' !! a = heap0 !! a) /\
    Raw.Pool_delete heap' this' = heap0.
Proof.
  intros H0 Hfresh. unfold Raw.Pool_new, Raw.Alloc. cbn [fst snd].
  set (this0 := {| Raw.pLut := at0;
                   Raw.pMem := at0 + poolCapacity / 8;
                   Raw.capacity := poolCapacity;
                   Raw.size := 0;
                   Raw.poolItemSize := elementSize |}).
  destruct (Raw_Reallocates_spec heap0 ats this0
              (replicate
                 (Z.to_nat
                    (u64 (poolCapacity / 8 + u64 (elementSize * poolCapacity))))
                 0) H0 Hfresh)
    as (this' & p & p' & Hc & HR & Hfree & Hc' & Hiter).
  cbn [Raw.pLut this0] in HR, Hc.
  eexists _, this', p'. split; [exact HR|]. split; [exact Hc'|].
  split.
  { rewrite Hiter. f_equal. unfold contents in Hc.
    rewrite lookup_insert_eq in Hc. inversion Hc.
    cbn [Raw.pMem Raw.pLut Raw.capacity Raw.size Raw.poolItemSize this0].
    unfold Pool_new, Alloc. f_equal. lia. }
  split.
  { intros a Ha. apply lookup_insert_ne. auto. }
  unfold Raw.Pool_delete, Raw.Dealloc.
  rewrite delete_insert_eq. apply delete_id. exact Hfree.
Qed.

Lemma pool_lifetime_leaves_the_heap_as_it_was_witness :
  exists heap' this',
    Raw.Reallocates (Raw.Pool_new {[ 16 := [1] ]} 4096 4 8).1 [8192; 4096]
      (Raw.Pool_new {[ 16 := [1] ]} 4096 4 8).2
    = Some (heap', this') /\
    Raw.Pool_delete heap' this' = {[ 16 := [1] ]}.
Proof.
  destruct (pool_lifetime_leaves_the_heap_as_it_was {[ 16 := [1] ]} 4096
              [8192; 4096] 4 8)
    as (heap' & this' & p' & H1 & _ & _ & _ & H2).
  - reflexivity.
  - cbn [Raw.fresh]. repeat split; (reflexivity || discriminate).
  - exists heap', this'. auto.
Defined.

(** ** Fsa *)

(** X20.  The static pool of an instantiation of [Fsa::GetPool] is
    constructed on the first call and never again.  Over any sequence of
    calls, a pool that exists keeps whatever state it is in, a pool that
    is requested for the first time is a new [Pool(Size, Capacity)],
    instantiations that are not called get no pool, and every call returns
    the address of the pool of its own template arguments, which exists
    after the call. *)
Theorem GetPool_constructs_each_static_once (calls : list (Z * Z))
    (statics : gmap (Z * Z) Pool) :
  (forall k p, statics !! k = Some p ->
     foldl (fun st k => (GetPool st k.1 k.2).1) statics calls !! k = Some p) /\
  (forall k, k ∈ calls -> statics !! k = None ->
     foldl (fun st k => (GetPool st k.1 k.2).1) statics calls !! k
     = Some (Pool_new k.1 k.2)) /\
  (forall k, k ∉ calls ->
     foldl (fun st k => (GetPool st k.1 k.2).1) statics calls !! k
     = statics !! k) /\
  (forall Size Capacity,
     (GetPool statics Size Capacity).2 = (Size, Capacity) /\
     is_Some ((GetPool statics Size Capacity).1 !! (Size, Capacity))).
Proof.
  assert (forall st (k k' : Z * Z),
            (GetPool st k.1 k.2).1 !! k' =
            match st !! k' with
            | Some p => Some p
            | None => if decide (k = k') then Some (Pool_new k.1 k.2) else None
            end) as Hone.
  { intros st [S C] k'. unfold GetPool. cbn [fst snd].
    destruct (st !! (S, C)) as [p|] eqn:E; cbn [fst].
    - destruct (decide ((S, C) = k')) as [<-|Hne].
      + rewrite E. reflexivity.
      + destruct (st !! k'); reflexivity.
    - destruct (decide ((S, C) = k')) as [<-|Hne].
      + rewrite lookup_insert_eq, E. reflexivity.
      + rewrite lookup_insert_ne by exact Hne. destruct (st !! k'); reflexivity. }
  revert statics. induction calls as [|k0 calls IH]; intros statics.
  - cbn [foldl]. split; [auto|]. split.
    { intros k Hin. apply elem_of_nil in Hin. contradiction. }
    split; [auto|].
    intros S C. split; [unfold GetPool; destruct (statics !! (S, C)); reflexivity|].
    pose proof (Hone statics (S, C) (S, C)) as H1. cbn [fst snd] in H1.
    rewrite H1. destruct (statics !! (S, C)); [eauto|].
    rewrite decide_True by reflexivity. eauto.
  - cbn [foldl]. destruct (IH (GetPool statics k0.1 k0.2).1)
      as (IH1 & IH2 & IH3 & _).
    split; [|split; [|split]].
    + intros k p Hk. apply IH1. rewrite Hone, Hk. reflexivity.
    + intros k Hin Hk. apply elem_of_cons in Hin.
      destruct (decide (k0 = k)) as [->|Hne].
      * apply IH1. rewrite Hone, Hk, decide_True by reflexivity. reflexivity.
      * destruct Hin as [->|Hin]; [contradiction|].
        apply IH2; [exact Hin|].
        rewrite Hone, Hk, decide_False by exact Hne. reflexivity.
    + intros k Hnin. apply not_elem_of_cons in Hnin as [Hne Hnin].
      rewrite IH3 by exact Hnin. rewrite Hone.
      destruct (statics !! k); [reflexivity|].
      rewrite decide_False by auto. reflexivity.
    + intros S C. split; [unfold GetPool; destruct (statics !! (S, C)); reflexivity|].
      pose proof (Hone statics (S, C) (S, C)) as H1. cbn [fst snd] in H1.
      rewrite H1. destruct (statics !! (S, C)); [eauto|].
      rewrite decide_True by reflexivity. eauto.
Qed.

(** ** Visitors that write *)

Lemma object_at_length sizeofT q k :
  0 <= sizeofT -> 0 <= pMem q -> 0 <= k ->
  pMem q + (k + 1) * sizeofT <= Z.of_nat (length (block q)) ->
  length (object_at sizeofT q k) = Z.to_nat sizeofT.
Proof.
  intros Hs Hm Hk Hin. unfold object_at, bytes_at, Internal.
  assert (0 <= k * sizeofT) by (apply Z.mul_nonneg_nonneg; lia).
  rewrite length_take, length_drop. lia.
Qed.

(** Writing [bs] over the element with index [n]. *)
Lemma write_object_same sizeofT q n bs :
  0 <= pMem q -> 0 <= n -> 0 <= sizeofT ->
  length bs = Z.to_nat sizeofT ->
  pMem q + (n + 1) * sizeofT <= Z.of_nat (length (block q)) ->
  object_at sizeofT
    (set_block q (list_inserts (Z.to_nat (pMem q + n * sizeofT)) bs (block q)))
    n = bs.
Proof.
  intros Hm Hn Hs Hlen Hin. unfold object_at, bytes_at, Internal.
  cbn [pMem block set_block]. rewrite <- Hlen.
  assert (0 <= n * sizeofT) by (apply Z.mul_nonneg_nonneg; lia).
  apply bytes_at_inserts. lia.
Qed.

Lemma write_object_other sizeofT q n bs k :
  0 <= pMem q -> 0 <= n -> 0 <= k -> k <> n -> 0 <= sizeofT ->
  length bs = Z.to_nat sizeofT ->
  object_at sizeofT
    (set_block q (list_inserts (Z.to_nat (pMem q + n * sizeofT)) bs (block q)))
    k = object_at sizeofT q k.
Proof.
  intros Hm Hn Hk Hne Hs Hlen. unfold object_at, Internal.
  cbn [pMem set_block]. apply bytes_at_ext. intros x Hx.
  cbn [block set_block].
  assert (0 <= n * sizeofT) by (apply Z.mul_nonneg_nonneg; lia).
  assert (0 <= k * sizeofT) by (apply Z.mul_nonneg_nonneg; lia).
  destruct (Z.lt_ge_cases k n) as [Hlt|Hge].
  - assert ((k + 1) * sizeofT <= n * sizeofT)
      by (apply Z.mul_le_mono_nonneg_r; lia).
    apply list_lookup_inserts_lt. lia.
  - assert ((n + 1) * sizeofT <= k * sizeofT)
      by (apply Z.mul_le_mono_nonneg_r; lia).
    apply list_lookup_inserts_ge. lia.
Qed.

Section WritingVisitor.

Variable sizeofT : Z.
Variable Size : Z.
Variable g : list Z -> list Z.
Variable p : Pool.
Variable live : Z -> bool.
Hypothesis Hwf : pool_wf p.
Hypothesis Hs : 0 < sizeofT.
Hypothesis Hitem : sizeofT <= poolItemSize p.
Hypothesis Hg : forall x, length (g x) = length x.

Local Abbreviation loop_inv := (rewritten_below sizeofT g p live).

Lemma loop_inv_start : loop_inv 0 p.
Proof. unfold rewritten_below. repeat split; auto. intros; lia. Qed.

Lemma slot_in_block n :
  0 <= n < capacity p ->
  0 <= pMem p /\
  pMem p + (n + 1) * sizeofT <= Z.of_nat (length (block p)).
Proof.
  intros Hn. destruct Hwf as [Hc H8 Hm Hi Hb].
  assert (0 <= capacity p / 8) by (Z.div_mod_to_equations; lia).
  assert ((n + 1) * sizeofT <= capacity p * poolItemSize p)
    by (apply Z.mul_le_mono_nonneg; lia).
  lia.
Qed.

Lemma loop_inv_skip n q :
  0 <= n -> live n = false -> loop_inv n q -> loop_inv (n + 1) q.
Proof.
  intros Hn Hl (H1 & H2 & H3 & H4 & H5 & H6 & H7 & H8).
  unfold rewritten_below. repeat split; try assumption.
  - intros k Hk. apply H7. lia.
  - intros k Hk. destruct (Z.eq_dec k n) as [->|Hne].
    + rewrite Hl. apply H7. lia.
    + apply H8. lia.
Qed.

Lemma loop_inv_write n q :
  0 <= n < capacity p -> live n = true -> loop_inv n q ->
  loop_inv (n + 1)
    (set_block q
       (rewrite_element sizeofT g (pMem q + n * sizeofT) (block q))).
Proof.
  intros Hn Hl (H1 & H2 & H3 & H4 & H5 & H6 & H7 & H8).
  destruct (slot_in_block n Hn) as [Hm Hin].
  assert (0 <= n * sizeofT) by (apply Z.mul_nonneg_nonneg; lia).
  assert (length (object_at sizeofT p n) = Z.to_nat sizeofT) as Hlen.
  { apply object_at_length; lia. }
  assert (rewrite_element sizeofT g (pMem q + n * sizeofT) (block q)
          = list_inserts (Z.to_nat (pMem q + n * sizeofT))
              (g (object_at sizeofT p n)) (block q)) as Hwrite.
  { unfold rewrite_element.
    change (take (Z.to_nat sizeofT)
              (drop (Z.to_nat (pMem q + n * sizeofT)) (block q)))
      with (object_at sizeofT q n).
    rewrite H7 by lia. rewrite take_ge; [reflexivity|].
    rewrite Hg, Hlen. lia. }
  rewrite Hwrite.
  assert (length (g (object_at sizeofT p n)) = Z.to_nat sizeofT) as Hlen'
    by (rewrite Hg; exact Hlen).
  unfold rewritten_below. cbn [pMem capacity size poolItemSize block set_block].
  split; [exact H1|]. split; [exact H2|]. split; [exact H3|].
  split; [exact H4|].
  split; [rewrite length_inserts; exact H5|].
  split.
  { intros x Hx. rewrite list_lookup_inserts_lt by lia. apply H6. exact Hx. }
  split.
  { intros k Hk. rewrite write_object_other by lia. apply H7. lia. }
  intros k Hk. destruct (Z.eq_dec k n) as [->|Hne].
  - rewrite Hl. apply write_object_same; lia.
  - rewrite write_object_other by lia. apply H8. lia.
Qed.

(** The bit [ForAllActive] tests at slot [n] is the bit of slot [n] of
    [p], as long as the bitmap has at most [Size] bytes. *)
Lemma write_step_reads n q :
  0 < Size -> capacity p <= 8 * Size -> 0 <= n < capacity p ->
  loop_inv n q ->
  ForAllActive_write_step sizeofT Size (rewrite_element sizeofT g)
    (Some q) n
  = Some (if slot_bit p n
          then set_block q
                 (rewrite_element sizeofT g (pMem q + n * sizeofT) (block q))
          else q).
Proof.
  intros HS Hcap Hn (_ & _ & _ & _ & _ & H6 & _).
  unfold ForAllActive_write_step.
  pose proof (Z.mod_pos_bound n 8 ltac:(lia)) as Hm.
  assert (0 <= n / 8 < Size) as Hd by (Z.div_mod_to_equations; lia).
  assert ((if n =? 0 then 0 else (n / 8) mod Size) = n / 8) as ->.
  { destruct (Z.eqb_spec n 0) as [->|]; [reflexivity|].
    apply Z.mod_small. exact Hd. }
  assert ((if n =? 0 then 0 else u8 (n mod 8)) = n mod 8) as ->.
  { destruct (Z.eqb_spec n 0) as [->|]; [reflexivity|apply u8_mod8]. }
  destruct (wf_lut_lookup p n Hwf Hn) as [b Hb].
  rewrite H6 by (pose proof (wf_byte_index p n Hwf Hn); lia).
  unfold slot_bit. rewrite Hb. rewrite land_flag_eqb by lia.
  destruct (Z.testbit b (n mod 8)); reflexivity.
Qed.

End WritingVisitor.

Lemma ForAllActive_write_loop sizeofT Size g p :
  pool_wf p -> 0 < sizeofT -> sizeofT <= poolItemSize p ->
  (forall x, length (g x) = length x) ->
  0 < Size -> capacity p <= 8 * Size ->
  forall m : nat, Z.of_nat m <= capacity p ->
  exists q,
    foldl (ForAllActive_write_step sizeofT Size (rewrite_element sizeofT g))
      (Some p) (seqZ 0 (Z.of_nat m)) = Some q /\
    pMem q = pMem p /\ capacity q = capacity p /\ size q = size p /\
    poolItemSize q = poolItemSize p /\
    length (block q) = length (block p) /\
    (forall x, (x < Z.to_nat (pMem p))%nat -> block q !! x = block p !! x) /\
    (forall k, Z.of_nat m <= k ->
       object_at sizeofT q k = object_at sizeofT p k) /\
    (forall k, 0 <= k < Z.of_nat m ->
       object_at sizeofT q k =
       if slot_bit p k then g (object_at sizeofT p k)
       else object_at sizeofT p k).
Proof.
  intros Hwf Hs Hitem Hg HS Hcap m. induction m as [|m IH]; intros Hm.
  - exists p. split; [reflexivity|].
    apply (loop_inv_start sizeofT g p (slot_bit p)).
  - destruct IH as (q & Hrun & Hinv); [lia|].
    rewrite seqZ_S, foldl_app, Hrun. cbn [foldl]. rewrite Z.add_0_l.
    rewrite (write_step_reads sizeofT Size g p (slot_bit p) Hwf)
      by (assumption || lia).
    rewrite Nat2Z.inj_succ.
    replace (Z.succ (Z.of_nat m)) with (Z.of_nat m + 1) by lia.
    destruct (slot_bit p (Z.of_nat m)) eqn:E; eexists; (split; [reflexivity|]).
    + apply (loop_inv_write sizeofT g p (slot_bit p));
        (assumption || lia).
    + apply (loop_inv_skip sizeofT g p (slot_bit p)); (assumption || lia).
Qed.

Lemma ForAllFast_write_loop sizeofT g p :
  pool_wf p -> 0 < sizeofT -> sizeofT <= poolItemSize p ->
  (forall x, length (g x) = length x) ->
  forall m : nat, Z.of_nat m <= capacity p ->
  exists q,
    foldl (fun q i =>
             set_block q
               (rewrite_element sizeofT g (pMem q + i * sizeofT) (block q)))
      p (seqZ 0 (Z.of_nat m)) = q /\
    pMem q = pMem p /\ capacity q = capacity p /\ size q = size p /\
    poolItemSize q = poolItemSize p /\
    length (block q) = length (block p) /\
    (forall x, (x < Z.to_nat (pMem p))%nat -> block q !! x = block p !! x) /\
    (forall k, Z.of_nat m <= k ->
       object_at sizeofT q k = object_at sizeofT p k) /\
    (forall k, 0 <= k < Z.of_nat m ->
       object_at sizeofT q k =
       if true then g (object_at sizeofT p k) else object_at sizeofT p k).
Proof.
  intros Hwf Hs Hitem Hg m. induction m as [|m IH]; intros Hm.
  - exists p. split; [reflexivity|].
    apply (loop_inv_start sizeofT g p (fun _ => true)).
  - destruct IH as (q & Hrun & Hinv); [lia|].
    rewrite seqZ_S, foldl_app, Hrun. cbn [foldl]. rewrite Z.add_0_l.
    rewrite Nat2Z.inj_succ.
    replace (Z.succ (Z.of_nat m)) with (Z.of_nat m + 1) by lia.
    eexists. split; [reflexivity|].
    apply (loop_inv_write sizeofT g p (fun _ => true));
      (assumption || lia || reflexivity).
Qed.


